(** * NodeFlow: plugin composition, change transactions and the event bus

    A shallow embedding of the two implementations of the NodeFlow
    instance found in the repository:

    - [App]: the class [NodeFlow] and the composer [create] of
      [examples/bun-react/src/app.tsx] (listener registry
      [Map<keyof E, Set<AnyFunction>>], [init], [change], [emit], [on],
      [off]);
    - [Pkg]: the class [NodeFlow] and [createNodeFlow] of [nodeflow.ts]
      (listener registry as an object of arrays, [on], [off], [emit]).

    How the code is modelled:

    - Function values are references ([fid]), compared by identity as
      [Set] and [!==] do; what a function does when it is called is given
      by a table [code].  The bodies of callbacks are terms of a small
      command language whose primitives are the operations of the
      instance, so that a callback may re-enter the instance (a listener
      calling [change], [on], [off], [emit] or [init]).
    - The state of app.tsx is a reference into a heap of objects: a
      callback can write into the state object or replace it, and the
      payload of [beforeChange] and [change] is the reference.  The
      [Set]s of the registry are objects of a second heap, because a
      [forEach] observes the additions and deletions made while it runs.
    - A call either returns or throws ([outcome]); recursion through
      listeners is bounded by fuel, [None] meaning that it ran out.
    - [trace] records what an observer of the run would see: the calls
      of [emit], of listeners, of init thunks and of cleanups, and what
      callbacks log.  It is not part of the program.
    - A plugin of app.tsx is a function of the instance that returns its
      [state], [api] and [init] without side effect; an api factory of
      nodeflow.ts is a function of the state it can read through the
      context.
    - Objects are made by [{}] and inherit from [Object.prototype].  The
      registry of nodeflow.ts is such an object used as a dictionary, and
      [Pkg.read], [Pkg.on], [Pkg.off] and [Pkg.emit] follow what the
      inherited names ("constructor", "toString", ...) read as there.
      Elsewhere the names are restricted by type: callbacks write state
      properties other than [__proto__] ([field]) and call api methods
      whose names [Object.prototype] does not have ([method]), and the
      objects handed to [Object.assign] have no own property [__proto__]
      ([fragment]); object spreads copy every own property.

    Definitions come first (shared values, [App], [Pkg], [Examples]),
    then the lemmas about each implementation ([AppFacts], [AppRuns],
    [PkgFacts]), then the properties C1 to C10. *)

From Stdlib Require Import ZArith.
From stdpp Require Import gmap strings list fin_maps.

Open Scope Z_scope.
Open Scope nat_scope.

(** ** Values shared by both implementations *)

Abbreviation loc := nat.
Abbreviation fid := nat.

#[local] Set Warnings "-register-all".
Inductive value :=
| VUndef
| VNum (n : Z)
| VStr (s : string)
| VObj (fields : list (string * value))
| VRef (l : loc)
| VFun (f : fid).

(** An object is a finite map from property names to values. *)
Abbreviation obj := (gmap string value).

(** [Object.assign(target, source)] and [{...target, ...source}]: the
    properties of [source] overwrite those of [target]. *)
Definition assign (target source : obj) : obj := source ∪ target.

(** The shallow merge of a list of fragments, in list order. *)
Definition shallow_merge (fragments : list obj) : obj :=
  foldl assign ∅ fragments.

(** Completion of a call: normal return or a thrown exception. *)
Inductive outcome :=
| Normal
| Thrown (e : value).

Definition TypeError : value := VStr "TypeError".

(** ** What objects inherit *)

(** The property names of [Object.prototype].  Read from an object made
    by [{}] that has no own property of that name, each of them gives a
    function, and [__proto__] gives [Object.prototype] itself. *)
Definition prototype_keys : list string :=
  ["constructor"; "hasOwnProperty"; "isPrototypeOf"; "propertyIsEnumerable";
   "toLocaleString"; "toString"; "valueOf"; "__defineGetter__";
   "__defineSetter__"; "__lookupGetter__"; "__lookupSetter__"; "__proto__"].

Definition inherited (k : string) : bool := bool_decide (k ∈ prototype_keys).

(** A method name that [Object.prototype] does not have: [api[name]] is
    an own property of the api object or [undefined]. *)
Record method := Method {
  method_name :> string;
  method_own : Is_true (negb (inherited method_name))
}.

(** A property name other than [__proto__]: the assignment [o[k] = v]
    creates or updates the own property [k] of [o]. *)
Record field := Field {
  field_name :> string;
  field_plain : Is_true (negb (bool_decide (field_name = "__proto__")))
}.

(** An object without an own property [__proto__], the one property that
    [Object.assign] would hand to the setter of [Object.prototype]
    instead of copying it: [Object.assign(target, fragment)] copies
    every property of the fragment. *)
Record fragment := Fragment {
  props :> obj;
  props_plain : props !! "__proto__" = None
}.

#[global] Instance value_inhabited : Inhabited value := populate VUndef.

(** * The instance of app.tsx *)

Module App.

(** Expressions read the object heap and the current [state] reference. *)
Definition expr := list obj → loc → value.

(** Callback bodies. *)
Inductive cmd :=
| Skip
| Seq (c1 c2 : cmd)
| If (b : list obj → loc → bool) (c1 c2 : cmd)
| Throw (e : expr)
| Try (c : cmd) (handler : value → cmd)
| Log (e : expr)
| SetField (k : field) (e : expr)       (* nodeflow.state[k] = e *)
| SetState (f : list obj → loc → obj)   (* nodeflow.state = { ... } *)
| Change (callback : cmd)               (* nodeflow.change(() => callback) *)
| Emit (type : string) (data : expr)    (* nodeflow.emit(type, data) *)
| On (type : string) (handler : fid)    (* nodeflow.on(type, handler) *)
| Off (type : string) (handler : fid)   (* nodeflow.off(type, handler) *)
| Init                                  (* nodeflow.init() *)
| CallApi (name : method) (arg : expr). (* nodeflow.api[name](arg) *)

(** A plugin's [init: () => () => void]: what the thunk does when called
    and what the cleanup it returns does when called. *)
Record init_thunk := { init_body : cmd; init_cleanup : cmd }.

(** [cmd_forall P c]: every primitive operation that occurs in [c]
    satisfies [P]. *)
Fixpoint cmd_forall (P : cmd → Prop) (c : cmd) : Prop :=
  match c with
  | Seq c1 c2 => cmd_forall P c1 ∧ cmd_forall P c2
  | If _ c1 c2 => cmd_forall P c1 ∧ cmd_forall P c2
  | Try c handler => cmd_forall P c ∧ ∀ e, cmd_forall P (handler e)
  | Change callback => cmd_forall P callback
  | _ => P c
  end.

(** Callbacks that only write to the state and call [change], nested to
    any depth, such as
    [() => { change(() => { state.x = 1 }); change(() => { state.x = 2 }) }]. *)
Fixpoint nested_mutations (c : cmd) : Prop :=
  match c with
  | Skip | Log _ | SetField _ _ | SetState _ => True
  | Seq c1 c2 | If _ c1 c2 => nested_mutations c1 ∧ nested_mutations c2
  | Change callback => nested_mutations callback
  | _ => False
  end.

(** Straight-line code that only logs and writes to the state. *)
Fixpoint writes_only (c : cmd) : Prop :=
  match c with
  | Skip | Log _ | SetField _ _ | SetState _ => True
  | Seq c1 c2 | If _ c1 c2 => writes_only c1 ∧ writes_only c2
  | _ => False
  end.

(** Nesting depth of calls, an amount of fuel that suffices for them. *)
Fixpoint depth (c : cmd) : nat :=
  match c with
  | Seq c1 c2 | If _ c1 c2 => S (depth c1 `max` depth c2)
  | Change callback => S (depth callback)
  | _ => 1
  end.

(** Thunks whose body and cleanup are straight-line code, and an amount
    of fuel that suffices to call them all. *)
Definition plain_thunk (t : init_thunk) : Prop :=
  writes_only (init_body t) ∧ writes_only (init_cleanup t).

Definition thunks_fuel (ts : list init_thunk) : nat :=
  S (length ts +
     foldr (λ t n, (depth (init_body t) `max` depth (init_cleanup t)) `max` n)
       0 ts).

(** The value of the field [_init]: the default [() => () => {}], or the
    closure installed by [create], which captures the array [inits]. *)
Inductive init_fn :=
| InitDefault
| InitComposed (inits : list init_thunk).

Definition inits_of (f : init_fn) : list init_thunk :=
  match f with
  | InitDefault => []
  | InitComposed inits => inits
  end.

(** Who called [emit]: [change] itself or callback code. *)
Inductive origin := ByChange | ByCode.

(** Observations. *)
Inductive event :=
| Fired (o : origin) (type : string) (data : value)  (* a call of emit *)
| Invoked (type : string) (handler : fid) (data : value)
                                     (* listener(data) inside emit(type, data) *)
| InitCalled (k : nat)                               (* inits[k]() *)
| CleanupCalled (k : nat)                            (* the cleanup of inits[k] *)
| Logged (v : value).

(** The fields of the class [NodeFlow], the heap of objects, the heap of
    [Set] objects and the observations so far.  A [Set] is its list of
    entries in insertion order; a deleted entry stays as [None], as in
    the language definition, which is what [forEach] observes when the
    set changes under it. *)
Record World := {
  state : loc;
  api : loc;
  _init : init_fn;
  initialized : bool;
  changing : bool;
  listeners : gmap string loc;
  objs : list obj;
  sets : list (list (option fid));
  trace : list event
}.

Definition res := option (outcome * World).

(** The calls of [emit(type, _)] that [change] itself made. *)
Definition fired_by_change (type : string) (ev : event) : bool :=
  match ev with
  | Fired ByChange t _ => bool_decide (t = type)
  | _ => false
  end.

Definition count_fired (type : string) (tr : list event) : nat :=
  length (filter (λ ev, fired_by_change type ev = true) tr).

(** The calls of [emit(type, _)], whoever made them. *)
Definition is_fired (type : string) (ev : event) : bool :=
  match ev with
  | Fired _ t _ => bool_decide (t = type)
  | _ => false
  end.

Definition count_emitted (type : string) (tr : list event) : nat :=
  length (filter (λ ev, is_fired type ev = true) tr).

Definition is_by_change (ev : event) : bool :=
  match ev with
  | Fired ByChange _ _ => true
  | _ => false
  end.

(** The events fired by [change] itself, in order. *)
Definition by_change (tr : list event) : list event :=
  filter (λ ev, is_by_change ev = true) tr.

Definition log (ev : event) (w : World) : World :=
  {| state := state w; api := api w; _init := _init w;
     initialized := initialized w; changing := changing w;
     listeners := listeners w; objs := objs w; sets := sets w;
     trace := trace w ++ [ev] |}.

Definition set_changing (b : bool) (w : World) : World :=
  {| state := state w; api := api w; _init := _init w;
     initialized := initialized w; changing := b;
     listeners := listeners w; objs := objs w; sets := sets w;
     trace := trace w |}.

Definition set_initialized (b : bool) (w : World) : World :=
  {| state := state w; api := api w; _init := _init w;
     initialized := b; changing := changing w;
     listeners := listeners w; objs := objs w; sets := sets w;
     trace := trace w |}.

Definition set__init (f : init_fn) (w : World) : World :=
  {| state := state w; api := api w; _init := f;
     initialized := initialized w; changing := changing w;
     listeners := listeners w; objs := objs w; sets := sets w;
     trace := trace w |}.

Definition set_listeners (m : gmap string loc) (w : World) : World :=
  {| state := state w; api := api w; _init := _init w;
     initialized := initialized w; changing := changing w;
     listeners := m; objs := objs w; sets := sets w;
     trace := trace w |}.

Definition set_sets (ss : list (list (option fid))) (w : World) : World :=
  {| state := state w; api := api w; _init := _init w;
     initialized := initialized w; changing := changing w;
     listeners := listeners w; objs := objs w; sets := ss;
     trace := trace w |}.

Definition set_objs (os : list obj) (w : World) : World :=
  {| state := state w; api := api w; _init := _init w;
     initialized := initialized w; changing := changing w;
     listeners := listeners w; objs := os; sets := sets w;
     trace := trace w |}.

Definition set_state (l : loc) (w : World) : World :=
  {| state := l; api := api w; _init := _init w;
     initialized := initialized w; changing := changing w;
     listeners := listeners w; objs := objs w; sets := sets w;
     trace := trace w |}.

(** [nodeflow.state[k] = v]: a write into the current state object. *)
Definition write_field (k : string) (v : value) (w : World) : World :=
  set_objs (alter (insert k v) (state w) (objs w)) w.

(** [nodeflow.state = o]: a new object replaces the state. *)
Definition replace_state (o : obj) (w : World) : World :=
  set_state (length (objs w)) (set_objs (objs w ++ [o]) w).

(** [Object.assign(target, source)] on the object at [target]. *)
Definition object_assign (target : loc) (source : fragment) (w : World)
  : World :=
  set_objs (alter (λ o, assign o (props source)) target (objs w)) w.

(** *** Set<AnyFunction> *)

Definition set_has (handler : fid) (entries : list (option fid)) : bool :=
  bool_decide (Some handler ∈ entries).

(** [Set.prototype.add]: appended unless already an element. *)
Definition set_add (handler : fid) (entries : list (option fid))
  : list (option fid) :=
  if set_has handler entries then entries else entries ++ [Some handler].

(** [Set.prototype.delete]: the entry is emptied. *)
Definition set_delete (handler : fid) (entries : list (option fid))
  : list (option fid) :=
  (λ e, if decide (e = Some handler) then None else e) <$> entries.

(** [Set.prototype.size]: the entries that are not empty. *)
Definition set_size (entries : list (option fid)) : nat :=
  length (omap id entries).

(** *** on and off (app.tsx 46-61) *)

(** [on] returns the closure [() => this.off(type, handler)], given here
    by its body. *)
Definition on (type : string) (handler : fid) (w : World) : World * cmd :=
  let '(s, w) :=
    match listeners w !! type with
    | Some s => (s, w)
    | None => (length (sets w), set_sets (sets w ++ [[]]) w)   (* new Set() *)
    end in
  let w := set_sets (alter (set_add handler) s (sets w)) w in
  let w := set_listeners (<[type := s]> (listeners w)) w in
  (w, Off type handler).

Definition off (type : string) (handler : fid) (w : World) : World :=
  match listeners w !! type with
  | Some s =>
      let w := set_sets (alter (set_delete handler) s (sets w)) w in
      if bool_decide (set_size (default [] (sets w !! s)) = 0)
      then set_listeners (delete type (listeners w)) w
      else w
  | None => w
  end.

(** The entries of the set registered for [type], and the listeners
    among them, in iteration order. *)
Definition entries_of (type : string) (w : World) : list (option fid) :=
  default [] (listeners w !! type ≫= (sets w !!.)).

Definition registered (type : string) (w : World) : list fid :=
  omap id (entries_of type w).

(** The registry is well formed: every key leads to a set in the heap,
    no set is shared by two keys, no key leads to a set without
    listeners, and a set that no key leads to has no listeners. *)
Record registry_wf (w : World) : Prop := {
  wf_valid : ∀ t s, listeners w !! t = Some s → s < length (sets w);
  wf_inj : ∀ t1 t2 s,
    listeners w !! t1 = Some s → listeners w !! t2 = Some s → t1 = t2;
  wf_nonempty : ∀ t, is_Some (listeners w !! t) → registered t w ≠ [];
  wf_orphans : ∀ s es,
    sets w !! s = Some es → (∀ t, listeners w !! t ≠ Some s) →
    omap id es = []
}.

(** The set at [s] is the one registered for [t], or no key leads to
    it: what holds, throughout, of the set a [forEach] of [emit(t, _)]
    runs over. *)
Definition owns (t : string) (s : loc) (w : World) : Prop :=
  s < length (sets w) ∧
  (listeners w !! t = Some s ∨ ∀ t', listeners w !! t' ≠ Some s).

(** The calls of [handler] made by the [forEach] of [emit(type, _)]. *)
Definition is_invocation (type : string) (handler : fid) (ev : event) : bool :=
  match ev with
  | Invoked t h _ => bool_decide (t = type ∧ h = handler)
  | _ => false
  end.

Definition invocations (type : string) (handler : fid) (tr : list event)
  : nat :=
  length (filter (λ ev, is_invocation type handler ev = true) tr).

(** The indices of the init thunks called, and of the thunks whose
    cleanups were called, in the order of the calls. *)
Definition init_calls (tr : list event) : list nat :=
  omap (λ ev, match ev with InitCalled k => Some k | _ => None end) tr.

Definition cleanup_calls (tr : list event) : list nat :=
  omap (λ ev, match ev with CleanupCalled k => Some k | _ => None end) tr.

(** Callback code that does not itself emit [beforeChange] or [change]. *)
Definition no_change_emit (c : cmd) : Prop :=
  match c with
  | Emit t _ => t ≠ "beforeChange" ∧ t ≠ "change"
  | _ => True
  end.

(** During a change, for such code: the flag is set and the two events
    have been emitted [a] and [b] times. *)
Definition emitted_in_change (a b : nat) (w : World) : Prop :=
  changing w = true ∧
  count_emitted "beforeChange" (trace w) = a ∧
  count_emitted "change" (trace w) = b ∧
  Forall (λ t, cmd_forall no_change_emit (init_body t)) (inits_of (_init w)).

(** Callback code that does not call [init()]. *)
Definition init_free (c : cmd) : Prop := c ≠ Init.

(** Callback code that does not register [handler] for [type] again. *)
Definition not_on (type : string) (handler : fid) (c : cmd) : Prop :=
  c ≠ On type handler.

(** While a change is in progress the flag stays set and nothing is
    fired on behalf of [change]. *)
Definition in_change (l : list event) (w : World) : Prop :=
  changing w = true ∧ by_change (trace w) = l.

(** A listener that is not registered for an event, and that no
    callback registers for it again, is never called by the [forEach] of
    an [emit] of that event. *)
Definition unregistered (type : string) (h : fid) (a : nat) (w : World)
  : Prop :=
  registry_wf w ∧ (h ∉ registered type w) ∧
  invocations type h (trace w) = a ∧
  Forall (λ t, cmd_forall (not_on type h) (init_body t)) (inits_of (_init w)).

(** The calls of listeners and the calls of [emit], in order. *)
Definition is_call (ev : event) : bool :=
  match ev with Invoked _ _ _ => true | _ => false end.

Definition calls (tr : list event) : list event :=
  filter (λ ev, is_call ev = true) tr.

Definition is_emission (ev : event) : bool :=
  match ev with Fired _ _ _ => true | _ => false end.

Definition emissions (tr : list event) : list event :=
  filter (λ ev, is_emission ev = true) tr.

(** Callback code that leaves the event bus alone: no [emit], [change],
    [on], [off] or [init], directly or in the functions it calls. *)
Fixpoint quiet (c : cmd) : Prop :=
  match c with
  | Skip | Throw _ | Log _ | SetField _ _ | SetState _ | CallApi _ _ => True
  | Seq c1 c2 | If _ c1 c2 => quiet c1 ∧ quiet c2
  | Try c handler => quiet c ∧ ∀ e, quiet (handler e)
  | _ => False
  end.

(** What such code leaves as it is: the registry, the calls and
    emissions observed, and the flags. *)
Definition bus_kept (w w' : World) : Prop :=
  listeners w' = listeners w ∧ sets w' = sets w ∧
  calls (trace w') = calls (trace w) ∧
  emissions (trace w') = emissions (trace w) ∧
  changing w' = changing w ∧ initialized w' = initialized w ∧
  _init w' = _init w.

(** The listeners of [beforeChange] and of [change] are straight-line
    code of depth at most [m], whatever they are called with. *)
Definition plain_listeners (code : fid → value → cmd) (m : nat) (w : World)
  : Prop :=
  ∀ h d, h ∈ registered "beforeChange" w ++ registered "change" w →
         writes_only (code h d) ∧ depth (code h d) ≤ m.

(** Fuel that suffices for [change(fn)] then. *)
Definition change_fuel (m : nat) (fn : cmd) (w : World) : nat :=
  S (m + depth fn
     + length (entries_of "beforeChange" w) + length (entries_of "change" w)).

(** Fuel that suffices for [emit(type, data)] when the listeners are
    straight-line code. *)
Definition emit_fuel (code : fid → value → cmd) (type : string) (data : value)
  (w : World) : nat :=
  S (length (entries_of type w) +
     foldr (λ h n, depth (code h data) `max` n) 0 (registered type w)).

(** The api object is apart from the state object and has no method
    [name]. *)
Definition lacks_method (name : string) (w : World) : Prop :=
  api w < length (objs w) ∧ state w ≠ api w ∧
  ∀ f, objs w !! api w ≫= (.!! name) ≠ Some (VFun f).

(** What the generic invariant lemma asks of [change] and of [init]
    when the invariant [I] does not exclude their first run. *)
Definition ChangeOK (I : World → Prop) : Prop :=
  (∀ w, I w → changing w = false →
        I (log (Fired ByChange "beforeChange" (VRef (state w)))
               (set_changing true w))) ∧
  (∀ w, I w → I (log (Fired ByChange "change" (VRef (state w))) w)) ∧
  (∀ w, I w → I (set_changing false w)).

Definition InitOK (I : World → Prop) (P : cmd → Prop) : Prop :=
  (∀ w, I w → initialized w = false → I (set_initialized true w)) ∧
  (∀ k w, I w → I (log (InitCalled k) w)) ∧
  (∀ w, I w → Forall (λ t, cmd_forall P (init_body t)) (inits_of (_init w))).

(** *** emit, change and init (app.tsx 20-44) *)

Definition bind (r : res) (k : World → res) : res :=
  match r with
  | Some (Normal, w) => k w
  | _ => r
  end.

Notation "'let*' w := r 'in' k" := (bind r (λ w, k))
  (at level 10, w name, r at level 100, k at level 200).

Section Semantics.

(** What each function does when it is called with an argument. *)
Variable code : fid → value → cmd.

Section Methods.

Variable exec : cmd → World → res.
Variable for_each : string → loc → nat → value → World → res.
Variable run_inits : list init_thunk → nat → World → res.

Definition emit_with (o : origin) (type : string) (data : value) (w : World)
  : res :=
  let w := log (Fired o type data) w in
  match listeners w !! type with
  | Some s => for_each type s 0 data w
  | None => Some (Normal, w)
  end.

Definition change_with (callback : cmd) (w : World) : res :=
  if changing w then exec callback w
  else
    let w := set_changing true w in
    let* w := emit_with ByChange "beforeChange" (VRef (state w)) w in
    let* w := exec callback w in
    let* w := emit_with ByChange "change" (VRef (state w)) w in
    Some (Normal, set_changing false w).

(** [this._init()], the returned teardown dropped. *)
Definition call__init_with (w : World) : res :=
  match _init w with
  | InitDefault => Some (Normal, w)
  | InitComposed inits => run_inits inits 0 w
  end.

Definition init_with (w : World) : res :=
  if initialized w then Some (Normal, w)
  else call__init_with (set_initialized true w).

End Methods.

Fixpoint exec (fuel : nat) (c : cmd) (w : World) {struct fuel} : res :=
  match fuel with
  | 0 => None
  | S n =>
      match c with
      | Skip => Some (Normal, w)
      | Seq c1 c2 => let* w := exec n c1 w in exec n c2 w
      | If b c1 c2 => if b (objs w) (state w) then exec n c1 w else exec n c2 w
      | Throw e => Some (Thrown (e (objs w) (state w)), w)
      | Try c handler =>
          match exec n c w with
          | Some (Thrown e, w) => exec n (handler e) w
          | r => r
          end
      | Log e => Some (Normal, log (Logged (e (objs w) (state w))) w)
      | SetField k e => Some (Normal, write_field k (e (objs w) (state w)) w)
      | SetState f => Some (Normal, replace_state (f (objs w) (state w)) w)
      | Change callback => change_with (exec n) (for_each n) callback w
      | Emit type data =>
          emit_with (for_each n) ByCode type (data (objs w) (state w)) w
      | On type handler => Some (Normal, (on type handler w).1)
      | Off type handler => Some (Normal, off type handler w)
      | Init => init_with (run_inits n) w
      | CallApi name arg =>
          match objs w !! api w ≫= (.!! method_name name) with
          | Some (VFun f) => exec n (code f (arg (objs w) (state w))) w
          | _ => Some (Thrown TypeError, w)
          end
      end
  end
(** [listeners.forEach(listener => listener(data))] inside
    [emit(type, data)], from entry [i] of the set at [s] on. *)
with for_each (fuel : nat) (type : string) (s : loc) (i : nat) (data : value)
  (w : World) {struct fuel} : res :=
  match fuel with
  | 0 => None
  | S n =>
      match sets w !! s ≫= (.!! i) with
      | None => Some (Normal, w)
      | Some None => for_each n type s (S i) data w
      | Some (Some listener) =>
          let* w :=
            exec n (code listener data) (log (Invoked type listener data) w) in
          for_each n type s (S i) data w
      end
  end
(** [inits.map(init => init())] from index [k] on. *)
with run_inits (fuel : nat) (inits : list init_thunk) (k : nat) (w : World)
  {struct fuel} : res :=
  match fuel with
  | 0 => None
  | S n =>
      match inits with
      | [] => Some (Normal, w)
      | t :: inits =>
          let* w := exec n (init_body t) (log (InitCalled k) w) in
          run_inits n inits (S k) w
      end
  end.

Definition emit (fuel : nat) := emit_with (for_each fuel).
Definition change (fuel : nat) := change_with (exec fuel) (for_each fuel).
Definition call__init (fuel : nat) := call__init_with (run_inits fuel).
Definition init (fuel : nat) := init_with (run_inits fuel).

(** [init()] called [k] times in a row. *)
Fixpoint init_times (fuel : nat) (k : nat) (w : World) : res :=
  match k with
  | 0 => Some (Normal, w)
  | S k => let* w := init fuel w in init_times fuel k w
  end.

(** The teardown returned by [_init()]:
    [() => { cleanups.forEach(cleanup => cleanup()) }], where [cleanups]
    is the reversed array of what the thunks returned.  Each cleanup is
    kept with the index of its thunk in [inits]. *)
Fixpoint run_cleanups (fuel : nat) (cleanups : list (nat * cmd)) (w : World)
  : res :=
  match cleanups with
  | [] => Some (Normal, w)
  | (k, cleanup) :: cleanups =>
      let* w := exec fuel cleanup (log (CleanupCalled k) w) in
      run_cleanups fuel cleanups w
  end.

Definition cleanups_of (f : init_fn) : list (nat * cmd) :=
  match f with
  | InitDefault => []
  | InitComposed inits => reverse (imap (λ k t, (k, init_cleanup t)) inits)
  end.

(** [const teardown = instance._init()]: the world after the thunks ran
    and the cleanups the returned teardown holds. *)
Definition call__init_teardown (fuel : nat) (w : World)
  : option (outcome * World * list (nat * cmd)) :=
  match call__init fuel w with
  | Some (Normal, w') => Some (Normal, w', cleanups_of (_init w))
  | Some (Thrown e, w') => Some (Thrown e, w', [])
  | None => None
  end.

(** *** create (app.tsx 64-86) *)

(** What a plugin returns when called with the instance. *)
Record PluginResult := {
  p_state : fragment;
  p_api : fragment;
  p_init : init_thunk
}.

(** A plugin is a function of the instance under construction. *)
Definition Plugin := World → PluginResult.

(** [new NodeFlow()]: the state object at 0, the api object at 1. *)
Definition new_NodeFlow : World :=
  {| state := 0; api := 1; _init := InitDefault;
     initialized := false; changing := false;
     listeners := ∅; objs := [∅; ∅]; sets := []; trace := [] |}.

(** [for (const plugin of plugins) { ... }] *)
Fixpoint create_loop (plugins : list Plugin) (instance : World)
  (inits : list init_thunk) : World * list init_thunk :=
  match plugins with
  | [] => (instance, inits)
  | plugin :: plugins =>
      let r := plugin instance in
      let instance := object_assign (state instance) (p_state r) instance in
      let instance := object_assign (api instance) (p_api r) instance in
      create_loop plugins instance (inits ++ [p_init r])
  end.

(** What the plugins returned, in list order: each is called with the
    instance as the plugins before it left it. *)
Fixpoint contributions (plugins : list Plugin) (instance : World)
  : list PluginResult :=
  match plugins with
  | [] => []
  | plugin :: plugins =>
      let r := plugin instance in
      let instance := object_assign (state instance) (p_state r) instance in
      let instance := object_assign (api instance) (p_api r) instance in
      r :: contributions plugins instance
  end.

(** The instance before [if (autoInit)]. *)
Definition compose (plugins : list Plugin) : World :=
  let '(instance, inits) := create_loop plugins new_NodeFlow [] in
  set__init (InitComposed inits) instance.

Definition create (fuel : nat) (plugins : list Plugin) (autoInit : bool)
  : res :=
  let instance := compose plugins in
  if autoInit then
    let* instance := init fuel instance in Some (Normal, instance)
  else Some (Normal, instance).

End Semantics.

End App.

(** * The instance of nodeflow.ts *)

Module Pkg.

(** Expressions read the state, as through [context.getState()]. *)
Definition expr := obj → value.

(** Callback bodies: what listeners and api methods can do through the
    instance and the plugin context. *)
Inductive cmd :=
| Skip
| Seq (c1 c2 : cmd)
| If (b : obj → bool) (c1 c2 : cmd)
| Throw (e : expr)
| Try (c : cmd) (handler : value → cmd)
| Log (e : expr)
| SetState (partialState : obj → obj)     (* context.setState(partialState) *)
| Emit (event : string) (payload : expr)  (* emit(event, payload) *)
| On (event : string) (listener : fid)    (* on(event, listener) *)
| Off (event : string) (listener : fid)   (* off(event, listener) *)
| CallApi (name : method) (arg : expr).   (* getApi()[name](arg) *)

Fixpoint cmd_forall (P : cmd → Prop) (c : cmd) : Prop :=
  match c with
  | Seq c1 c2 => cmd_forall P c1 ∧ cmd_forall P c2
  | If _ c1 c2 => cmd_forall P c1 ∧ cmd_forall P c2
  | Try c handler => cmd_forall P c ∧ ∀ e, cmd_forall P (handler e)
  | _ => P c
  end.

(** Callback code that does not register [listener] for [event] again. *)
Definition not_on (event : string) (listener : fid) (c : cmd) : Prop :=
  c ≠ On event listener.

(** Observations. *)
Inductive observation :=
| Fired (event : string) (payload : value)    (* a call of emit *)
| Invoked (event : string) (listener : fid) (payload : value)
                                   (* l(payload) inside emit(event, payload) *)
| Logged (v : value).

(** What a property of the object [this.listeners] holds: an array of
    listeners, or a member of [Object.prototype], which is no array. *)
Inductive slot :=
| Listeners (ls : list fid)
| Builtin.

(** The fields of the class [NodeFlow] and the observations so far;
    [listeners] are the own properties of the object [this.listeners].
    An array of listeners is only ever extended in place ([push]) or
    replaced by a new array ([filter]), so that the elements a running
    [forEach] visits are those the array had when it started. *)
Record NodeFlow := {
  state : obj;
  api : obj;
  listeners : gmap string slot;
  trace : list observation
}.

Definition res := option (outcome * NodeFlow).

Definition log (ev : observation) (w : NodeFlow) : NodeFlow :=
  {| state := state w; api := api w; listeners := listeners w;
     trace := trace w ++ [ev] |}.

(** [setState]: [this.state = { ...this.state, ...partialState }] *)
Definition setState (partialState : obj) (w : NodeFlow) : NodeFlow :=
  {| state := assign (state w) partialState; api := api w;
     listeners := listeners w; trace := trace w |}.

Definition set_listeners (m : gmap string slot) (w : NodeFlow) : NodeFlow :=
  {| state := state w; api := api w; listeners := m; trace := trace w |}.

(** [this.listeners[event]]: the own property, or else what
    [Object.prototype] has under that name; [None] is [undefined]. *)
Definition read (event : string) (w : NodeFlow) : option slot :=
  match listeners w !! event with
  | Some v => Some v
  | None => if inherited event then Some Builtin else None
  end.

(** [(this.listeners[event] = this.listeners[event] || []).push(listener)]:
    an array is pushed onto, [undefined] gives way to a new array, and
    an inherited member, which is neither falsy nor an array, is
    assigned to the key and has no [push].  The assignment makes an own
    property, except for [__proto__], which goes to the setter of
    [Object.prototype] and makes none. *)
Definition on (event : string) (listener : fid) (w : NodeFlow)
  : outcome * NodeFlow :=
  match read event w with
  | Some (Listeners ls) =>
      (Normal,
       set_listeners (<[event := Listeners (ls ++ [listener])]> (listeners w)) w)
  | None =>
      (Normal, set_listeners (<[event := Listeners [listener]]> (listeners w)) w)
  | Some Builtin =>
      (Thrown TypeError,
       if bool_decide (event = "__proto__") then w
       else set_listeners (<[event := Builtin]> (listeners w)) w)
  end.

(** [if (!this.listeners[event]) return;
     this.listeners[event] = this.listeners[event].filter(l => l !== listener)]:
    an inherited member passes the test and has no [filter]. *)
Definition off (event : string) (listener : fid) (w : NodeFlow)
  : outcome * NodeFlow :=
  match read event w with
  | None => (Normal, w)
  | Some (Listeners ls) =>
      (Normal,
       set_listeners
         (<[event := Listeners (filter (λ l, l ≠ listener) ls)]> (listeners w))
         w)
  | Some Builtin => (Thrown TypeError, w)
  end.

(** The calls of [listener] made by the [forEach] of [emit(ev, _)]. *)
Definition is_invocation (ev : string) (listener : fid) (e : observation) : bool :=
  match e with
  | Invoked t l _ => bool_decide (t = ev ∧ l = listener)
  | _ => false
  end.

Definition invocations (ev : string) (listener : fid) (tr : list observation) : nat :=
  length (filter (λ e, is_invocation ev listener e = true) tr).

(** The listeners registered for an event, in the order of the array. *)
Definition registered (ev : string) (w : NodeFlow) : list fid :=
  match read ev w with
  | Some (Listeners ls) => ls
  | _ => []
  end.

(** A listener that is not registered for an event, and that no
    callback registers for it again, is never called by the [forEach]
    of an [emit] of that event. *)
Definition unregistered (ev : string) (l : fid) (a : nat) (w : NodeFlow)
  : Prop :=
  (l ∉ registered ev w) ∧ invocations ev l (trace w) = a.

(** The calls of listeners, in order. *)
Definition is_call (e : observation) : bool :=
  match e with Invoked _ _ _ => true | _ => false end.

Definition calls (tr : list observation) : list observation :=
  filter (λ e, is_call e = true) tr.

(** Callback code that does not call [emit]; it may call [on], [off],
    [setState] and api methods that do not emit either. *)
Definition no_emit (c : cmd) : Prop :=
  match c with Emit _ _ => False | _ => True end.

(** The names that read as a member of [Object.prototype] are the
    inherited ones: under every other name the registry has an array or
    nothing.  This is so after the constructor and stays so. *)
Definition arrays_only (w : NodeFlow) : Prop :=
  ∀ ev, read ev w = Some Builtin ↔ inherited ev = true.


Fixpoint depth (c : cmd) : nat :=
  match c with
  | Seq c1 c2 | If _ c1 c2 => S (depth c1 `max` depth c2)
  | _ => 1
  end.

Definition emit_fuel (code : fid → value → cmd) (ev : string) (d : value)
  (w : NodeFlow) : nat :=
  S (length (registered ev w) +
     foldr (λ l n, depth (code l d) `max` n) 0 (registered ev w)).

Definition bind (r : res) (k : NodeFlow → res) : res :=
  match r with
  | Some (Normal, w) => k w
  | _ => r
  end.

Notation "'let*' w := r 'in' k" := (bind r (λ w, k))
  (at level 10, w name, r at level 100, k at level 200).

Section Semantics.

Variable code : fid → value → cmd.

(** [this.listeners[event]?.forEach(l => l(payload))]: [?.] stops at
    [undefined] only, and an inherited member has no [forEach]. *)
Definition emit_with
  (for_each : string → list fid → value → NodeFlow → res)
  (event : string) (payload : value) (w : NodeFlow) : res :=
  let w := log (Fired event payload) w in
  match read event w with
  | Some (Listeners ls) => for_each event ls payload w
  | Some Builtin => Some (Thrown TypeError, w)
  | None => Some (Normal, w)
  end.

Fixpoint exec (fuel : nat) (c : cmd) (w : NodeFlow) {struct fuel} : res :=
  match fuel with
  | 0 => None
  | S n =>
      match c with
      | Skip => Some (Normal, w)
      | Seq c1 c2 => let* w := exec n c1 w in exec n c2 w
      | If b c1 c2 => if b (state w) then exec n c1 w else exec n c2 w
      | Throw e => Some (Thrown (e (state w)), w)
      | Try c handler =>
          match exec n c w with
          | Some (Thrown e, w) => exec n (handler e) w
          | r => r
          end
      | Log e => Some (Normal, log (Logged (e (state w))) w)
      | SetState partialState =>
          Some (Normal, setState (partialState (state w)) w)
      | Emit event payload =>
          emit_with (for_each n) event (payload (state w)) w
      | On event listener => Some (on event listener w)
      | Off event listener => Some (off event listener w)
      | CallApi name arg =>
          match api w !! method_name name with
          | Some (VFun f) => exec n (code f (arg (state w))) w
          | _ => Some (Thrown TypeError, w)
          end
      end
  end
(** [forEach] over the elements [ls] still to visit. *)
with for_each (fuel : nat) (event : string) (ls : list fid) (payload : value)
  (w : NodeFlow) {struct fuel} : res :=
  match fuel with
  | 0 => None
  | S n =>
      match ls with
      | [] => Some (Normal, w)
      | l :: ls =>
          let* w := exec n (code l payload) (log (Invoked event l payload) w) in
          for_each n event ls payload w
      end
  end.

Definition emit (fuel : nat) := emit_with (for_each fuel).

(** A call [v(arg)] of a value: only functions can be called. *)
Definition call (fuel : nat) (v : value) (arg : value) (w : NodeFlow) : res :=
  match v with
  | VFun f => exec fuel (code f arg) w
  | _ => Some (Thrown TypeError, w)
  end.

End Semantics.

(** [on(...): void]: the value of a call of [on] is [undefined]. *)
Definition on_result : value := VUndef.

(** *** createNodeFlow (nodeflow.ts 190-231) *)

(** [state?: S] and [api?: (context) => A]; a factory reads the instance
    through the context, whose state is the initial state when the
    constructor calls it. *)
Record NodeFlowPlugin := {
  name : string;
  p_state : option obj;
  p_api : option (obj → fragment)
}.

(** The two methods that [coreApiFactory] creates. *)
Definition core_addNode : fid := 0.
Definition core_addEdge : fid := 1.

Definition coreState : obj :=
  {[ "nodes" := VObj []; "edges" := VObj [] ]}.

Definition coreApiFactory (_ : obj) : fragment :=
  Fragment {[ "addNode" := VFun core_addNode; "addEdge" := VFun core_addEdge ]}
    eq_refl.

(** Properties of a record value. *)
Definition fields_of (v : value) : list (string * value) :=
  match v with VObj fields => fields | _ => [] end.

Fixpoint get_field (k : string) (fields : list (string * value)) : value :=
  match fields with
  | [] => VUndef
  | (k', v) :: fields => if decide (k' = k) then v else get_field k fields
  end.

Fixpoint put_field (k : string) (v : value) (fields : list (string * value))
  : list (string * value) :=
  match fields with
  | [] => [(k, v)]
  | (k', v') :: fields =>
      if decide (k' = k) then (k, v) :: fields
      else (k', v') :: put_field k v fields
  end.

Definition key_of (v : value) : string :=
  match v with VStr s => s | _ => "undefined" end.

(** [{ ...context.getState()[collection], [item.id]: item }] *)
Definition with_item (collection : string) (item : value) (st : obj) : value :=
  VObj (put_field (key_of (get_field "id" (fields_of item))) item
          (fields_of (default VUndef (st !! collection)))).

(** The bodies of [addNode] and [addEdge]. *)
Definition addNode (node : value) : cmd :=
  Seq (SetState (λ st, {[ "nodes" := with_item "nodes" node st ]}))
      (Emit "node:added"
         (λ _, VObj [("nodeId", get_field "id" (fields_of node))])).

Definition addEdge (edge : value) : cmd :=
  Seq (SetState (λ st, {[ "edges" := with_item "edges" edge st ]}))
      (Emit "edge:added"
         (λ _, VObj [("edgeId", get_field "id" (fields_of edge))])).

(** A table of functions extended with the core methods. *)
Definition with_core (code : fid → value → cmd) (f : fid) (arg : value) : cmd :=
  if decide (f = core_addNode) then addNode arg
  else if decide (f = core_addEdge) then addEdge arg
  else code f arg.

(** The constructor: all factories are called, then their results are
    assigned to [this.api] in order. *)
Definition new_NodeFlow (initialState : obj)
  (apiFactories : list (obj → fragment)) : NodeFlow :=
  let allApis := (λ factory, factory initialState) <$> apiFactories in
  {| state := initialState; api := foldl assign ∅ (props <$> allApis);
     listeners := ∅; trace := [] |}.

Definition initialPluginState (plugins : list NodeFlowPlugin) : obj :=
  foldl (λ acc plugin, assign acc (default ∅ (p_state plugin))) ∅ plugins.

Definition createNodeFlow (plugins : list NodeFlowPlugin) : NodeFlow :=
  let initialState := assign coreState (initialPluginState plugins) in
  let apiFactories := coreApiFactory :: omap p_api plugins in
  new_NodeFlow initialState apiFactories.

End Pkg.

(** * The core plugin of app.tsx (app.tsx 90-137) *)

Module Core.
Import App.

(** The references of the two methods of the api object; the body of
    [addEdges] is given below, that of [addNodes] is left to the table
    of functions. *)
Definition core_addNodes : fid := 0.
Definition core_addEdges : fid := 1.

Definition setState : method := Method "setState" I.
Definition addEdges_name : method := Method "addEdges" I.

(** [addEdges: edges => { ... }].  The argument of [api.setState] is the
    function [state => ({ ...state, edges: { ... } })], a new function
    value at each call, given here by its reference [updater]; it is
    [api.setState] that would call it. *)
Definition addEdges (updater : fid) (edges : value) : cmd :=
  Seq (Emit "beforeAddEdges" (λ _ _, edges))
  (Seq (CallApi setState (λ _ _, VFun updater))
       (Emit "addEdges" (λ _ _, edges))).

(** What [corePlugin] returns: the state [{ nodes: {}, edges: {} }], the
    two methods and the init thunk [() => () => {}]. *)
Definition corePlugin : Plugin :=
  λ _, {| p_state := Fragment {[ "nodes" := VObj []; "edges" := VObj [] ]}
                       eq_refl;
          p_api := Fragment {[ "addNodes" := VFun core_addNodes;
                               "addEdges" := VFun core_addEdges ]} eq_refl;
          p_init := {| init_body := Skip; init_cleanup := Skip |} |}.

(** A table of functions in which [core_addEdges] is [addEdges]. *)
Definition with_addEdges (updater : fid) (code : fid → value → cmd)
  (f : fid) (arg : value) : cmd :=
  if decide (f = core_addEdges) then addEdges updater arg else code f arg.

End Core.

(** * Concrete instances *)

Module Examples.

(** The functions of the examples for app.tsx: 0 logs the [count]
    property of the object its argument refers to, 1 throws, every
    other function logs its own reference. *)
Definition code (f : fid) (d : value) : App.cmd :=
  match f with
  | 0 =>
      App.Log (λ os _,
        match d with
        | VRef l => default VUndef (os !! l ≫= (.!! "count"))
        | _ => VUndef
        end)
  | 1 => App.Throw (λ _ _, VStr "boom")
  | _ => App.Log (λ _ _, VNum (Z.of_nat f))
  end.

Definition noop : App.init_thunk :=
  {| App.init_body := App.Skip; App.init_cleanup := App.Skip |}.

(** The fragment [{}]. *)
Definition empty : fragment := Fragment ∅ eq_refl.

Definition with_state (o : fragment) : App.Plugin :=
  λ _, {| App.p_state := o; App.p_api := empty; App.p_init := noop |}.

Definition with_api (o : fragment) : App.Plugin :=
  λ _, {| App.p_state := empty; App.p_api := o; App.p_init := noop |}.

(** A plugin whose init thunk and cleanup each log their label. *)
Definition labelled (label : string) : App.Plugin :=
  λ _, {| App.p_state := empty; App.p_api := empty;
          App.p_init :=
            {| App.init_body := App.Log (λ _ _, VStr ("init " +:+ label));
               App.init_cleanup :=
                 App.Log (λ _ _, VStr ("cleanup " +:+ label)) |} |}.

Definition counter : App.Plugin :=
  with_state (Fragment {[ "count" := VNum 0 ]} eq_refl).

(** [state.count = state.count + 1] *)
Definition increment : App.cmd :=
  App.SetField (Field "count" I) (λ os st,
    match os !! st ≫= (.!! "count") with
    | Some (VNum n) => VNum (n + 1)
    | _ => VUndef
    end).

(** [nodeflow.state = { ...nodeflow.state, count: nodeflow.state.count + 1 }] *)
Definition increment_replace : App.cmd :=
  App.SetState (λ os st,
    let o := default ∅ (os !! st) in
    <[ "count" := match o !! "count" with
                  | Some (VNum n) => VNum (n + 1)
                  | _ => VUndef
                  end ]> o).

(** [() => { change(() => { state.x = 1 }); change(() => { state.x = 2 }) }] *)
Definition two_nested : App.cmd :=
  App.Seq (App.Change (App.SetField (Field "x" I) (λ _ _, VNum 1)))
          (App.Change (App.SetField (Field "x" I) (λ _ _, VNum 2))).

(** [() => { change(() => { state.count++ }); change(() => { state.count++ }) }] *)
Definition two_increments : App.cmd :=
  App.Seq (App.Change increment) (App.Change increment).

(** The instance of [create([counter], { autoInit: false })] after
    [on("beforeChange", 0)] and [on("change", 0)]. *)
Definition observed_counter : App.World :=
  (App.on "change" 0 (App.on "beforeChange" 0 (App.compose [counter])).1).1.

(** The instance of [create([counter], { autoInit: false })] after
    [on("e", 3)]. *)
Definition listening : App.World := (App.on "e" 3 (App.compose [counter])).1.

Definition abc : list App.Plugin := [labelled "A"; labelled "B"; labelled "C"].

Definition ab : list App.Plugin := [labelled "A"; labelled "B"].

Definition x1 : fragment := Fragment {[ "x" := VNum 1 ]} eq_refl.
Definition x2y3 : fragment :=
  Fragment {[ "x" := VNum 2; "y" := VNum 3 ]} eq_refl.
Definition addNode10 : fragment := Fragment {[ "addNode" := VFun 10 ]} eq_refl.
Definition addNode11 : fragment := Fragment {[ "addNode" := VFun 11 ]} eq_refl.

(** An instance with the listeners 1, which throws, and 3 on "e". *)
Definition thrower_first : App.World :=
  (App.on "e" 3 (App.on "e" 1 (App.compose [])).1).1.

(** An instance with the listeners 3, 1, which throws, and 4 on "e". *)
Definition thrower_second : App.World :=
  (App.on "e" 4 (App.on "e" 1 (App.on "e" 3 (App.compose [])).1).1).1.

(** The functions of the examples for nodeflow.ts: 1 throws, every
    other function logs its own reference. *)
Definition pkg_code (f : fid) (d : value) : Pkg.cmd :=
  match f with
  | 1 => Pkg.Throw (λ _, VStr "boom")
  | _ => Pkg.Log (λ _, VNum (Z.of_nat f))
  end.

Definition pkg_with_state (o : obj) : Pkg.NodeFlowPlugin :=
  {| Pkg.name := "state"; Pkg.p_state := Some o; Pkg.p_api := None |}.

Definition pkg_with_api (o : fragment) : Pkg.NodeFlowPlugin :=
  {| Pkg.name := "api"; Pkg.p_state := None; Pkg.p_api := Some (λ _, o) |}.

(** [{ id: "n1", position: { x: 0, y: 0 } }] *)
Definition node1 : value :=
  VObj [("id", VStr "n1");
        ("position", VObj [("x", VNum 0); ("y", VNum 0)])].

Definition pkg_thrower_first : Pkg.NodeFlow :=
  (Pkg.on "e" 3 (Pkg.on "e" 1 (Pkg.createNodeFlow [])).2).2.

Definition pkg_thrower_second : Pkg.NodeFlow :=
  (Pkg.on "e" 4
     (Pkg.on "e" 1 (Pkg.on "e" 3 (Pkg.createNodeFlow [])).2).2).2.

(** The instance of [createNodeFlow([])] after [on("e", 3)]. *)
Definition pkg_listening : Pkg.NodeFlow :=
  (Pkg.on "e" 3 (Pkg.createNodeFlow [])).2.




(** Functions for app.tsx that only log their own reference. *)
Definition app_logs (f : fid) (d : value) : App.cmd :=
  App.Log (λ _ _, VNum (Z.of_nat f)).


(** The instance of [create([], { autoInit: false })] after
    [on("e", 5)] and [on("e", 6)]. *)
Definition app_two : App.World :=
  (App.on "e" 6 (App.on "e" 5 (App.compose [])).1).1.


(** The same after [on("e", 4)] twice. *)
Definition app_twice : App.World :=
  (App.on "e" 4 (App.on "e" 4 (App.compose [])).1).1.

(** A plugin whose init thunk throws, and one whose cleanup throws. *)
Definition failing_init : App.Plugin :=
  λ _, {| App.p_state := empty; App.p_api := empty;
          App.p_init :=
            {| App.init_body := App.Throw (λ _ _, VStr "init failed");
               App.init_cleanup := App.Skip |} |}.

Definition failing_cleanup : App.Plugin :=
  λ _, {| App.p_state := empty; App.p_api := empty;
          App.p_init :=
            {| App.init_body := App.Skip;
               App.init_cleanup := App.Throw (λ _ _, VStr "cleanup failed") |} |}.

Definition a_failing_b : list App.Plugin :=
  [labelled "A"; failing_init; labelled "B"].

Definition a_failing_c : list App.Plugin :=
  [labelled "A"; failing_cleanup; labelled "C"].

(** [[{ type: "line", id: "e1", source: "a", target: "b", data: 0 }]] *)
Definition one_edge : value :=
  VObj [("0", VObj [("type", VStr "line"); ("id", VStr "e1");
                    ("source", VStr "a"); ("target", VStr "b");
                    ("data", VNum 0)])].

(** The instance of [create([corePlugin], { autoInit: false })]. *)
Definition core_only : App.World := App.compose [Core.corePlugin].

End Examples.

(** * Properties *)

(** ** Shallow merge *)

Lemma foldl_assign_lookup_None (acc : obj) (back : list obj) k :
  Forall (λ g : obj, g !! k = None) back →
  foldl assign acc back !! k = acc !! k.
Proof.
  revert acc. induction back as [|g back IH]; intros acc Hb; [done|].
  apply Forall_cons in Hb as [Hg Hb]. simpl. rewrite IH by done.
  unfold assign. by apply lookup_union_r.
Qed.

(** Last write wins: the value of a key is the one given by the last
    fragment that has the key. *)
Lemma shallow_merge_last_wins (front back : list obj) (f : obj) k v :
  f !! k = Some v →
  Forall (λ g : obj, g !! k = None) back →
  shallow_merge (front ++ f :: back) !! k = Some v.
Proof.
  intros Hf Hb. unfold shallow_merge. rewrite foldl_app. simpl.
  rewrite foldl_assign_lookup_None by done.
  unfold assign. by apply lookup_union_Some_l.
Qed.

Module AppFacts.
Import App.

Lemma bind_Some (r : res) (k : World → res) (x : outcome * World) :
  bind r k = Some x ↔
  (∃ w, r = Some (Normal, w) ∧ k w = Some x) ∨
  (∃ e w, r = Some (Thrown e, w) ∧ x = (Thrown e, w)).
Proof.
  destruct r as [[[|e] w]|]; simpl; split.
  - intros H. left. by exists w.
  - intros [(w' & [= ->] & H)|(e & w' & [=] & _)]. done.
  - intros [= <-]. right. by exists e, w.
  - intros [(w' & [=] & _)|(e' & w' & [= -> ->] & ->)]. done.
  - done.
  - intros [(w' & [=] & _)|(e' & w' & [=] & _)].
Qed.

Tactic Notation "inv_bind" hyp(H) :=
  let w := fresh "w" in
  let e := fresh "e" in
  let H1 := fresh H "a" in
  let H2 := fresh H "b" in
  apply bind_Some in H;
  destruct H as [(w & H1 & H2)|(e & w & H1 & H2)].

Tactic Notation "inv_bind" hyp(H) "as" ident(w) ident(H1) ident(H2) :=
  let e := fresh "e" in
  apply bind_Some in H;
  destruct H as [(w & H1 & H2)|(e & w & H1 & H2)].

Section Fuel.

Variable code : fid → value → cmd.

(** More fuel never changes a result. *)
Lemma fuel_mono n :
  (∀ c w r, exec code n c w = Some r →
            ∀ m, n ≤ m → exec code m c w = Some r) ∧
  (∀ t s i d w r, for_each code n t s i d w = Some r →
            ∀ m, n ≤ m → for_each code m t s i d w = Some r) ∧
  (∀ ts k w r, run_inits code n ts k w = Some r →
            ∀ m, n ≤ m → run_inits code m ts k w = Some r).
Proof.
  induction n as [|n (IHe & IHf & IHr)]; [done|].
  assert (Hemit : ∀ o t d w r m, n ≤ m →
            emit_with (for_each code n) o t d w = Some r →
            emit_with (for_each code m) o t d w = Some r).
  { intros o t d w r m Hm. unfold emit_with.
    destruct (listeners _ !! t); [|done]. intros H. by eapply IHf. }
  split_and!.
  - intros c w r H [|m] Hm; [lia|]. apply le_S_n in Hm.
    destruct c; simpl in *; try done.
    + inv_bind H.
      * rewrite (IHe _ _ _ Ha m Hm). simpl. by eapply IHe.
      * rewrite (IHe _ _ _ Ha m Hm). simpl. by subst.
    + destruct (b _ _); by eapply IHe.
    + destruct (exec code n c w) as [[[|e] w1]|] eqn:E; [| |done].
      * by rewrite (IHe _ _ _ E m Hm).
      * rewrite (IHe _ _ _ E m Hm). by eapply IHe.
    + unfold change_with in *. destruct (changing w); [by eapply IHe|].
      inv_bind H.
      * rewrite (Hemit _ _ _ _ _ m Hm Ha). simpl.
        inv_bind Hb.
        -- rewrite (IHe _ _ _ Hba m Hm). simpl.
           inv_bind Hbb.
           ++ by rewrite (Hemit _ _ _ _ _ m Hm Hbba).
           ++ rewrite (Hemit _ _ _ _ _ m Hm Hbba). by subst.
        -- rewrite (IHe _ _ _ Hba m Hm). by subst.
      * rewrite (Hemit _ _ _ _ _ m Hm Ha). by subst.
    + by eapply Hemit.
    + unfold init_with, call__init_with in *.
      destruct (initialized w); [done|].
      destruct (_init _); [done|]. by eapply IHr.
    + destruct (objs w !! api w ≫= _) as [[]|]; try done. by eapply IHe.
  - intros t s i d w r H [|m] Hm; [lia|]. apply le_S_n in Hm. simpl in *.
    destruct (sets w !! s ≫= _) as [[h|]|]; [| |done].
    + inv_bind H.
      * rewrite (IHe _ _ _ Ha m Hm). simpl. by eapply IHf.
      * rewrite (IHe _ _ _ Ha m Hm). by subst.
    + by eapply IHf.
  - intros ts k w r H [|m] Hm; [lia|]. apply le_S_n in Hm. simpl in *.
    destruct ts as [|t ts]; [done|].
    inv_bind H.
    + rewrite (IHe _ _ _ Ha m Hm). simpl. by eapply IHr.
    + rewrite (IHe _ _ _ Ha m Hm). by subst.
Qed.

Lemma emit_mono n m o t d w r :
  emit code n o t d w = Some r → n ≤ m → emit code m o t d w = Some r.
Proof.
  unfold emit, emit_with. destruct (listeners _ !! t); [|done].
  intros H Hm. by eapply fuel_mono.
Qed.

End Fuel.

(** ** Preservation of an invariant by every execution

    [I] is the invariant, [P] restricts the primitive operations that
    callback code may contain, and [F type s] is a property of the set
    that a [forEach] started by [emit(type, _)] runs over. *)
Section Preservation.

Variable code : fid → value → cmd.
Variable I : World → Prop.
Variable P : cmd → Prop.
Variable F : string → loc → World → Prop.

Hypothesis P_code : ∀ f v, cmd_forall P (code f v).
Hypothesis I_Log : ∀ e w, P (Log e) → I w →
  I (log (Logged (e (objs w) (state w))) w).
Hypothesis I_SetField : ∀ k e w, P (SetField k e) → I w →
  I (write_field k (e (objs w) (state w)) w).
Hypothesis I_SetState : ∀ f w, P (SetState f) → I w →
  I (replace_state (f (objs w) (state w)) w).
Hypothesis I_On : ∀ t h w, P (On t h) → I w → I (on t h w).1.
Hypothesis I_Off : ∀ t h w, P (Off t h) → I w → I (off t h w).
Hypothesis I_Fired : ∀ t e w, P (Emit t e) → I w →
  I (log (Fired ByCode t (e (objs w) (state w))) w).
Hypothesis I_Invoked : ∀ t s i h d w,
  I w → F t s w → sets w !! s ≫= (.!! i) = Some (Some h) →
  I (log (Invoked t h d) w).
Hypothesis F_start : ∀ t s w, I w → listeners w !! t = Some s → F t s w.
Hypothesis F_log : ∀ t s ev w, F t s w → F t s (log ev w).
Hypothesis F_exec : ∀ t s n c w r w',
  cmd_forall P c → I w → F t s w → exec code n c w = Some (r, w') → F t s w'.
Hypothesis H_change : (∀ w, I w → changing w = true) ∨ ChangeOK I.
Hypothesis H_init :
  (∀ w, I w → initialized w = true) ∨ ¬ P Init ∨ InitOK I P.

Lemma preservation n :
  (∀ c w r w', cmd_forall P c → I w →
     exec code n c w = Some (r, w') → I w') ∧
  (∀ t s i d w r w', I w → F t s w →
     for_each code n t s i d w = Some (r, w') → I w') ∧
  (InitOK I P → ∀ ts k w r w',
     Forall (λ t, cmd_forall P (init_body t)) ts → I w →
     run_inits code n ts k w = Some (r, w') → I w').
Proof.
  induction n as [|n (IHe & IHf & IHr)]; [done|].
  assert (Hemit : ∀ o t d w r w',
            I (log (Fired o t d) w) →
            emit_with (for_each code n) o t d w = Some (r, w') → I w').
  { intros o t d w r w' HI. unfold emit_with.
    destruct (listeners _ !! t) as [s|] eqn:Hs.
    - intros H. eapply IHf; [exact HI| |exact H]. by apply F_start.
    - by intros [= _ <-]. }
  split_and!.
  - intros c w r w' Hc HI H.
    destruct c; simpl in *.
    + by injection H as _ <-.
    + destruct Hc as [Hc1 Hc2]. inv_bind H.
      * eapply IHe; [exact Hc2| |exact Hb]. (eapply IHe; [..|eassumption]; eauto).
      * injection Hb as _ <-. (eapply IHe; [..|eassumption]; eauto).
    + destruct Hc as [Hc1 Hc2]. destruct (b _ _); (eapply IHe; [..|eassumption]; eauto).
    + by injection H as _ <-.
    + destruct Hc as [Hc1 Hc2].
      destruct (exec code n c w) as [[[|e] w1]|] eqn:E; [| |done].
      * injection H as _ <-. (eapply IHe; [..|eassumption]; eauto).
      * eapply IHe; [apply Hc2| |exact H]. (eapply IHe; [..|eassumption]; eauto).
    + injection H as _ <-. by apply I_Log.
    + injection H as _ <-. by apply I_SetField.
    + injection H as _ <-. by apply I_SetState.
    + unfold change_with in H.
      destruct (changing w) eqn:Hch; [(eapply IHe; [..|eassumption]; eauto)|].
      destruct H_change as [Hct|(Hc1 & Hc2 & Hc3)].
      { rewrite (Hct _ HI) in Hch. done. }
      inv_bind H.
      * assert (I w0) by (eapply Hemit; [|exact Ha]; exact (Hc1 w HI Hch)).
        inv_bind Hb.
        -- assert (I w1) by ((eapply IHe; [..|eassumption]; eauto)).
           inv_bind Hbb.
           ++ injection Hbbb as _ <-. apply Hc3.
              eapply Hemit; [|exact Hbba]. by apply Hc2.
           ++ injection Hbbb as _ <-.
              eapply Hemit; [|exact Hbba]. by apply Hc2.
        -- injection Hbb as _ <-. (eapply IHe; [..|eassumption]; eauto).
      * injection Hb as _ <-. eapply Hemit; [|exact Ha]. exact (Hc1 w HI Hch).
    + eapply Hemit; [|exact H]. by apply I_Fired.
    + injection H as _ <-. by apply I_On.
    + injection H as _ <-. by apply I_Off.
    + unfold init_with, call__init_with in H.
      destruct (initialized w) eqn:Hin; [by injection H as _ <-|].
      destruct H_init as [Hit|[Hno|Hok]]; [|done|].
      { rewrite (Hit _ HI) in Hin. done. }
      pose proof Hok as (Hi1 & Hi2 & Hi3). simpl in H.
      destruct (_init w) as [|ts] eqn:Hts.
      * injection H as _ <-. by apply Hi1.
      * eapply (IHr Hok); [|by apply Hi1|exact H].
        specialize (Hi3 _ HI). by rewrite Hts in Hi3.
    + destruct (objs w !! api w ≫= _) as [[]|]; try by injection H as _ <-.
      eapply IHe; [apply P_code|exact HI|exact H].
  - intros t s i d w r w' HI HF H. simpl in H.
    destruct (sets w !! s ≫= _) as [[h|]|] eqn:Hh.
    + assert (HI' : I (log (Invoked t h d) w)) by (eapply I_Invoked; eauto).
      inv_bind H.
      * eapply IHf; [| |exact Hb].
        -- eapply IHe; [apply P_code|exact HI'|exact Ha].
        -- eapply F_exec; [apply P_code|exact HI'| |exact Ha]. by apply F_log.
      * injection Hb as _ <-. eapply IHe; [apply P_code|exact HI'|exact Ha].
    + (eapply IHf; [..|eassumption]; eauto).
    + by injection H as _ <-.
  - intros Hok ts k w r w' Hts HI H. pose proof Hok as (Hi1 & Hi2 & Hi3).
    simpl in H. destruct ts as [|t ts]; [by injection H as _ <-|].
    apply Forall_cons in Hts as [Ht Hts].
    inv_bind H.
    + eapply (IHr Hok); [exact Hts| |exact Hb].
      eapply IHe; [exact Ht| |exact Ha]. by apply Hi2.
    + injection Hb as _ <-. eapply IHe; [exact Ht| |exact Ha]. by apply Hi2.
Qed.

End Preservation.

Lemma cmd_forall_True c : cmd_forall (λ _, True) c.
Proof. induction c; simpl; auto. Qed.

(** ** change: one transaction, one pair of events *)
Section Change.

Variable code : fid → value → cmd.

Lemma by_change_log ev w :
  by_change (trace (log ev w)) =
  by_change (trace w) ++ (if is_by_change ev then [ev] else []).
Proof.
  unfold by_change. simpl. rewrite filter_app. f_equal.
  rewrite filter_cons, filter_nil. destruct (is_by_change ev); by case_decide.
Qed.

Lemma fired_is_by_change type ev :
  fired_by_change type ev = true → is_by_change ev = true.
Proof. by destruct ev as [[] ? ?| | | |]. Qed.

Lemma count_fired_by_change type tr :
  count_fired type tr = count_fired type (by_change tr).
Proof.
  unfold count_fired, by_change. induction tr as [|ev tr IH]; [done|].
  rewrite (filter_cons (λ ev, is_by_change ev = true)).
  destruct (decide (is_by_change ev = true)) as [Hb|Hb].
  - rewrite !filter_cons. case_decide; simpl; by rewrite IH.
  - rewrite filter_cons. case_decide as Hf; [|done].
    by apply fired_is_by_change in Hf.
Qed.

Lemma count_fired_app type tr1 tr2 :
  count_fired type (tr1 ++ tr2) = count_fired type tr1 + count_fired type tr2.
Proof. unfold count_fired. by rewrite filter_app, length_app. Qed.

Lemma in_change_preserved l n :
  (∀ c w r w', in_change l w →
     exec code n c w = Some (r, w') → in_change l w') ∧
  (∀ t s i d w r w', in_change l w →
     for_each code n t s i d w = Some (r, w') → in_change l w').
Proof.
  assert (Hlog : ∀ ev w, is_by_change ev = false →
            in_change l w → in_change l (log ev w)).
  { intros ev w Hev [Hc Hl]. split; [done|].
    by rewrite by_change_log, Hev, app_nil_r. }
  edestruct (preservation code (in_change l) (λ _, True) (λ _ _ _, True))
    with (n := n) as (He & Hf & _).
  - intros. apply cmd_forall_True.
  - intros e w _. by apply Hlog.
  - by intros k e w _.
  - by intros f w _.
  - intros t h w _. unfold on. by destruct (listeners w !! t).
  - intros t h w _. unfold off. destruct (listeners w !! t); [|done].
    simpl. by case_bool_decide.
  - intros t d w _. by apply Hlog.
  - intros t s i h d w HI _ _. by apply Hlog.
  - done.
  - done.
  - done.
  - left. by intros w [??].
  - right; right. split_and!.
    + by intros w [??] _.
    + intros k w. by apply Hlog.
    + intros w _. apply Forall_forall. intros. apply cmd_forall_True.
  - split.
    + intros c w r w' HI H. eapply He; [apply cmd_forall_True|exact HI|exact H].
    + intros t s i d w r w' HI H. eapply Hf; [exact HI|done|exact H].
Qed.

(** An [emit] made by [change]: one event on its behalf. *)
Lemma emit_by_change n type w r w' :
  changing w = true →
  emit code n ByChange type (VRef (state w)) w = Some (r, w') →
  in_change (by_change (trace w) ++ [Fired ByChange type (VRef (state w))]) w'.
Proof.
  intros Hc. unfold emit, emit_with.
  set (w1 := log _ w).
  assert (HI : in_change
                 (by_change (trace w) ++ [Fired ByChange type (VRef (state w))])
                 w1).
  { subst w1. split; [done|]. by rewrite by_change_log. }
  destruct (listeners w1 !! type) as [s|].
  - intros H. by eapply in_change_preserved.
  - by intros [= _ <-].
Qed.

(** The course of an outermost [change] that returns. *)
Lemma change_events fn w n w' :
  changing w = false →
  change code n fn w = Some (Normal, w') →
  ∃ w1 w2 w3,
    emit code n ByChange "beforeChange" (VRef (state w)) (set_changing true w)
      = Some (Normal, w1) ∧
    exec code n fn w1 = Some (Normal, w2) ∧
    emit code n ByChange "change" (VRef (state w2)) w2 = Some (Normal, w3) ∧
    w' = set_changing false w3 ∧
    by_change (trace w') =
      by_change (trace w) ++
      [Fired ByChange "beforeChange" (VRef (state w));
       Fired ByChange "change" (VRef (state w2))].
Proof.
  intros Hw H. unfold change, change_with in H. rewrite Hw in H.
  inv_bind H as w1 E1 H; [|done]. inv_bind H as w2 E2 H; [|done].
  inv_bind H as w3 E3 H; [|done]. injection H as <-.
  exists w1, w2, w3. split_and!; try done.
  pose proof (emit_by_change n "beforeChange" (set_changing true w)
                _ _ eq_refl E1) as I1.
  pose proof (proj1 (in_change_preserved _ n) _ _ _ _ I1 E2) as [C2 B2].
  pose proof (emit_by_change n "change" w2 _ _ C2 E3) as [C3 B3].
  simpl in *. by rewrite B3, B2, <- app_assoc.
Qed.

(** An outermost [change] left by an exception, of the callback or of a
    listener, leaves the flag set. *)
Lemma change_throw_leaves_flag fn w n e w' :
  changing w = false →
  change code n fn w = Some (Thrown e, w') →
  changing w' = true.
Proof.
  intros Hw H. unfold change, change_with in H. rewrite Hw in H.
  inv_bind H as w1 E1 H.
  - pose proof (emit_by_change n "beforeChange" (set_changing true w)
                  _ _ eq_refl E1) as I1.
    inv_bind H as w2 E2 H.
    + pose proof (proj1 (in_change_preserved _ n) _ _ _ _ I1 E2) as [C2 B2].
      inv_bind H as w3 E3 H; [done|]. injection H as _ <-.
      by destruct (emit_by_change n "change" w2 _ _ C2 E3).
    + injection H as _ <-.
      by destruct (proj1 (in_change_preserved _ n) _ _ _ _ I1 E2).
  - injection H as _ <-.
    by destruct (emit_by_change n "beforeChange" (set_changing true w)
                   _ _ eq_refl E1).
Qed.

Lemma count_emitted_log type ev w :
  count_emitted type (trace (log ev w)) =
  count_emitted type (trace w) + (if is_fired type ev then 1 else 0).
Proof.
  unfold count_emitted. simpl. rewrite filter_app, length_app. f_equal.
  rewrite filter_cons, filter_nil. destruct (is_fired type ev); by case_decide.
Qed.

Lemma emitted_in_change_frame a b (w w' : World) :
  changing w' = changing w → _init w' = _init w →
  count_emitted "beforeChange" (trace w')
    = count_emitted "beforeChange" (trace w) →
  count_emitted "change" (trace w') = count_emitted "change" (trace w) →
  emitted_in_change a b w → emitted_in_change a b w'.
Proof.
  intros Hc Hi Ha Hb (? & ? & ? & ?). split_and!; congruence.
Qed.

(** With callback code that does not itself emit the two events, they
    are not emitted at all while a change is in progress. *)
Lemma emitted_in_change_preserved a b n :
  (∀ f v, cmd_forall no_change_emit (code f v)) →
  (∀ c w r w', cmd_forall no_change_emit c → emitted_in_change a b w →
     exec code n c w = Some (r, w') → emitted_in_change a b w') ∧
  (∀ t s i d w r w', emitted_in_change a b w →
     for_each code n t s i d w = Some (r, w') → emitted_in_change a b w').
Proof.
  intros Hcode.
  assert (Hlog : ∀ ev w, is_fired "beforeChange" ev = false →
            is_fired "change" ev = false →
            emitted_in_change a b w → emitted_in_change a b (log ev w)).
  { intros ev w H1 H2. apply emitted_in_change_frame; try done;
      by rewrite count_emitted_log, ?H1, ?H2, Nat.add_0_r. }
  edestruct (preservation code (emitted_in_change a b) no_change_emit
               (λ _ _ _, True)) with (n := n) as (He & Hf & _).
  - exact Hcode.
  - intros e w _. by apply Hlog.
  - intros k e w _. by apply emitted_in_change_frame.
  - intros f w _. by apply emitted_in_change_frame.
  - intros t h w _. apply emitted_in_change_frame;
      unfold on; by destruct (listeners w !! t).
  - intros t h w _. apply emitted_in_change_frame;
      unfold off; (destruct (listeners w !! t); [|done]); simpl;
      by case_bool_decide.
  - intros t e w [H1 H2]. apply Hlog; simpl; by case_bool_decide.
  - intros t s i h d w HI _ _. by apply Hlog.
  - done.
  - done.
  - done.
  - left. by intros w (? & _).
  - right; right. split_and!.
    + intros w HI _. revert HI. by apply emitted_in_change_frame.
    + intros k w. by apply Hlog.
    + by intros w (_ & _ & _ & ?).
  - split.
    + exact He.
    + intros t s i d w r w' HI H. eapply Hf; [exact HI|done|exact H].
Qed.

(** An outermost [change] that returns, with such code: each of the two
    events has been emitted once. *)
Lemma change_emitted_once fn w n w' :
  (∀ f v, cmd_forall no_change_emit (code f v)) →
  Forall (λ t, cmd_forall no_change_emit (init_body t)) (inits_of (_init w)) →
  cmd_forall no_change_emit fn →
  changing w = false →
  change code n fn w = Some (Normal, w') →
  count_emitted "beforeChange" (trace w')
    = S (count_emitted "beforeChange" (trace w)) ∧
  count_emitted "change" (trace w') = S (count_emitted "change" (trace w)).
Proof.
  intros Hcode Hinits Hfn Hw H.
  unfold change, change_with, emit_with in H. rewrite Hw in H.
  set (a := count_emitted "beforeChange" (trace w)) in *.
  set (b := count_emitted "change" (trace w)) in *.
  destruct (emitted_in_change_preserved (S a) b n Hcode) as [He Hf].
  destruct (emitted_in_change_preserved (S a) (S b) n Hcode) as [_ Hf'].
  inv_bind H as w1 E1 H; [|done]. inv_bind H as w2 E2 H; [|done].
  inv_bind H as w3 E3 H; [|done]. injection H as <-.
  assert (emitted_in_change (S a) b w1) as I1.
  { set (w0 := log _ (set_changing true w)) in E1.
    assert (emitted_in_change (S a) b w0) as I0.
    { subst w0. split_and!; try done.
      - rewrite count_emitted_log. simpl. subst a. simpl. lia.
      - rewrite count_emitted_log. simpl. subst b. simpl. lia. }
    destruct (listeners w0 !! "beforeChange"); [by eapply Hf|].
    by injection E1 as <-. }
  assert (emitted_in_change (S a) b w2) as I2 by (by eapply He).
  assert (emitted_in_change (S a) (S b) w3) as (_ & A3 & B3 & _).
  { set (w0 := log _ w2) in E3.
    assert (emitted_in_change (S a) (S b) w0) as I0.
    { destruct I2 as (? & A2 & B2 & ?). subst w0. split_and!; try done.
      - rewrite count_emitted_log. simpl. lia.
      - rewrite count_emitted_log. simpl. lia. }
    destruct (listeners w0 !! "change"); [by eapply Hf'|].
    by injection E3 as <-. }
  done.
Qed.

(** A [change] made while a change is in progress is a call of its
    callback. *)
Lemma change_nested callback w n :
  changing w = true →
  change code n callback w = exec code n callback w.
Proof. intros Hw. unfold change, change_with. by rewrite Hw. Qed.

(** Mutation-only callbacks return normally and leave the registry
    alone, however deeply their [change] calls are nested. *)
Lemma nested_mutations_return c :
  nested_mutations c → ∀ w, changing w = true →
  ∃ w', exec code (depth c) c w = Some (Normal, w') ∧
        changing w' = true ∧ listeners w' = listeners w.
Proof.
  induction c; simpl; try done.
  - intros _ w Hw. by exists w.
  - intros [H1 H2] w Hw.
    destruct (IHc1 H1 w Hw) as (w1 & E1 & Hw1 & L1).
    destruct (IHc2 H2 w1 Hw1) as (w2 & E2 & Hw2 & L2).
    exists w2. split_and!; [|done|congruence].
    rewrite (proj1 (fuel_mono code _) _ _ _ E1 _ (Nat.le_max_l _ _)). simpl.
    apply (proj1 (fuel_mono code _) _ _ _ E2 _ (Nat.le_max_r _ _)).
  - intros [H1 H2] w Hw. destruct (b (objs w) (state w)).
    + destruct (IHc1 H1 w Hw) as (w1 & E1 & Hw1 & L1).
      exists w1. split_and!; [|done..].
      apply (proj1 (fuel_mono code _) _ _ _ E1 _ (Nat.le_max_l _ _)).
    + destruct (IHc2 H2 w Hw) as (w1 & E1 & Hw1 & L1).
      exists w1. split_and!; [|done..].
      apply (proj1 (fuel_mono code _) _ _ _ E1 _ (Nat.le_max_r _ _)).
  - intros _ w Hw. by eexists.
  - intros _ w Hw. by eexists.
  - intros _ w Hw. by eexists.
  - intros H w Hw. unfold change_with. rewrite Hw. by apply IHc.
Qed.

Lemma change_nested_mutations_return fn w :
  nested_mutations fn →
  changing w = false →
  listeners w !! "beforeChange" = None →
  listeners w !! "change" = None →
  ∃ w', change code (depth fn) fn w = Some (Normal, w').
Proof.
  intros Hfn Hw Hb Hc. unfold change, change_with, emit_with.
  rewrite Hw. simpl. rewrite Hb. simpl.
  destruct (nested_mutations_return fn Hfn
              (log (Fired ByChange "beforeChange" (VRef (state w)))
                   (set_changing true w)) eq_refl) as (w1 & E1 & Hw1 & L1).
  rewrite E1. simpl. simpl in L1. rewrite L1, Hc. simpl. by eexists.
Qed.

End Change.

(** ** The listener registry *)

Lemma live_set_add h (es : list (option fid)) :
  omap id (set_add h es) =
  if decide (h ∈ omap id es) then omap id es else omap id es ++ [h].
Proof.
  unfold set_add, set_has.
  assert (Some h ∈ es ↔ h ∈ omap id es) as Hiff.
  { rewrite list_elem_of_omap. split.
    - intros H. by exists (Some h).
    - intros ([x|] & H & [=]). by subst. }
  case_bool_decide; case_decide; try tauto; [].
  by rewrite omap_app.
Qed.

Lemma live_set_delete h (es : list (option fid)) :
  omap id (set_delete h es) = filter (λ x, x ≠ h) (omap id es).
Proof.
  unfold set_delete. induction es as [|[x|] es IH]; simpl; [done| |done].
  case_decide as E.
  - injection E as ->. rewrite filter_cons. simpl.
    case_decide; [done|]. apply IH.
  - rewrite filter_cons. simpl. case_decide; [|congruence].
    f_equal. apply IH.
Qed.

Lemma set_delete_absent h (es : list (option fid)) :
  h ∉ omap id es → set_delete h es = es.
Proof.
  unfold set_delete. induction es as [|[x|] es IH]; simpl; intros H.
  - done.
  - destruct (decide (Some x = Some h)) as [E|E].
    + injection E as ->. exfalso. apply H. by left.
    + f_equal. apply IH. intros Hin. apply H. by right.
  - f_equal. by apply IH.
Qed.

Lemma world_eta w :
  {| state := state w; api := api w; _init := _init w;
     initialized := initialized w; changing := changing w;
     listeners := listeners w; objs := objs w; sets := sets w;
     trace := trace w |} = w.
Proof. by destruct w. Qed.

(** What [on] does to the registry. *)
Lemma registered_on t h w :
  registry_wf w →
  registered t (on t h w).1 =
  if decide (h ∈ registered t w) then registered t w
  else registered t w ++ [h].
Proof.
  intros [Hv _ _ _]. unfold registered, entries_of, on.
  destruct (listeners w !! t) as [s|] eqn:Hs; simpl.
  - rewrite lookup_insert_eq. simpl. rewrite list_lookup_alter_eq.
    pose proof (Hv _ _ Hs) as Hlt.
    destruct (lookup_lt_is_Some_2 (sets w) s Hlt) as [es Hes].
    rewrite Hes. simpl. apply live_set_add.
  - rewrite lookup_insert_eq. simpl.
    rewrite list_lookup_alter_eq, lookup_app_r, Nat.sub_diag by done. done.
Qed.

Lemma registered_on_ne t t' h w :
  registry_wf w → t ≠ t' →
  registered t' (on t h w).1 = registered t' w.
Proof.
  intros [Hv Hi _ _] Hne. unfold registered, entries_of, on.
  destruct (listeners w !! t) as [s|] eqn:Hs; simpl.
  - rewrite lookup_insert_ne by done.
    destruct (listeners w !! t') as [s'|] eqn:Hs'; [|done]. simpl.
    rewrite list_lookup_alter_ne; [done|].
    intros ->. apply Hne. by eapply Hi.
  - rewrite lookup_insert_ne by done.
    destruct (listeners w !! t') as [s'|] eqn:Hs'; [|done]. simpl.
    pose proof (Hv _ _ Hs') as Hlt.
    rewrite list_lookup_alter_ne by lia. by rewrite lookup_app_l.
Qed.

Lemma listeners_on t t' h w :
  is_Some (listeners (on t h w).1 !! t') ↔
  t = t' ∨ is_Some (listeners w !! t').
Proof.
  unfold on. destruct (listeners w !! t) as [s|] eqn:Hs; simpl.
  - rewrite lookup_insert. case_decide; [|tauto].
    subst. split; [by left|by eexists].
  - rewrite lookup_insert. case_decide; [|tauto].
    subst. split; [by left|by eexists].
Qed.

Lemma on_wf t h w : registry_wf w → registry_wf (on t h w).1.
Proof.
  intros Hwf. pose proof Hwf as [Hv Hi Hn Ho]. split.
  - intros t' s'. unfold on.
    destruct (listeners w !! t) as [s|] eqn:Hs; simpl;
      rewrite length_alter, lookup_insert; case_decide.
    + intros [= <-]. by eapply Hv.
    + apply Hv.
    + intros [= <-]. rewrite length_app. simpl. lia.
    + intros H'. apply Hv in H'. rewrite length_app. simpl. lia.
  - intros t1 t2 s'. unfold on.
    destruct (listeners w !! t) as [s|] eqn:Hs; simpl;
      rewrite !lookup_insert; repeat case_decide; subst; try done.
    + intros [= <-] H2. by eapply Hi.
    + intros H1 [= <-]. by eapply Hi.
    + apply Hi.
    + intros [= <-] H2. apply Hv in H2. lia.
    + intros H1 [= <-]. apply Hv in H1. lia.
    + apply Hi.
  - intros t' Hsome. destruct (decide (t = t')) as [<-|Hne].
    + rewrite registered_on by done. case_decide as Hin.
      * intros E. rewrite E in Hin. by apply not_elem_of_nil in Hin.
      * intros E. by apply app_nil in E as [_ [=]].
    + rewrite registered_on_ne by done. apply Hn.
      apply listeners_on in Hsome as [?|?]; done.
  - intros s' es. unfold on.
    destruct (listeners w !! t) as [s|] eqn:Hs; simpl.
    + rewrite insert_id by done. intros Hes Horph.
      destruct (decide (s = s')) as [<-|Hne]; [by destruct (Horph t)|].
      rewrite list_lookup_alter_ne in Hes by done. by eapply Ho.
    + intros Hes Horph.
      destruct (decide (length (sets w) = s')) as [<-|Hne].
      { destruct (Horph t). apply lookup_insert_eq. }
      rewrite list_lookup_alter_ne in Hes by done.
      apply lookup_app_Some in Hes as [Hes|[Hge Hes]].
      * eapply Ho; [exact Hes|]. intros t' Ht'. apply (Horph t').
        rewrite lookup_insert_ne; [done|]. intros <-. congruence.
      * destruct (s' - length (sets w)) as [|k] eqn:Hk; [lia|].
        by destruct k.
Qed.

(** What [off] does to the registry. *)
Lemma registered_off t h w :
  registry_wf w →
  registered t (off t h w) = filter (λ x, x ≠ h) (registered t w).
Proof.
  intros [Hv _ _ _]. unfold registered, entries_of, off.
  destruct (listeners w !! t) as [s|] eqn:Hs; simpl.
  - pose proof (Hv _ _ Hs) as Hlt.
    destruct (lookup_lt_is_Some_2 (sets w) s Hlt) as [es Hes].
    rewrite list_lookup_alter_eq, Hes. simpl.
    unfold set_size. rewrite live_set_delete.
    case_bool_decide as E; simpl.
    + rewrite lookup_delete_eq. simpl. symmetry. by apply nil_length_inv.
    + rewrite Hs. simpl. rewrite list_lookup_alter_eq, Hes. simpl.
      apply live_set_delete.
  - by rewrite Hs.
Qed.

Lemma registered_off_ne t t' h w :
  registry_wf w → t ≠ t' →
  registered t' (off t h w) = registered t' w.
Proof.
  intros [Hv Hi _ _] Hne. unfold registered, entries_of, off.
  destruct (listeners w !! t) as [s|] eqn:Hs; simpl; [|done].
  assert (∀ s', listeners w !! t' = Some s' →
            alter (set_delete h) s (sets w) !! s' = sets w !! s') as Hsame.
  { intros s' Hs'. apply list_lookup_alter_ne. intros ->.
    apply Hne. by eapply Hi. }
  case_bool_decide; simpl.
  - rewrite lookup_delete_ne by done.
    destruct (listeners w !! t') as [s'|] eqn:Hs'; [|done]. simpl.
    by rewrite Hsame.
  - destruct (listeners w !! t') as [s'|] eqn:Hs'; [|done]. simpl.
    by rewrite Hsame.
Qed.

(** [off] releases the key exactly when no listener is left. *)
Lemma listeners_off t h w :
  registry_wf w → is_Some (listeners w !! t) →
  (listeners (off t h w) !! t = None ↔
   filter (λ x, x ≠ h) (registered t w) = []) ∧
  (filter (λ x, x ≠ h) (registered t w) ≠ [] →
   listeners (off t h w) !! t = listeners w !! t).
Proof.
  intros [Hv _ _ _] [s Hs]. unfold registered, entries_of, off. rewrite Hs.
  simpl. pose proof (Hv _ _ Hs) as Hlt.
  destruct (lookup_lt_is_Some_2 (sets w) s Hlt) as [es Hes].
  rewrite list_lookup_alter_eq, Hes. simpl.
  unfold set_size. rewrite live_set_delete.
  case_bool_decide as E; simpl.
  - rewrite lookup_delete_eq. apply nil_length_inv in E.
    split; [done|]. by intros [].
  - rewrite Hs. split; [|done]. split; [done|].
    intros E'. by rewrite E' in E.
Qed.

Lemma off_wf t h w : registry_wf w → registry_wf (off t h w).
Proof.
  intros Hwf. pose proof Hwf as [Hv Hi Hn Ho].
  assert (∀ t' s', listeners (off t h w) !! t' = Some s' →
            listeners w !! t' = Some s') as Hsub.
  { intros t' s'. unfold off.
    destruct (listeners w !! t) as [s|]; [|done]. simpl.
    case_bool_decide; simpl; [|done].
    rewrite lookup_delete. by case_decide. }
  assert (length (sets (off t h w)) = length (sets w)) as Hlen.
  { unfold off. destruct (listeners w !! t) as [s|]; [|done]. simpl.
    case_bool_decide; simpl; by rewrite length_alter. }
  split.
  - intros t' s' H'. rewrite Hlen. eapply Hv. by apply Hsub.
  - intros t1 t2 s' H1 H2. eapply Hi; by apply Hsub.
  - intros t' [s' Hs']. destruct (decide (t = t')) as [<-|Hne].
    + rewrite registered_off by done. intros E.
      destruct (listeners_off t h w Hwf) as [[_ Hoff] _].
      { exists s'. by apply Hsub. }
      rewrite (Hoff E) in Hs'. done.
    + rewrite registered_off_ne by done. apply Hn. exists s'. by apply Hsub.
  - intros s' es. unfold off.
    destruct (listeners w !! t) as [s|] eqn:Hs; [|apply Ho]. simpl.
    pose proof (Hv _ _ Hs) as Hlt.
    destruct (lookup_lt_is_Some_2 (sets w) s Hlt) as [es0 Hes0].
    rewrite list_lookup_alter_eq, Hes0. simpl.
    case_bool_decide as E; simpl.
    + intros Hes Horph. destruct (decide (s = s')) as [<-|Hne].
      * rewrite list_lookup_alter_eq, Hes0 in Hes. injection Hes as <-.
        by apply nil_length_inv.
      * rewrite list_lookup_alter_ne in Hes by done.
        eapply Ho; [exact Hes|]. intros t' Ht'. apply (Horph t').
        rewrite lookup_delete_ne; [done|]. intros <-. congruence.
    + intros Hes Horph. destruct (decide (s = s')) as [<-|Hne].
      * by destruct (Horph t).
      * rewrite list_lookup_alter_ne in Hes by done. by eapply Ho.
Qed.

Lemma registry_wf_frame w w' :
  listeners w' = listeners w → sets w' = sets w →
  registry_wf w → registry_wf w'.
Proof.
  intros Hl Hs [Hv Hi Hn Ho].
  split; unfold registered, entries_of; rewrite ?Hl, ?Hs; done.
Qed.

(** [off] with a listener that is not registered changes nothing. *)
Lemma off_unregistered t h w :
  registry_wf w → h ∉ registered t w → off t h w = w.
Proof.
  intros [Hv _ Hn _] Hnot. unfold off.
  destruct (listeners w !! t) as [s|] eqn:Hs; [|done]. simpl.
  pose proof (Hv _ _ Hs) as Hlt.
  destruct (lookup_lt_is_Some_2 (sets w) s Hlt) as [es Hes].
  assert (omap id es = registered t w) as Hreg.
  { unfold registered, entries_of. rewrite Hs. simpl. by rewrite Hes. }
  assert (alter (set_delete h) s (sets w) = sets w) as Halt.
  { apply list_eq. intros j. destruct (decide (s = j)) as [<-|Hne].
    - rewrite list_lookup_alter_eq, Hes. simpl. f_equal.
      apply set_delete_absent. by rewrite Hreg.
    - by apply list_lookup_alter_ne. }
  rewrite Halt, Hes. simpl. case_bool_decide as E.
  - exfalso. apply (Hn t); [by exists s|].
    rewrite <- Hreg. by apply nil_length_inv.
  - unfold set_sets. apply world_eta.
Qed.

Lemma invocations_log type h ev w :
  invocations type h (trace (log ev w)) =
  invocations type h (trace w) + (if is_invocation type h ev then 1 else 0).
Proof.
  unfold invocations. simpl. rewrite filter_app, length_app. f_equal.
  rewrite filter_cons, filter_nil.
  destruct (is_invocation type h ev); by case_decide.
Qed.

Lemma owns_on t s t' h w :
  registry_wf w → owns t s w → owns t s (on t' h w).1.
Proof.
  intros [Hv Hi _ _] [Hlt Hown]. unfold owns, on.
  destruct (listeners w !! t') as [s'|] eqn:Hs'; simpl.
  - rewrite length_alter, insert_id by done. done.
  - rewrite length_alter, length_app. split; [lia|].
    destruct Hown as [Hown|Hown].
    + left. rewrite lookup_insert_ne; [done|]. intros <-. congruence.
    + right. intros t''. rewrite lookup_insert. case_decide.
      * intros [= E]. lia.
      * apply Hown.
Qed.

Lemma owns_off t s t' h w :
  registry_wf w → owns t s w → owns t s (off t' h w).
Proof.
  intros [Hv Hi _ _] [Hlt Hown]. unfold owns, off.
  destruct (listeners w !! t') as [s'|] eqn:Hs'; [|done]. simpl.
  case_bool_decide; simpl; rewrite length_alter; [|done].
  split; [done|]. destruct Hown as [Hown|Hown].
  - destruct (decide (t' = t)) as [->|Hne].
    + right. intros t''. rewrite lookup_delete. case_decide; [done|].
      intros Ht''. by pose proof (Hi _ _ _ Hown Ht'').
    + left. by rewrite lookup_delete_ne.
  - right. intros t''. rewrite lookup_delete. case_decide; [done|].
    apply Hown.
Qed.

(** After [on] and then [off] the listener is not registered. *)
Lemma on_off_unregistered type h w :
  registry_wf w → h ∉ registered type (off type h (on type h w).1).
Proof.
  intros Hwf. rewrite registered_off by (by apply on_wf).
  rewrite list_elem_of_filter. by intros [? _].
Qed.

(** ** emit *)
Section Emit.

Variable code : fid → value → cmd.

Lemma omap_id_nil (entries : list (option fid)) :
  omap id entries = [] → ∀ j h, entries !! j ≠ Some (Some h).
Proof.
  intros H j h Hj.
  assert (h ∈ omap id entries) as Hin.
  { apply list_elem_of_omap. exists (Some h). split; [|done].
    by eapply list_elem_of_lookup_2. }
  rewrite H in Hin. by apply not_elem_of_nil in Hin.
Qed.

(** A [forEach] over entries that are all deleted calls nothing. *)
Lemma for_each_skip t s d w entries :
  sets w !! s = Some entries →
  (∀ j h, entries !! j ≠ Some (Some h)) →
  ∀ k i, length entries ≤ i + k →
  for_each code (S k) t s i d w = Some (Normal, w).
Proof.
  intros Hs Hdead. induction k as [|k IH]; intros i Hlen.
  - simpl. rewrite Hs. simpl.
    rewrite (lookup_ge_None_2 entries i) by lia. done.
  - change (for_each code (S (S k)) t s i d w) with
      (match sets w !! s ≫= (.!! i) with
       | None => Some (Normal, w)
       | Some None => for_each code (S k) t s (S i) d w
       | Some (Some listener) =>
           let* w :=
             exec code (S k) (code listener d) (log (Invoked t listener d) w) in
           for_each code (S k) t s (S i) d w
       end).
    rewrite Hs. simpl. destruct (entries !! i) as [[h|]|] eqn:E.
    + by destruct (Hdead i h).
    + apply IH. lia.
    + done.
Qed.

(** [emit] for an event without registered listeners returns normally
    and only the call itself is observed. *)
Lemma emit_no_listeners o type data w :
  registered type w = [] →
  ∀ n, length (entries_of type w) < n →
  emit code n o type data w = Some (Normal, log (Fired o type data) w).
Proof.
  unfold registered, entries_of, emit, emit_with. intros Hreg n Hn. simpl.
  destruct (listeners w !! type) as [s|] eqn:Hs; [|done]. simpl in *.
  destruct (sets w !! s) as [entries|] eqn:Hss; simpl in *.
  - destruct n as [|n]; [lia|].
    apply for_each_skip with (entries := entries); [done| |lia].
    by apply omap_id_nil.
  - destruct n as [|n]; [lia|]. simpl. by rewrite Hss.
Qed.

Lemma emit_no_listeners_inv o type data w n r :
  registered type w = [] →
  emit code n o type data w = Some r →
  r = (Normal, log (Fired o type data) w).
Proof.
  intros Hreg H.
  pose proof (emit_mono code n (n `max` S (length (entries_of type w)))
                _ _ _ _ _ H (Nat.le_max_l _ _)) as H'.
  rewrite emit_no_listeners in H' by (done || lia). by injection H' as <-.
Qed.

(** A listener that throws ends the [forEach]: the exception leaves
    [emit] from the world in which it was thrown. *)
Lemma for_each_throw n t s i d w h e w' :
  sets w !! s ≫= (.!! i) = Some (Some h) →
  exec code n (code h d) (log (Invoked t h d) w) = Some (Thrown e, w') →
  for_each code (S n) t s i d w = Some (Thrown e, w').
Proof. intros Hh He. simpl. by rewrite Hh, He. Qed.

Lemma for_each_next n t s i d w h w1 :
  sets w !! s ≫= (.!! i) = Some (Some h) →
  exec code n (code h d) (log (Invoked t h d) w) = Some (Normal, w1) →
  for_each code (S n) t s i d w = for_each code n t s (S i) d w1.
Proof. intros Hh He. simpl. by rewrite Hh, He. Qed.

(** Executions only add observations. *)
Lemma trace_extends l n :
  (∀ c w r w', l `prefix_of` trace w →
     exec code n c w = Some (r, w') → l `prefix_of` trace w') ∧
  (∀ t s i d w r w', l `prefix_of` trace w →
     for_each code n t s i d w = Some (r, w') → l `prefix_of` trace w').
Proof.
  assert (Hlog : ∀ ev w, l `prefix_of` trace w → l `prefix_of` trace (log ev w)).
  { intros ev w H. simpl. by apply prefix_app_r. }
  edestruct (preservation code (λ w, l `prefix_of` trace w)
               (λ _, True) (λ _ _ _, True)) with (n := n) as (He & Hf & _).
  - intros. apply cmd_forall_True.
  - intros e w _. apply Hlog.
  - by intros k e w _.
  - by intros f w _.
  - intros t h w _. unfold on. by destruct (listeners w !! t).
  - intros t h w _. unfold off. destruct (listeners w !! t); [|done].
    simpl. by case_bool_decide.
  - intros t d w _. apply Hlog.
  - intros t s i h d w HI _ _. by apply Hlog.
  - done.
  - done.
  - done.
  - right. split_and!; [intros w HI _|intros w HI|by intros w]; by apply Hlog.
  - right; right. split_and!.
    + by intros w.
    + intros k w. apply Hlog.
    + intros w _. apply Forall_forall. intros. apply cmd_forall_True.
  - split.
    + intros c w r w' HI H. eapply He; [apply cmd_forall_True|exact HI|exact H].
    + intros t s i d w r w' HI H. eapply Hf; [exact HI|done|exact H].
Qed.

(** The [forEach] of [emit(type, data)] calls the first listener it
    finds with [data]. *)
Lemma for_each_first t s d h rest n : ∀ i w r w' entries,
  sets w !! s = Some entries →
  omap id (drop i entries) = h :: rest →
  for_each code n t s i d w = Some (r, w') →
  (trace w ++ [Invoked t h d]) `prefix_of` trace w'.
Proof.
  induction n as [|n IH]; intros i w r w' entries Hs Hlive H; [done|].
  simpl in H. rewrite Hs in H. simpl in H.
  destruct (entries !! i) as [[h'|]|] eqn:Hi.
  - rewrite (drop_S _ _ _ Hi) in Hlive. simpl in Hlive.
    injection Hlive as -> _.
    inv_bind H as w1 E1 H.
    + eapply (proj2 (trace_extends _ n)); [|exact H].
      eapply (proj1 (trace_extends _ n)); [|exact E1]. done.
    + injection H as _ <-.
      eapply (proj1 (trace_extends _ n)); [|exact E1]. done.
  - rewrite (drop_S _ _ _ Hi) in Hlive. simpl in Hlive.
    by eapply IH.
  - rewrite drop_ge in Hlive; [done|]. by apply lookup_ge_None.
Qed.

Lemma emit_first_listener o type data w n h rest r w' :
  registered type w = h :: rest →
  emit code n o type data w = Some (r, w') →
  (trace w ++ [Fired o type data; Invoked type h data]) `prefix_of` trace w'.
Proof.
  unfold registered, entries_of, emit, emit_with. intros Hreg H. simpl in H.
  destruct (listeners w !! type) as [s|] eqn:Hs; [|done]. simpl in Hreg.
  destruct (sets w !! s) as [entries|] eqn:Hss; [|done]. simpl in Hreg.
  eapply for_each_first in H; [|exact Hss|by rewrite drop_0].
  simpl in H. by rewrite <- app_assoc in H.
Qed.

(** The registry stays well formed, and a set stays the one of its
    event or unreachable, whatever is executed. *)
Lemma owns_preserved t s n :
  (∀ c w r w', registry_wf w ∧ owns t s w →
     exec code n c w = Some (r, w') → registry_wf w' ∧ owns t s w') ∧
  (∀ t0 s0 i d w r w', registry_wf w ∧ owns t s w →
     for_each code n t0 s0 i d w = Some (r, w') →
     registry_wf w' ∧ owns t s w').
Proof.
  assert (Hframe : ∀ w w' : World,
            listeners w' = listeners w → sets w' = sets w →
            registry_wf w ∧ owns t s w → registry_wf w' ∧ owns t s w').
  { intros w w' Hl Hs [Hwf Ho]. split; [by eapply registry_wf_frame|].
    unfold owns. by rewrite Hl, Hs. }
  edestruct (preservation code (λ w, registry_wf w ∧ owns t s w)
               (λ _, True) (λ _ _ _, True)) with (n := n) as (He & Hf & _).
  - intros. apply cmd_forall_True.
  - intros e w _. by apply Hframe.
  - intros k e w _. by apply Hframe.
  - intros f w _. by apply Hframe.
  - intros t' h w _ [Hwf Ho]. split; [by apply on_wf|by apply owns_on].
  - intros t' h w _ [Hwf Ho]. split; [by apply off_wf|by apply owns_off].
  - intros t' d w _. by apply Hframe.
  - intros t' s' i h d w HI _ _. revert HI. by apply Hframe.
  - done.
  - done.
  - done.
  - right. split_and!; intros w; intros; by apply (Hframe w).
  - right; right. split_and!.
    + intros w HI _. revert HI. by apply Hframe.
    + intros k w. by apply Hframe.
    + intros w _. apply Forall_forall. intros. apply cmd_forall_True.
  - split.
    + intros c w r w' HI H. eapply He; [apply cmd_forall_True|exact HI|exact H].
    + intros t0 s0 i d w r w' HI H. eapply Hf; [exact HI|done|exact H].
Qed.

Lemma registry_wf_preserved n c w r w' :
  registry_wf w → exec code n c w = Some (r, w') → registry_wf w'.
Proof.
  intros Hwf H.
  edestruct (preservation code registry_wf (λ _, True) (λ _ _ _, True))
    with (n := n) as (He & _ & _).
  - intros. apply cmd_forall_True.
  - intros e w0 _. by apply registry_wf_frame.
  - intros k e w0 _. by apply registry_wf_frame.
  - intros f w0 _. by apply registry_wf_frame.
  - intros t' h w0 _. by apply on_wf.
  - intros t' h w0 _. by apply off_wf.
  - intros t' d w0 _. by apply registry_wf_frame.
  - intros t' s' i h d w0 HI _ _. revert HI. by apply registry_wf_frame.
  - done.
  - done.
  - done.
  - right. split_and!; intros w0; intros; by apply (registry_wf_frame w0).
  - right; right. split_and!.
    + intros w0 HI _. revert HI. by apply registry_wf_frame.
    + intros k w0. by apply registry_wf_frame.
    + intros w0 _. apply Forall_forall. intros. apply cmd_forall_True.
  - eapply He; [apply cmd_forall_True|exact Hwf|exact H].
Qed.

Lemma unregistered_frame type h a (w w' : World) :
  listeners w' = listeners w → sets w' = sets w → _init w' = _init w →
  invocations type h (trace w') = invocations type h (trace w) →
  unregistered type h a w → unregistered type h a w'.
Proof.
  intros Hl Hs Hi Ht (Hwf & Hreg & Hinv & Hth). split_and!.
  - by eapply registry_wf_frame.
  - unfold registered, entries_of. by rewrite Hl, Hs.
  - congruence.
  - by rewrite Hi.
Qed.

Lemma unregistered_preserved type h a n :
  (∀ f v, cmd_forall (not_on type h) (code f v)) →
  ∀ c w r w', cmd_forall (not_on type h) c → unregistered type h a w →
    exec code n c w = Some (r, w') → unregistered type h a w'.
Proof.
  intros Hcode.
  edestruct (preservation code (unregistered type h a) (not_on type h) owns)
    with (n := n) as (He & _ & _); [..|exact He].
  - exact Hcode.
  - intros e w _. apply unregistered_frame; try done.
    by rewrite invocations_log, Nat.add_0_r.
  - intros k e w _. by apply unregistered_frame.
  - intros f w _. by apply unregistered_frame.
  - intros t' h' w Hne (Hwf & Hreg & Hinv & Hth). split_and!.
    + by apply on_wf.
    + destruct (decide (t' = type)) as [->|Hnet].
      * rewrite registered_on by done. case_decide; [done|].
        rewrite elem_of_app, list_elem_of_singleton.
        intros [? | ->]; [done|]. by apply Hne.
      * by rewrite registered_on_ne.
    + unfold on. by destruct (listeners w !! t').
    + unfold on. by destruct (listeners w !! t').
  - intros t' h' w _ (Hwf & Hreg & Hinv & Hth). split_and!.
    + by apply off_wf.
    + destruct (decide (t' = type)) as [->|Hnet].
      * rewrite registered_off by done. rewrite list_elem_of_filter. tauto.
      * by rewrite registered_off_ne.
    + unfold off. destruct (listeners w !! t'); [|done]. simpl.
      by case_bool_decide.
    + unfold off. destruct (listeners w !! t'); [|done]. simpl.
      by case_bool_decide.
  - intros t' d w _. apply unregistered_frame; try done.
    by rewrite invocations_log, Nat.add_0_r.
  - intros t' s i h' d w HI [Hlt Hown] Hentry. generalize HI.
    apply unregistered_frame; try done.
    rewrite invocations_log. simpl. case_bool_decide as E; [|lia].
    destruct E as [-> ->]. exfalso.
    destruct HI as ([Hv Hi Hn Ho] & Hreg & _).
    destruct (sets w !! s) as [es|] eqn:Hes; [|done]. simpl in Hentry.
    assert (h ∈ omap id es) as Hin.
    { apply list_elem_of_omap. exists (Some h). split; [|done].
      by eapply list_elem_of_lookup_2. }
    destruct Hown as [Hown|Hown].
    + apply Hreg. unfold registered, entries_of. rewrite Hown. simpl.
      by rewrite Hes.
    + rewrite (Ho _ _ Hes Hown) in Hin. by apply not_elem_of_nil in Hin.
  - intros t' s w (Hwf & _) Hs. split; [by eapply wf_valid|by left].
  - by intros t' s ev w.
  - intros t' s n' c w r w' _ (Hwf & _) Hown H.
    by destruct (proj1 (owns_preserved t' s n') c w r w' (conj Hwf Hown) H).
  - right. split_and!; intros w; intros; apply (unregistered_frame _ _ _ w);
      try done; by rewrite invocations_log, Nat.add_0_r.
  - right; right. split_and!.
    + intros w HI _. revert HI. by apply unregistered_frame.
    + intros k w. apply unregistered_frame; try done.
      by rewrite invocations_log, Nat.add_0_r.
    + by intros w (_ & _ & _ & Hth).
Qed.

End Emit.

(** ** init and the composed _init *)
Section Init.

Variable code : fid → value → cmd.

Lemma init_calls_log ev w :
  init_calls (trace (log ev w)) =
  init_calls (trace w) ++
  match ev with InitCalled k => [k] | _ => [] end.
Proof.
  unfold init_calls. simpl. rewrite omap_app. f_equal. by destruct ev.
Qed.

Lemma cleanup_calls_log ev w :
  cleanup_calls (trace (log ev w)) =
  cleanup_calls (trace w) ++
  match ev with CleanupCalled k => [k] | _ => [] end.
Proof.
  unfold cleanup_calls. simpl. rewrite omap_app. f_equal. by destruct ev.
Qed.

(** Once [initialized] is set it stays set and no init thunk is called. *)
Lemma initialized_preserved l n c w r w' :
  initialized w = true ∧ init_calls (trace w) = l →
  exec code n c w = Some (r, w') →
  initialized w' = true ∧ init_calls (trace w') = l.
Proof.
  intros HI H.
  edestruct (preservation code
               (λ w, initialized w = true ∧ init_calls (trace w) = l)
               (λ _, True) (λ _ _ _, True)) with (n := n) as (He & _ & _).
  - intros. apply cmd_forall_True.
  - intros e w0 _ [??]. by rewrite init_calls_log, app_nil_r.
  - by intros k e w0 _.
  - by intros f w0 _.
  - intros t h w0 _. unfold on. by destruct (listeners w0 !! t).
  - intros t h w0 _. unfold off. destruct (listeners w0 !! t); [|done].
    simpl. by case_bool_decide.
  - intros t d w0 _ [??]. by rewrite init_calls_log, app_nil_r.
  - intros t s i h d w0 [??] _ _. by rewrite init_calls_log, app_nil_r.
  - done.
  - done.
  - done.
  - right. split_and!; intros w0; intros [??]; intros;
      by rewrite ?init_calls_log, ?app_nil_r.
  - left. by intros w0 [??].
  - eapply He; [apply cmd_forall_True|exact HI|exact H].
Qed.

(** Code that never calls [init()] calls no init thunk. *)
Lemma init_free_preserved l n c w r w' :
  (∀ f v, cmd_forall init_free (code f v)) → cmd_forall init_free c →
  init_calls (trace w) = l →
  exec code n c w = Some (r, w') →
  init_calls (trace w') = l.
Proof.
  intros Hcode Hc HI H.
  edestruct (preservation code (λ w, init_calls (trace w) = l)
               init_free (λ _ _ _, True)) with (n := n) as (He & _ & _).
  - exact Hcode.
  - intros e w0 _ ?. by rewrite init_calls_log, app_nil_r.
  - by intros k e w0 _.
  - by intros f w0 _.
  - intros t h w0 _. unfold on. by destruct (listeners w0 !! t).
  - intros t h w0 _. unfold off. destruct (listeners w0 !! t); [|done].
    simpl. by case_bool_decide.
  - intros t d w0 _ ?. by rewrite init_calls_log, app_nil_r.
  - intros t s i h d w0 ? _ _. by rewrite init_calls_log, app_nil_r.
  - done.
  - done.
  - done.
  - right. split_and!; intros w0; intros;
      by rewrite ?init_calls_log, ?app_nil_r.
  - right; left. by intros [].
  - eapply He; [exact Hc|exact HI|exact H].
Qed.

(** No callback code calls a cleanup: only the teardown does. *)
Lemma cleanup_calls_preserved l n c w r w' :
  cleanup_calls (trace w) = l →
  exec code n c w = Some (r, w') →
  cleanup_calls (trace w') = l.
Proof.
  intros HI H.
  edestruct (preservation code (λ w, cleanup_calls (trace w) = l)
               (λ _, True) (λ _ _ _, True)) with (n := n) as (He & _ & _).
  - intros. apply cmd_forall_True.
  - intros e w0 _ ?. by rewrite cleanup_calls_log, app_nil_r.
  - by intros k e w0 _.
  - by intros f w0 _.
  - intros t h w0 _. unfold on. by destruct (listeners w0 !! t).
  - intros t h w0 _. unfold off. destruct (listeners w0 !! t); [|done].
    simpl. by case_bool_decide.
  - intros t d w0 _ ?. by rewrite cleanup_calls_log, app_nil_r.
  - intros t s i h d w0 ? _ _. by rewrite cleanup_calls_log, app_nil_r.
  - done.
  - done.
  - done.
  - right. split_and!; intros w0; intros;
      by rewrite ?cleanup_calls_log, ?app_nil_r.
  - right; right. split_and!.
    + by intros w0.
    + intros k w0 ?. by rewrite cleanup_calls_log, app_nil_r.
    + intros w0 _. apply Forall_forall. intros. apply cmd_forall_True.
  - eapply He; [apply cmd_forall_True|exact HI|exact H].
Qed.

(** The thunks are called in the order of [inits], each once, as long
    as their bodies call none; [J] is what the bodies preserve. *)
Lemma run_inits_calls (J : World → Prop) (Q : init_thunk → Prop) :
  (∀ ev w, J w → J (log ev w)) →
  (∀ l n t w r w',
     Q t → J w → init_calls (trace w) = l →
     exec code n (init_body t) w = Some (r, w') →
     J w' ∧ init_calls (trace w') = l) →
  ∀ ts n k w w',
    Forall Q ts → J w → run_inits code n ts k w = Some (Normal, w') →
    J w' ∧
    init_calls (trace w') = init_calls (trace w) ++ seq k (length ts).
Proof.
  intros Jlog Hbody ts.
  induction ts as [|t ts IH]; intros [|n] k w w' HQ HJ H; simpl in H;
    try done.
  - injection H as <-. by rewrite app_nil_r.
  - apply Forall_cons in HQ as [Ht HQ].
    inv_bind H as w1 E1 H; [|done].
    destruct (Hbody _ _ _ _ _ _ Ht (Jlog (InitCalled k) w HJ) eq_refl E1)
      as [HJ1 Hc1].
    destruct (IH _ _ _ _ HQ HJ1 H) as [HJ' Hc'].
    split; [done|]. rewrite Hc', Hc1, init_calls_log. simpl.
    by rewrite <- app_assoc.
Qed.

(** The teardown calls the cleanups it holds from first to last. *)
Lemma run_cleanups_calls cleanups : ∀ n w w',
  run_cleanups code n cleanups w = Some (Normal, w') →
  cleanup_calls (trace w') = cleanup_calls (trace w) ++ cleanups.*1.
Proof.
  induction cleanups as [|[k c] cleanups IH]; intros n w w' H; simpl in H.
  - injection H as <-. by rewrite app_nil_r.
  - inv_bind H as w1 E1 H; [|done].
    rewrite (IH _ _ _ H).
    rewrite (cleanup_calls_preserved _ _ _ _ _ _ eq_refl E1).
    rewrite cleanup_calls_log. simpl. by rewrite <- app_assoc.
Qed.

Lemma cleanups_of_indices inits :
  (cleanups_of (InitComposed inits)).*1 = reverse (seq 0 (length inits)).
Proof.
  simpl. rewrite fmap_reverse. f_equal. rewrite fmap_imap.
  rewrite (imap_ext _ (λ k _, id k)) by done.
  by rewrite imap_seq_0, list_fmap_id.
Qed.

(** Straight-line code returns, with its depth as fuel. *)
Lemma writes_only_return c :
  writes_only c → ∀ w, ∃ w', exec code (depth c) c w = Some (Normal, w').
Proof.
  induction c; simpl; try done; try (intros _ w; by eexists).
  - intros [H1 H2] w.
    destruct (IHc1 H1 w) as (w1 & E1). destruct (IHc2 H2 w1) as (w2 & E2).
    exists w2.
    rewrite (proj1 (fuel_mono code _) _ _ _ E1 _ (Nat.le_max_l _ _)). simpl.
    apply (proj1 (fuel_mono code _) _ _ _ E2 _ (Nat.le_max_r _ _)).
  - intros [H1 H2] w. destruct (b (objs w) (state w)).
    + destruct (IHc1 H1 w) as (w1 & E1). exists w1.
      apply (proj1 (fuel_mono code _) _ _ _ E1 _ (Nat.le_max_l _ _)).
    + destruct (IHc2 H2 w) as (w1 & E1). exists w1.
      apply (proj1 (fuel_mono code _) _ _ _ E1 _ (Nat.le_max_r _ _)).
Qed.

Lemma run_inits_return ts m : ∀ k w,
  Forall (λ t, writes_only (init_body t) ∧ depth (init_body t) ≤ m) ts →
  ∃ w', run_inits code (S (length ts + m)) ts k w = Some (Normal, w').
Proof.
  induction ts as [|t ts IH]; intros k w Hts; [by eexists|].
  apply Forall_cons in Hts as [[Hw Hd] Hts].
  destruct (writes_only_return _ Hw (log (InitCalled k) w)) as (w1 & E1).
  destruct (IH (S k) w1 Hts) as (w' & E').
  exists w'.
  change (run_inits code (S (length (t :: ts) + m)) (t :: ts) k w) with
    (let* w :=
       exec code (S (length ts + m)) (init_body t) (log (InitCalled k) w) in
     run_inits code (S (length ts + m)) ts (S k) w).
  rewrite (proj1 (fuel_mono code _) _ _ _ E1 (S (length ts + m)))
    by lia.
  exact E'.
Qed.

Lemma run_cleanups_return cleanups m : ∀ w,
  Forall (λ kc : nat * cmd, writes_only kc.2 ∧ depth kc.2 ≤ m) cleanups →
  ∃ w', run_cleanups code m cleanups w = Some (Normal, w').
Proof.
  induction cleanups as [|[k c] cleanups IH]; intros w Hcs; [by eexists|].
  apply Forall_cons in Hcs as [[Hw Hd] Hcs]. simpl in *.
  destruct (writes_only_return _ Hw (log (CleanupCalled k) w)) as (w1 & E1).
  destruct (IH w1 Hcs) as (w' & E').
  exists w'. rewrite (proj1 (fuel_mono code _) _ _ _ E1 m) by done.
  exact E'.
Qed.

Lemma thunks_fuel_bound ts t :
  t ∈ ts →
  depth (init_body t) ≤ thunks_fuel ts - S (length ts) ∧
  depth (init_cleanup t) ≤ thunks_fuel ts.
Proof.
  unfold thunks_fuel. induction ts as [|t' ts IH]; intros Hin.
  - by apply not_elem_of_nil in Hin.
  - simpl in *. apply elem_of_cons in Hin as [->|Hin]; [lia|].
    specialize (IH Hin). lia.
Qed.

(** With plain thunks, [_init()] returns and so does the teardown. *)
Lemma plain_thunks_return ts w :
  _init w = InitComposed ts → Forall plain_thunk ts →
  ∃ w1, call__init_teardown code (thunks_fuel ts) w
          = Some (Normal, w1, cleanups_of (InitComposed ts)) ∧
    ∃ w2, run_cleanups code (thunks_fuel ts) (cleanups_of (InitComposed ts)) w1
          = Some (Normal, w2).
Proof.
  intros Hinit Hplain.
  destruct (run_inits_return ts (thunks_fuel ts - S (length ts)) 0 w)
    as (w1 & E1).
  { apply Forall_forall. intros t Hin. split.
    - by destruct (proj1 (Forall_forall _ _) Hplain t Hin).
    - by apply thunks_fuel_bound. }
  assert (S (length ts + (thunks_fuel ts - S (length ts))) = thunks_fuel ts)
    as Hfuel by (unfold thunks_fuel; lia).
  rewrite Hfuel in E1.
  exists w1. split.
  - unfold call__init_teardown, call__init, call__init_with.
    by rewrite Hinit, E1.
  - apply run_cleanups_return. simpl. apply Forall_forall.
    intros [k c] Hin. apply elem_of_reverse, elem_of_lookup_imap in Hin
      as (i & t & [= -> ->] & Hi).
    apply list_elem_of_lookup_2 in Hi. simpl. split.
    + by destruct (proj1 (Forall_forall _ _) Hplain t Hi).
    + by apply thunks_fuel_bound.
Qed.

Lemma plain_thunks_init_returns w :
  Forall plain_thunk (inits_of (_init w)) →
  ∃ w', init code (thunks_fuel (inits_of (_init w))) w = Some (Normal, w').
Proof.
  intros Hplain. unfold init, init_with, call__init_with.
  destruct (initialized w); [by eexists|]. simpl.
  destruct (_init w) as [|ts] eqn:Hinit; [by eexists|]. simpl in *.
  destruct (run_inits_return ts (thunks_fuel ts - S (length ts)) 0
              (set_initialized true w)) as (w1 & E1).
  { apply Forall_forall. intros t Hin. split.
    - by destruct (proj1 (Forall_forall _ _) Hplain t Hin).
    - by apply thunks_fuel_bound. }
  assert (S (length ts + (thunks_fuel ts - S (length ts))) = thunks_fuel ts)
    as Hfuel by (unfold thunks_fuel; lia).
  rewrite Hfuel in E1. by exists w1.
Qed.

(** [init()] on an instance that is not initialized sets the flag and
    calls each collected thunk once, in order. *)
Lemma init_first n w w' :
  initialized w = false →
  init code n w = Some (Normal, w') →
  initialized w' = true ∧
  init_calls (trace w') =
    init_calls (trace w) ++ seq 0 (length (inits_of (_init w))).
Proof.
  intros Hw H. unfold init, init_with, call__init_with in H.
  rewrite Hw in H. simpl in H. destruct (_init w) as [|ts]; simpl.
  - injection H as <-. by rewrite app_nil_r.
  - eapply (run_inits_calls (λ w, initialized w = true) (λ _, True))
      in H; [exact H|done| | |done].
    + intros l m t w0 r w1 _ Hi Hl Hex.
      by eapply initialized_preserved.
    + apply Forall_forall. done.
Qed.

(** [init()] on an initialized instance does nothing. *)
Lemma init_again n w :
  initialized w = true → init code n w = Some (Normal, w).
Proof. intros Hw. unfold init, init_with. by rewrite Hw. Qed.

Lemma init_times_again n k w :
  initialized w = true → init_times code n k w = Some (Normal, w).
Proof.
  intros Hw. induction k as [|k IH]; simpl; [done|].
  by rewrite init_again.
Qed.

End Init.

(** ** create *)
Section Create.

Lemma create_loop_spec plugins : ∀ instance inits o_state o_api,
  state instance ≠ api instance →
  objs instance !! state instance = Some o_state →
  objs instance !! api instance = Some o_api →
  let rs := contributions plugins instance in
  ∃ os,
    create_loop plugins instance inits
      = (set_objs os instance, inits ++ (p_init <$> rs)) ∧
    length os = length (objs instance) ∧
    os !! state instance
    = Some (foldl assign o_state (props ∘ p_state <$> rs)) ∧
    os !! api instance = Some (foldl assign o_api (props ∘ p_api <$> rs)).
Proof.
  induction plugins as [|plugin plugins IH];
    intros instance inits o_state o_api Hne Hs Ha; simpl.
  - exists (objs instance). rewrite app_nil_r. split_and!; try done.
    f_equal. symmetry. apply world_eta.
  - set (r := plugin instance).
    set (w1 := object_assign (api _) (p_api r)
                 (object_assign (state instance) (p_state r) instance)).
    destruct (IH w1 (inits ++ [p_init r])
                (assign o_state (p_state r)) (assign o_api (p_api r)))
      as (os & Hloop & Hlen & Hos & Hoa).
    + done.
    + subst w1. unfold object_assign. simpl.
      rewrite list_lookup_alter_ne by done.
      by rewrite list_lookup_alter_eq, Hs.
    + subst w1. unfold object_assign. simpl.
      rewrite list_lookup_alter_eq, list_lookup_alter_ne by done.
      by rewrite Ha.
    + exists os. split_and!.
      * rewrite Hloop. f_equal. by rewrite <- app_assoc.
      * rewrite Hlen. subst w1. unfold object_assign. simpl.
        by rewrite !length_alter.
      * exact Hos.
      * exact Hoa.
Qed.

(** The instance that [create] composes. *)
Lemma compose_spec plugins :
  let w := compose plugins in
  let rs := contributions plugins new_NodeFlow in
  objs w !! state w = Some (shallow_merge (props ∘ p_state <$> rs)) ∧
  objs w !! api w = Some (shallow_merge (props ∘ p_api <$> rs)) ∧
  _init w = InitComposed (p_init <$> rs) ∧
  initialized w = false ∧ changing w = false ∧
  listeners w = ∅ ∧ sets w = [] ∧ trace w = [] ∧
  length rs = length plugins.
Proof.
  simpl. unfold compose.
  destruct (create_loop_spec plugins new_NodeFlow [] ∅ ∅)
    as (os & Hloop & Hlen & Hos & Hoa); [done..|].
  rewrite Hloop. simpl. split_and!; try done.
  clear. generalize new_NodeFlow.
  induction plugins as [|p ps IH]; intros w; simpl; [done|].
  by rewrite IH.
Qed.

Lemma compose_wf plugins : registry_wf (compose plugins).
Proof.
  destruct (compose_spec plugins) as (_ & _ & _ & _ & _ & Hl & Hs & _).
  split; unfold registered, entries_of; rewrite ?Hl, ?Hs.
  - intros t s. by rewrite lookup_empty.
  - intros t1 t2 s. by rewrite lookup_empty.
  - intros t [s Hsome]. by rewrite lookup_empty in Hsome.
  - intros s es. by rewrite lookup_nil.
Qed.

End Create.

End AppFacts.

(** ** What a run calls *)

Module AppRuns.
Import App AppFacts.

Lemma calls_log ev w :
  calls (trace (log ev w)) = calls (trace w) ++ (if is_call ev then [ev] else []).
Proof.
  unfold calls. simpl. rewrite filter_app. f_equal.
  rewrite filter_cons, filter_nil. destruct (is_call ev); by case_decide.
Qed.

Lemma emissions_log ev w :
  emissions (trace (log ev w))
  = emissions (trace w) ++ (if is_emission ev then [ev] else []).
Proof.
  unfold emissions. simpl. rewrite filter_app. f_equal.
  rewrite filter_cons, filter_nil. destruct (is_emission ev); by case_decide.
Qed.

Lemma invocations_of_calls type h tr :
  invocations type h (calls tr) = invocations type h tr.
Proof.
  unfold invocations, calls. induction tr as [|e tr IH]; [done|].
  rewrite (filter_cons (λ e, is_call e = true)).
  destruct (decide (is_call e = true)) as [Hc|Hc].
  - rewrite !filter_cons. case_decide; simpl; by rewrite IH.
  - rewrite filter_cons. case_decide as Hi; [|done].
    destruct e; simpl in *; done.
Qed.

Lemma invocations_app type h tr1 tr2 :
  invocations type h (tr1 ++ tr2)
  = invocations type h tr1 + invocations type h tr2.
Proof. unfold invocations. by rewrite filter_app, length_app. Qed.

Lemma invocations_invoked type h d (hs : list fid) :
  invocations type h ((λ x, Invoked type x d) <$> hs)
  = length (filter (λ x, x = h) hs).
Proof.
  unfold invocations. induction hs as [|x hs IH]; [done|].
  rewrite fmap_cons, !filter_cons. simpl.
  destruct (decide (x = h)) as [->|Hne].
  - rewrite decide_True; [simpl; by rewrite IH|]. by apply bool_decide_eq_true.
  - rewrite decide_False; [done|].
    intros [_ ?]%bool_decide_eq_true. done.
Qed.

Lemma bus_kept_refl w : bus_kept w w.
Proof. by repeat split. Qed.

Lemma bus_kept_trans w1 w2 w3 : bus_kept w1 w2 → bus_kept w2 w3 → bus_kept w1 w3.
Proof.
  intros (?&?&?&?&?&?&?) (?&?&?&?&?&?&?). repeat split; congruence.
Qed.

Lemma bus_kept_log_invoked t h d w w' :
  bus_kept (log (Invoked t h d) w) w' →
  listeners w' = listeners w ∧ sets w' = sets w ∧
  calls (trace w') = calls (trace w) ++ [Invoked t h d] ∧
  emissions (trace w') = emissions (trace w) ∧
  changing w' = changing w.
Proof.
  intros (L & S & C & E & Ch & _). split_and!; try done.
  - by rewrite C, calls_log.
  - by rewrite E, emissions_log, app_nil_r.
Qed.

Lemma writes_only_quiet c : writes_only c → quiet c.
Proof. induction c; simpl; tauto. Qed.

Section Runs.

Variable code : fid → value → cmd.

(** Quiet code leaves the registry, the flags and the calls observed as
    they are. *)
Lemma quiet_exec :
  (∀ f v, quiet (code f v)) →
  ∀ n c w r w', quiet c → exec code n c w = Some (r, w') → bus_kept w w'.
Proof.
  intros Hcode. induction n as [|n IH]; [done|].
  intros c w r w' Hc H.
  destruct c as [|c1 c2|b c1 c2|e|c handler|e|k e|f|cb|t e|t h|t h| |nm arg];
    simpl in *; try done.
  - injection H as _ <-. apply bus_kept_refl.
  - destruct Hc as [Hc1 Hc2]. inv_bind H as w1 H1 H2.
    + eapply bus_kept_trans; [exact (IH _ _ _ _ Hc1 H1)|exact (IH _ _ _ _ Hc2 H2)].
    + injection H2 as _ <-. exact (IH _ _ _ _ Hc1 H1).
  - destruct Hc as [Hc1 Hc2].
    destruct (b _ _); [exact (IH _ _ _ _ Hc1 H)|exact (IH _ _ _ _ Hc2 H)].
  - injection H as _ <-. apply bus_kept_refl.
  - destruct Hc as [Hc1 Hc2].
    destruct (exec code n c w) as [[[|e] w1]|] eqn:E; [| |done].
    + injection H as _ <-. exact (IH _ _ _ _ Hc1 E).
    + eapply bus_kept_trans; [exact (IH _ _ _ _ Hc1 E)|exact (IH _ _ _ _ (Hc2 _) H)].
  - injection H as _ <-. unfold bus_kept.
    split_and!; [done|done| | |done..].
    + by rewrite calls_log, app_nil_r.
    + by rewrite emissions_log, app_nil_r.
  - injection H as _ <-. by repeat split.
  - injection H as _ <-. by repeat split.
  - destruct (objs w !! api w ≫= _) as [[]|];
      try (injection H as _ <-; apply bus_kept_refl).
    exact (IH _ _ _ _ (Hcode _ _) H).
Qed.

(** State writes and nested [change] calls, made while a change is in
    progress, return and leave the bus alone. *)
Lemma nested_mutations_kept n : ∀ c w r w',
  nested_mutations c → changing w = true →
  exec code n c w = Some (r, w') → r = Normal ∧ bus_kept w w'.
Proof.
  induction n as [|n IH]; [done|].
  intros c w r w' Hc Hw H.
  destruct c as [|c1 c2|b c1 c2|e|c handler|e|k e|f|cb|t e|t h|t h| |nm arg];
    simpl in *; try done.
  - injection H as <- <-. split; [done|apply bus_kept_refl].
  - destruct Hc as [Hc1 Hc2]. inv_bind H as w1 H1 H2.
    + destruct (IH _ _ _ _ Hc1 Hw H1) as [_ K1].
      assert (Hw1 : changing w1 = true).
      { destruct K1 as (_ & _ & _ & _ & -> & _). exact Hw. }
      destruct (IH _ _ _ _ Hc2 Hw1 H2) as [-> K2].
      split; [done|by eapply bus_kept_trans].
    + by destruct (IH _ _ _ _ Hc1 Hw H1).
  - destruct Hc as [Hc1 Hc2].
    destruct (b _ _); [exact (IH _ _ _ _ Hc1 Hw H)|exact (IH _ _ _ _ Hc2 Hw H)].
  - injection H as <- <-. split; [done|]. unfold bus_kept.
    split_and!; [done|done| | |done..].
    + by rewrite calls_log, app_nil_r.
    + by rewrite emissions_log, app_nil_r.
  - injection H as <- <-. split; [done|by repeat split].
  - injection H as <- <-. split; [done|by repeat split].
  - unfold change_with in H. rewrite Hw in H. exact (IH _ _ _ _ Hc Hw H).
Qed.

(** Straight-line code returns and leaves the bus alone. *)
Lemma writes_only_kept n : ∀ c w r w',
  writes_only c → exec code n c w = Some (r, w') → r = Normal ∧ bus_kept w w'.
Proof.
  induction n as [|n IH]; [done|].
  intros c w r w' Hc H.
  destruct c as [|c1 c2|b c1 c2|e|c handler|e|k e|f|cb|t e|t h|t h| |nm arg];
    simpl in *; try done.
  - injection H as <- <-. split; [done|apply bus_kept_refl].
  - destruct Hc as [Hc1 Hc2]. inv_bind H as w1 H1 H2.
    + destruct (IH _ _ _ _ Hc1 H1) as [_ K1].
      destruct (IH _ _ _ _ Hc2 H2) as [-> K2].
      split; [done|by eapply bus_kept_trans].
    + by destruct (IH _ _ _ _ Hc1 H1).
  - destruct Hc as [Hc1 Hc2].
    destruct (b _ _); [exact (IH _ _ _ _ Hc1 H)|exact (IH _ _ _ _ Hc2 H)].
  - injection H as <- <-. split; [done|]. unfold bus_kept.
    split_and!; [done|done| | |done..].
    + by rewrite calls_log, app_nil_r.
    + by rewrite emissions_log, app_nil_r.
  - injection H as <- <-. split; [done|by repeat split].
  - injection H as <- <-. split; [done|by repeat split].
Qed.

(** The [forEach] of [emit], quiet listeners: the calls made are those
    of the listeners the set holds from entry [i] on, in order, up to
    the first one that throws, whose exception and state the [forEach]
    leaves. *)
Lemma quiet_for_each :
  (∀ f v, quiet (code f v)) →
  ∀ n t s i d w r w' entries,
    sets w !! s = Some entries →
    for_each code n t s i d w = Some (r, w') →
    ∃ visited rest,
      omap id (drop i entries) = visited ++ rest ∧
      calls (trace w')
      = calls (trace w) ++ ((λ h, Invoked t h d) <$> visited) ∧
      (r = Normal → rest = []) ∧
      (∀ e, r = Thrown e →
         ∃ pre l w1 m,
           visited = pre ++ [l] ∧
           calls (trace w1)
           = calls (trace w) ++ ((λ h, Invoked t h d) <$> pre) ∧
           exec code m (code l d) (log (Invoked t l d) w1)
           = Some (Thrown e, w')) ∧
      listeners w' = listeners w ∧ sets w' = sets w ∧
      changing w' = changing w ∧
      emissions (trace w') = emissions (trace w).
Proof.
  intros Hcode. induction n as [|n IH]; [done|].
  intros t s i d w r w' entries Hs H. simpl in H. rewrite Hs in H. simpl in H.
  destruct (entries !! i) as [[h|]|] eqn:Hi.
  - rewrite (drop_S _ _ _ Hi).
    set (w0 := log (Invoked t h d) w) in H.
    inv_bind H as w1 H1 H2.
    + destruct (bus_kept_log_invoked _ _ _ _ _
                  (quiet_exec Hcode _ _ _ _ _ (Hcode h d) H1))
        as (L1 & S1 & C1 & E1 & Ch1).
      assert (Hs1 : sets w1 !! s = Some entries) by (by rewrite S1).
      destruct (IH _ _ _ _ _ _ _ _ Hs1 H2)
        as (visited & rest & Hv & Hc & Hr & Ht & L2 & S2 & Ch2 & E2).
      exists (h :: visited), rest. split_and!.
      * rewrite <- app_comm_cons, <- Hv. reflexivity.
      * rewrite Hc, C1. simpl. by rewrite <- app_assoc.
      * done.
      * intros e He. destruct (Ht e He) as (pre & l & w2 & m & -> & Hc2 & Hl).
        exists (h :: pre), l, w2, m. split_and!; [done| |done].
        rewrite Hc2, C1. simpl. by rewrite <- app_assoc.
      * by rewrite L2, L1.
      * by rewrite S2, S1.
      * by rewrite Ch2, Ch1.
      * by rewrite E2, E1.
    + injection H2 as -> <-.
      destruct (bus_kept_log_invoked _ _ _ _ _
                  (quiet_exec Hcode _ _ _ _ _ (Hcode h d) H1))
        as (L1 & S1 & C1 & E1 & Ch1).
      exists [h], (omap id (drop (S i) entries)). split_and!; try done.
      intros e' [= <-]. exists [], h, w, n. split_and!; [done| |done].
      by rewrite app_nil_r.
  - rewrite (drop_S _ _ _ Hi).
    exact (IH _ _ _ _ _ _ _ _ Hs H).
  - injection H as <- <-. apply lookup_ge_None_1 in Hi.
    rewrite drop_ge by done. exists [], [].
    split_and!; try done. by rewrite app_nil_r.
Qed.

Lemma quiet_emit o type d w n r w' :
  (∀ f v, quiet (code f v)) →
  emit code n o type d w = Some (r, w') →
  ∃ visited rest,
    registered type w = visited ++ rest ∧
    calls (trace w')
    = calls (trace w) ++ ((λ h, Invoked type h d) <$> visited) ∧
    (r = Normal → rest = []) ∧
    (∀ e, r = Thrown e →
       ∃ pre l w1 m,
         visited = pre ++ [l] ∧
         calls (trace w1)
         = calls (trace w) ++ ((λ h, Invoked type h d) <$> pre) ∧
         exec code m (code l d) (log (Invoked type l d) w1)
         = Some (Thrown e, w')) ∧
    listeners w' = listeners w ∧ sets w' = sets w ∧
    changing w' = changing w ∧
    emissions (trace w') = emissions (trace w) ++ [Fired o type d].
Proof.
  intros Hcode H. unfold emit, emit_with in H.
  unfold registered, entries_of. simpl in H.
  destruct (listeners w !! type) as [s|] eqn:Hl; simpl.
  - destruct (sets w !! s) as [entries|] eqn:Hs; simpl.
    + destruct (quiet_for_each Hcode n type s 0 d
                  (log (Fired o type d) w) r w' entries Hs H)
        as (visited & rest & Hv & Hc & Hr & Ht & L & S & Ch & E).
      exists visited, rest. rewrite drop_0 in Hv. split_and!; try done.
      * by rewrite Hc, calls_log, app_nil_r.
      * intros e He. destruct (Ht e He) as (pre & l & w1 & m & -> & Hc1 & Hl1).
        exists pre, l, w1, m. split_and!; [done| |done].
        by rewrite Hc1, calls_log, app_nil_r.
      * by rewrite E, emissions_log.
    + destruct n as [|n]; [done|]. simpl in H. rewrite Hs in H. simpl in H.
      injection H as <- <-. exists [], []. split_and!; try done.
      * by rewrite calls_log, !app_nil_r.
      * by rewrite emissions_log.
  - injection H as <- <-. exists [], []. split_and!; try done.
    + by rewrite calls_log, !app_nil_r.
    + by rewrite emissions_log.
Qed.

(** A [forEach] that throws, whatever the listeners do: the exception
    and the state it leaves are those of a listener it called. *)
Lemma for_each_thrown n : ∀ t s i d w e w',
  for_each code n t s i d w = Some (Thrown e, w') →
  ∃ j h w1 m,
    i ≤ j ∧ sets w1 !! s ≫= (.!! j) = Some (Some h) ∧
    exec code m (code h d) (log (Invoked t h d) w1) = Some (Thrown e, w').
Proof.
  induction n as [|n IH]; [done|]. intros t s i d w e w' H. simpl in H.
  destruct (sets w !! s ≫= (.!! i)) as [[h|]|] eqn:Hi; [| |done].
  - inv_bind H as w1 H1 H2.
    + destruct (IH _ _ _ _ _ _ _ H2) as (j & h' & w2 & m & Hj & Hh & Hl).
      exists j, h', w2, m. split_and!; [lia|done..].
    + injection H2 as -> <-. exists i, h, w, n. by split_and!.
  - destruct (IH _ _ _ _ _ _ _ H) as (j & h' & w2 & m & Hj & Hh & Hl).
    exists j, h', w2, m. split_and!; [lia|done..].
Qed.

Lemma emit_thrown n o t d w e w' :
  emit code n o t d w = Some (Thrown e, w') →
  ∃ s j h w1 m,
    listeners w !! t = Some s ∧
    sets w1 !! s ≫= (.!! j) = Some (Some h) ∧
    exec code m (code h d) (log (Invoked t h d) w1) = Some (Thrown e, w').
Proof.
  unfold emit, emit_with. simpl.
  destruct (listeners w !! t) as [s|] eqn:Hs; [|done].
  intros H. destruct (for_each_thrown _ _ _ _ _ _ _ _ H)
    as (j & h & w1 & m & _ & Hh & Hl).
  by exists s, j, h, w1, m.
Qed.

(** The [forEach] over straight-line listeners returns and leaves the
    registry and the flag as they are. *)
Lemma plain_for_each t s d m entries :
  Forall (λ h, writes_only (code h d) ∧ depth (code h d) ≤ m)
    (omap id entries) →
  ∀ k i w,
    sets w !! s = Some entries →
    length entries ≤ i + k →
    ∃ w', for_each code (S (k + m)) t s i d w = Some (Normal, w') ∧
          listeners w' = listeners w ∧ sets w' = sets w ∧
          changing w' = changing w.
Proof.
  intros Hm. induction k as [|k IH]; intros i w Hs Hlen.
  - simpl. rewrite Hs. simpl.
    rewrite (lookup_ge_None_2 entries i) by lia. by eexists.
  - change (for_each code (S (S k + m)) t s i d w) with
      (match sets w !! s ≫= (.!! i) with
       | None => Some (Normal, w)
       | Some None => for_each code (S (k + m)) t s (S i) d w
       | Some (Some listener) =>
           let* w :=
             exec code (S (k + m)) (code listener d)
               (log (Invoked t listener d) w) in
           for_each code (S (k + m)) t s (S i) d w
       end).
    rewrite Hs. cbn [mbind option_bind].
    destruct (entries !! i) as [[h|]|] eqn:E.
    + assert (Hh : writes_only (code h d) ∧ depth (code h d) ≤ m).
      { eapply (proj1 (Forall_forall _ _) Hm).
        apply list_elem_of_omap. exists (Some h). split; [|done].
        by eapply list_elem_of_lookup_2. }
      destruct Hh as [Hw Hd].
      destruct (writes_only_return code _ Hw (log (Invoked t h d) w))
        as [w1 E1].
      pose proof (proj1 (fuel_mono code _) _ _ _ E1 (S (k + m))
                    ltac:(lia)) as E1'.
      rewrite E1'. cbn [bind].
      destruct (writes_only_kept _ _ _ _ _ Hw E1')
        as (_ & L1 & S1 & _ & _ & Ch1 & _).
      destruct (IH (S i) w1) as (w' & E' & L' & S' & Ch'); [by rewrite S1|lia|].
      exists w'. split_and!; [done|..].
      * by rewrite L', L1.
      * by rewrite S', S1.
      * by rewrite Ch', Ch1.
    + apply IH; [done|lia].
    + by eexists.
Qed.

Lemma plain_emit o type d m w :
  Forall (λ h, writes_only (code h d) ∧ depth (code h d) ≤ m)
    (registered type w) →
  ∃ w', emit code (S (length (entries_of type w) + m)) o type d w
        = Some (Normal, w') ∧
        listeners w' = listeners w ∧ sets w' = sets w ∧
        changing w' = changing w.
Proof.
  intros Hm. unfold emit, emit_with.
  change (listeners (log (Fired o type d) w)) with (listeners w).
  unfold registered, entries_of in *.
  destruct (listeners w !! type) as [s|]; [|by eexists].
  cbn [mbind option_bind] in *.
  destruct (sets w !! s) as [entries|] eqn:Hs; cbn [default] in *.
  - apply (plain_for_each type s d m entries Hm
             (length entries) 0 (log (Fired o type d) w)); [done|lia].
  - cbn [for_each]. change (sets (log (Fired o type d) w)) with (sets w).
    rewrite Hs. by eexists.
Qed.

(** ** The course of a change *)

(** An outermost [change(fn)] that returns: [beforeChange] is emitted
    with the flag set, then [fn] runs with the flag set, then [change]
    is emitted, then the flag is released; nothing else is fired on
    behalf of [change] in between. *)
Lemma change_course fn w n w' :
  changing w = false →
  change code n fn w = Some (Normal, w') →
  ∃ w1 w2 w3,
    emit code n ByChange "beforeChange" (VRef (state w)) (set_changing true w)
      = Some (Normal, w1) ∧
    changing w1 = true ∧
    exec code n fn w1 = Some (Normal, w2) ∧
    changing w2 = true ∧
    by_change (trace w2) = by_change (trace w1) ∧
    emit code n ByChange "change" (VRef (state w2)) w2 = Some (Normal, w3) ∧
    w' = set_changing false w3 ∧
    by_change (trace w') =
      by_change (trace w) ++
      [Fired ByChange "beforeChange" (VRef (state w));
       Fired ByChange "change" (VRef (state w2))].
Proof.
  intros Hw H.
  destruct (change_events code fn w n w' Hw H)
    as (w1 & w2 & w3 & E1 & E2 & E3 & -> & Hev).
  exists w1, w2, w3.
  pose proof (emit_by_change code n "beforeChange" (set_changing true w)
                _ _ eq_refl E1) as [C1 B1].
  pose proof (proj1 (in_change_preserved code _ n) _ _ _ _
                (conj C1 eq_refl) E2) as [C2 B2].
  by split_and!.
Qed.

(** An outermost [change(fn)] that returns, with quiet listeners and a
    callback made of state writes and nested [change] calls: the
    listeners of [beforeChange] are called, in order, then [fn] runs
    while the flag is set, without any listener being called, then the
    listeners of [change] are called, in order. *)
Lemma change_calls fn w n w' :
  (∀ f v, quiet (code f v)) →
  nested_mutations fn →
  changing w = false →
  change code n fn w = Some (Normal, w') →
  ∃ w1 w2,
    exec code n fn w1 = Some (Normal, w2) ∧
    changing w1 = true ∧ changing w2 = true ∧
    calls (trace w1)
    = calls (trace w)
      ++ ((λ h, Invoked "beforeChange" h (VRef (state w)))
            <$> registered "beforeChange" w) ∧
    calls (trace w2) = calls (trace w1) ∧
    calls (trace w')
    = calls (trace w2)
      ++ ((λ h, Invoked "change" h (VRef (state w2)))
            <$> registered "change" w) ∧
    emissions (trace w')
    = emissions (trace w)
      ++ [Fired ByChange "beforeChange" (VRef (state w));
          Fired ByChange "change" (VRef (state w2))] ∧
    listeners w' = listeners w ∧ sets w' = sets w.
Proof.
  intros Hcode Hfn Hw H.
  destruct (change_events code fn w n w' Hw H)
    as (w1 & w2 & w3 & E1 & E2 & E3 & -> & _).
  destruct (quiet_emit _ _ _ _ _ _ _ Hcode E1)
    as (v1 & r1 & Hv1 & C1 & Hr1 & _ & L1 & S1 & Ch1 & Em1).
  rewrite (Hr1 eq_refl), app_nil_r in Hv1. subst v1.
  destruct (nested_mutations_kept _ _ _ _ _ Hfn Ch1 E2)
    as (_ & L2 & S2 & C2 & Em2 & Ch2 & _).
  destruct (quiet_emit _ _ _ _ _ _ _ Hcode E3)
    as (v3 & r3 & Hv3 & C3 & Hr3 & _ & L3 & S3 & Ch3 & Em3).
  rewrite (Hr3 eq_refl), app_nil_r in Hv3. subst v3.
  assert (Hreg : registered "change" w2 = registered "change" w).
  { unfold registered, entries_of. rewrite L2, S2, L1, S1. done. }
  exists w1, w2. split_and!.
  - exact E2.
  - exact Ch1.
  - by rewrite Ch2, Ch1.
  - exact C1.
  - exact C2.
  - simpl. by rewrite C3, Hreg.
  - simpl. rewrite Em3, Em2, Em1. simpl. by rewrite <- app_assoc.
  - simpl. by rewrite L3, L2, L1.
  - simpl. by rewrite S3, S2, S1.
Qed.

(** With straight-line listeners, such a [change] does return. *)
Lemma change_returns m fn w :
  plain_listeners code m w →
  nested_mutations fn →
  changing w = false →
  ∃ w', change code (change_fuel m fn w) fn w = Some (Normal, w').
Proof.
  intros Hpl Hfn Hw. unfold change, change_with. rewrite Hw.
  set (N := change_fuel m fn w).
  set (w0 := set_changing true w).
  assert (Hb : Forall (λ h, writes_only (code h (VRef (state w0)))
                            ∧ depth (code h (VRef (state w0))) ≤ m)
                 (registered "beforeChange" w0)).
  { apply Forall_forall. intros h Hh. apply Hpl. apply elem_of_app. by left. }
  destruct (plain_emit ByChange "beforeChange" (VRef (state w0)) m w0 Hb)
    as (w1 & E1 & L1 & S1 & Ch1).
  apply (emit_mono code _ N) in E1; [|unfold N, change_fuel, w0, entries_of;
                                       simpl; lia].
  unfold emit in E1. rewrite E1. cbn [bind].
  destruct (nested_mutations_return code fn Hfn w1 Ch1) as (w2 & E2 & Ch2 & L2).
  pose proof (proj1 (fuel_mono code _) _ _ _ E2 N
                ltac:(unfold N, change_fuel; lia)) as E2'.
  rewrite E2'. cbn [bind].
  destruct (nested_mutations_kept _ _ _ _ _ Hfn Ch1 E2')
    as (_ & _ & S2 & _).
  assert (Hent : entries_of "change" w2 = entries_of "change" w).
  { unfold entries_of. by rewrite L2, S2, L1, S1. }
  assert (Hc : Forall (λ h, writes_only (code h (VRef (state w2)))
                            ∧ depth (code h (VRef (state w2))) ≤ m)
                 (registered "change" w2)).
  { apply Forall_forall. intros h Hh. apply Hpl. apply elem_of_app. right.
    unfold registered in *. by rewrite <- Hent. }
  destruct (plain_emit ByChange "change" (VRef (state w2)) m w2 Hc)
    as (w3 & E3 & _).
  apply (emit_mono code _ N) in E3; [|rewrite Hent; unfold N, change_fuel; lia].
  unfold emit in E3. rewrite E3. cbn [bind]. by eexists.
Qed.

End Runs.

End AppRuns.

Module PkgFacts.
Import Pkg.

Lemma pkg_bind_Some (r : res) (k : NodeFlow → res) (x : outcome * NodeFlow) :
  bind r k = Some x ↔
  (∃ w, r = Some (Normal, w) ∧ k w = Some x) ∨
  (∃ e w, r = Some (Thrown e, w) ∧ x = (Thrown e, w)).
Proof.
  destruct r as [[[|e] w]|]; simpl; split.
  - intros H. left. by exists w.
  - intros [(w' & [= ->] & H)|(e & w' & [=] & _)]. done.
  - intros [= <-]. right. by exists e, w.
  - intros [(w' & [=] & _)|(e' & w' & [= -> ->] & ->)]. done.
  - done.
  - intros [(w' & [=] & _)|(e' & w' & [=] & _)].
Qed.

Tactic Notation "inv_bind" hyp(H) "as" ident(w) ident(H1) ident(H2) :=
  let e := fresh "e" in
  apply pkg_bind_Some in H;
  destruct H as [(w & H1 & H2)|(e & w & H1 & H2)].

Lemma nodeflow_eta w : set_listeners (listeners w) w = w.
Proof. by destruct w. Qed.

Lemma pkg_invocations_log ev l e w :
  invocations ev l (trace (log e w)) =
  invocations ev l (trace w) + (if is_invocation ev l e then 1 else 0).
Proof.
  unfold invocations. simpl. rewrite filter_app, length_app. f_equal.
  rewrite filter_cons, filter_nil.
  destruct (is_invocation ev l e); by case_decide.
Qed.

Lemma pkg_calls_log e w :
  calls (trace (log e w)) = calls (trace w) ++ (if is_call e then [e] else []).
Proof.
  unfold calls. simpl. rewrite filter_app. f_equal.
  rewrite filter_cons, filter_nil. destruct (is_call e); by case_decide.
Qed.





(** ** More fuel never changes a result *)
Section Fuel.

Variable code : fid → value → cmd.

Lemma pkg_fuel_mono n :
  (∀ c w r, exec code n c w = Some r →
            ∀ m, n ≤ m → exec code m c w = Some r) ∧
  (∀ ev ls d w r, for_each code n ev ls d w = Some r →
            ∀ m, n ≤ m → for_each code m ev ls d w = Some r).
Proof.
  induction n as [|n (IHe & IHf)]; [done|]. split.
  - intros c w r H [|m] Hm; [lia|]. apply le_S_n in Hm.
    destruct c as [|c1 c2|b c1 c2|e|c handler|e|p|ev payload|ev l|ev l|nm arg];
      simpl in *; try done.
    + destruct r as [r w']. inv_bind H as w1 E1 H.
      * rewrite (IHe _ _ _ E1 m Hm). simpl. by eapply IHe.
      * rewrite (IHe _ _ _ E1 m Hm). by rewrite H.
    + destruct (b _); by eapply IHe.
    + destruct (exec code n c w) as [[[|e] w1]|] eqn:E; [| |done].
      * by rewrite (IHe _ _ _ E m Hm).
      * rewrite (IHe _ _ _ E m Hm). by eapply IHe.
    + unfold emit_with in *. destruct (read ev _) as [[ls|]|]; [|done..].
      by eapply IHf.
    + destruct (api w !! _) as [[]|]; try done. by eapply IHe.
  - intros ev ls d w r H [|m] Hm; [lia|]. apply le_S_n in Hm. simpl in *.
    destruct ls as [|l ls]; [done|]. destruct r as [r w'].
    inv_bind H as w1 E1 H.
    + rewrite (IHe _ _ _ E1 m Hm). simpl. by eapply IHf.
    + rewrite (IHe _ _ _ E1 m Hm). by rewrite H.
Qed.

End Fuel.

(** ** Preservation of an invariant by every execution

    [I] is the invariant, [P] restricts the primitive operations of
    callback code, and [G event ls] is a property of the elements that
    a [forEach] of [emit(event, _)] still has to visit. *)
Section Preservation.

Variable code : fid → value → cmd.
Variable I : NodeFlow → Prop.
Variable P : cmd → Prop.
Variable G : string → list fid → Prop.

Hypothesis P_code : ∀ f v, cmd_forall P (code f v).
Hypothesis I_Log : ∀ e w, P (Log e) → I w → I (log (Logged (e (state w))) w).
Hypothesis I_SetState : ∀ p w, P (SetState p) → I w →
  I (setState (p (state w)) w).
Hypothesis I_On : ∀ ev l w, P (On ev l) → I w → I (on ev l w).2.
Hypothesis I_Off : ∀ ev l w, P (Off ev l) → I w → I (off ev l w).2.
Hypothesis I_Fired : ∀ ev d w, I w → I (log (Fired ev d) w).
Hypothesis I_Invoked : ∀ ev l ls d w,
  I w → G ev (l :: ls) → I (log (Invoked ev l d) w).
Hypothesis G_start : ∀ ev ls w,
  I w → read ev w = Some (Listeners ls) → G ev ls.
Hypothesis G_tail : ∀ ev l ls, G ev (l :: ls) → G ev ls.

Lemma pkg_preservation n :
  (∀ c w r w', cmd_forall P c → I w →
     exec code n c w = Some (r, w') → I w') ∧
  (∀ ev ls d w r w', I w → G ev ls →
     for_each code n ev ls d w = Some (r, w') → I w').
Proof.
  induction n as [|n (IHe & IHf)]; [done|]. split.
  - intros c w r w' Hc HI H.
    destruct c as [|c1 c2|b c1 c2|e|c handler|e|p|ev payload|ev l|ev l|nm arg];
      simpl in *.
    + by injection H as _ <-.
    + destruct Hc as [Hc1 Hc2]. inv_bind H as w1 E1 H.
      * eapply IHe; [exact Hc2| |exact H]. (eapply IHe; [..|eassumption]; eauto).
      * injection H as _ <-. (eapply IHe; [..|eassumption]; eauto).
    + destruct Hc as [Hc1 Hc2]. destruct (b _); (eapply IHe; [..|eassumption]; eauto).
    + by injection H as _ <-.
    + destruct Hc as [Hc1 Hc2].
      destruct (exec code n c w) as [[[|e] w1]|] eqn:E; [| |done].
      * injection H as _ <-. (eapply IHe; [..|eassumption]; eauto).
      * eapply IHe; [apply Hc2| |exact H]. (eapply IHe; [..|eassumption]; eauto).
    + injection H as _ <-. by apply I_Log.
    + injection H as _ <-. by apply I_SetState.
    + unfold emit_with in H.
      assert (HI' : I (log (Fired ev (payload (state w))) w))
        by (by apply I_Fired).
      destruct (read ev _) as [[ls|]|] eqn:Hls.
      * eapply IHf; [exact HI'| |exact H]. by eapply G_start.
      * by injection H as _ <-.
      * by injection H as _ <-.
    + injection H as E. replace w' with (on ev l w).2 by (by rewrite E).
      by apply I_On.
    + injection H as E. replace w' with (off ev l w).2 by (by rewrite E).
      by apply I_Off.
    + destruct (api w !! _) as [[]|]; try by injection H as _ <-.
      eapply IHe; [apply P_code|exact HI|exact H].
  - intros ev ls d w r w' HI HG H. simpl in H.
    destruct ls as [|l ls]; [by injection H as _ <-|].
    assert (HI' : I (log (Invoked ev l d) w)) by (by eapply I_Invoked).
    inv_bind H as w1 E1 H.
    + eapply IHf; [|by eapply G_tail|exact H].
      eapply IHe; [apply P_code|exact HI'|exact E1].
    + injection H as _ <-. eapply IHe; [apply P_code|exact HI'|exact E1].
Qed.

End Preservation.

Lemma pkg_cmd_forall_True c : cmd_forall (λ _, True) c.
Proof. induction c; simpl; auto. Qed.

(** ** on, off and emit *)
Section Emitter.

Variable code : fid → value → cmd.

Lemma read_on_ne ev ev' l w :
  ev ≠ ev' → read ev' (on ev l w).2 = read ev' w.
Proof.
  intros Hne. unfold on.
  destruct (read ev w) as [[ls|]|]; simpl; try case_bool_decide; try done;
    unfold read; simpl; by rewrite lookup_insert_ne.
Qed.

Lemma read_off_ne ev ev' l w :
  ev ≠ ev' → read ev' (off ev l w).2 = read ev' w.
Proof.
  intros Hne. unfold off.
  destruct (read ev w) as [[ls|]|]; simpl; try done.
  unfold read; simpl; by rewrite lookup_insert_ne.
Qed.

(** What [on] and [off] leave under the key of the event. *)
Lemma read_on ev l w :
  read ev (on ev l w).2
  = match read ev w with
    | Some (Listeners ls) => Some (Listeners (ls ++ [l]))
    | Some Builtin => Some Builtin
    | None => Some (Listeners [l])
    end.
Proof.
  unfold on. destruct (read ev w) as [[ls|]|] eqn:E; simpl.
  - unfold read. simpl. by rewrite lookup_insert_eq.
  - case_bool_decide; [done|]. unfold read. simpl. by rewrite lookup_insert_eq.
  - unfold read. simpl. by rewrite lookup_insert_eq.
Qed.

Lemma read_off ev l w :
  read ev (off ev l w).2
  = match read ev w with
    | Some (Listeners ls) => Some (Listeners (filter (λ x, x ≠ l) ls))
    | r => r
    end.
Proof.
  unfold off. destruct (read ev w) as [[ls|]|] eqn:E; simpl; [|done..].
  unfold read. simpl. by rewrite lookup_insert_eq.
Qed.

(** An array is an own property. *)
Lemma read_Listeners ev w ls :
  read ev w = Some (Listeners ls) ↔ listeners w !! ev = Some (Listeners ls).
Proof.
  unfold read. destruct (listeners w !! ev) as [v|]; [done|].
  by destruct (inherited ev).
Qed.

Lemma on_outcome ev l w :
  (on ev l w).1
  = match read ev w with Some Builtin => Thrown TypeError | _ => Normal end.
Proof. unfold on. by destruct (read ev w) as [[ls|]|]. Qed.

Lemma off_outcome ev l w :
  (off ev l w).1
  = match read ev w with Some Builtin => Thrown TypeError | _ => Normal end.
Proof. unfold off. by destruct (read ev w) as [[ls|]|]. Qed.

Lemma pkg_registered_on ev l w :
  registered ev (on ev l w).2
  = match read ev w with
    | Some Builtin => []
    | _ => registered ev w ++ [l]
    end.
Proof.
  unfold registered. rewrite read_on. by destruct (read ev w) as [[ls|]|].
Qed.

Lemma pkg_registered_on_ne ev ev' l w :
  ev ≠ ev' → registered ev' (on ev l w).2 = registered ev' w.
Proof. intros. unfold registered. by rewrite read_on_ne. Qed.

Lemma pkg_registered_off ev l w :
  registered ev (off ev l w).2 = filter (λ x, x ≠ l) (registered ev w).
Proof.
  unfold registered. rewrite read_off. by destruct (read ev w) as [[ls|]|].
Qed.

Lemma pkg_registered_off_ne ev ev' l w :
  ev ≠ ev' → registered ev' (off ev l w).2 = registered ev' w.
Proof. intros. unfold registered. by rewrite read_off_ne. Qed.

(** [on] and [off] leave the observations as they are. *)
Lemma trace_on ev l w : trace (on ev l w).2 = trace w.
Proof.
  unfold on. destruct (read ev w) as [[ls|]|]; simpl; try done.
  by case_bool_decide.
Qed.

Lemma trace_off ev l w : trace (off ev l w).2 = trace w.
Proof. unfold off. by destruct (read ev w) as [[ls|]|]. Qed.

(** [off] never releases a key: the array that is left, empty or not,
    stays in the registry. *)
Lemma off_keeps_key ev l w ls :
  listeners w !! ev = Some (Listeners ls) →
  (off ev l w).1 = Normal ∧
  listeners (off ev l w).2 !! ev
  = Some (Listeners (filter (λ x, x ≠ l) ls)).
Proof.
  intros E. apply read_Listeners in E. unfold off. rewrite E. simpl.
  split; [done|]. apply lookup_insert_eq.
Qed.

Lemma filter_absent (l : fid) (ls : list fid) :
  l ∉ ls → filter (λ x, x ≠ l) ls = ls.
Proof.
  induction ls as [|x ls IH]; [done|]. intros H.
  apply not_elem_of_cons in H as [Hne Hls].
  rewrite filter_cons. case_decide; [|congruence]. f_equal. by apply IH.
Qed.

(** [off] with a listener that is not registered changes nothing, when
    the event does not read as an inherited member. *)
Lemma pkg_off_unregistered ev l w :
  read ev w ≠ Some Builtin → l ∉ registered ev w → off ev l w = (Normal, w).
Proof.
  unfold registered, off. destruct (read ev w) as [[ls|]|] eqn:E; [|done..].
  intros _ H. rewrite filter_absent by done. apply read_Listeners in E.
  rewrite insert_id by done. by rewrite nodeflow_eta.
Qed.

(** [emit] for an event without listeners returns normally and only the
    call itself is observed, when the event does not read as an
    inherited member. *)
Lemma pkg_emit_no_listeners ev d w n :
  read ev w ≠ Some Builtin → registered ev w = [] →
  emit code (S n) ev d w = Some (Normal, log (Fired ev d) w).
Proof.
  unfold registered, emit, emit_with.
  change (read ev (log (Fired ev d) w)) with (read ev w).
  destruct (read ev w) as [[ls|]|]; [|done..]. by intros _ ->.
Qed.

(** When it does, [emit] throws a TypeError. *)
Lemma pkg_emit_builtin ev d w n :
  read ev w = Some Builtin →
  emit code n ev d w = Some (Thrown TypeError, log (Fired ev d) w).
Proof.
  unfold emit, emit_with.
  change (read ev (log (Fired ev d) w)) with (read ev w). by intros ->.
Qed.

(** A listener that throws ends the [forEach]. *)
Lemma pkg_for_each_throw n ev l ls d w e w' :
  exec code n (code l d) (log (Invoked ev l d) w) = Some (Thrown e, w') →
  for_each code (S n) ev (l :: ls) d w = Some (Thrown e, w').
Proof. intros H. simpl. by rewrite H. Qed.

(** The listeners before the one that throws have returned, those after
    it are not reached. *)
Lemma pkg_for_each_throws ev d l post e w' m : ∀ pre w w1,
  for_each code m ev pre d w = Some (Normal, w1) →
  exec code m (code l d) (log (Invoked ev l d) w1) = Some (Thrown e, w') →
  for_each code (S (length pre + m)) ev (pre ++ l :: post) d w
  = Some (Thrown e, w').
Proof.
  induction pre as [|x pre IH]; intros w w1 Hpre Hl.
  - destruct m as [|m]; [done|]. injection Hpre as <-.
    apply pkg_for_each_throw. exact Hl.
  - destruct m as [|m]; [done|]. simpl in Hpre.
    inv_bind Hpre as w0 E0 Hpre; [|done].
    change (for_each code (S (length (x :: pre) + S m)) ev
              ((x :: pre) ++ l :: post) d w)
      with (let* w0 := exec code (length (x :: pre) + S m) (code x d)
                         (log (Invoked ev x d) w) in
            for_each code (S (length pre + S m)) ev (pre ++ l :: post) d w0).
    rewrite (proj1 (pkg_fuel_mono code _) _ _ _ E0 (length (x :: pre) + S m))
      by (simpl; lia).
    cbn [bind]. apply (IH w0 w1); [|exact Hl].
    apply (proj2 (pkg_fuel_mono code _) _ _ _ _ _ Hpre). lia.
Qed.

(** A [forEach] that throws: one of the listeners threw, after those
    before it had returned, and left the state the [forEach] leaves. *)
Lemma pkg_for_each_thrown n : ∀ ev ls d w e w',
  for_each code n ev ls d w = Some (Thrown e, w') →
  ∃ pre l post w1 m,
    ls = pre ++ l :: post ∧
    for_each code n ev pre d w = Some (Normal, w1) ∧
    exec code m (code l d) (log (Invoked ev l d) w1) = Some (Thrown e, w').
Proof.
  induction n as [|n IH]; [done|]. intros ev ls d w e w' H.
  destruct ls as [|x ls]; [done|]. simpl in H.
  inv_bind H as w0 E0 H.
  - destruct (IH _ _ _ _ _ _ H) as (pre & l & post & w1 & m & -> & Hpre & Hl).
    exists (x :: pre), l, post, w1, m. split_and!; [done| |done].
    simpl. rewrite E0. simpl.
    destruct n as [|n]; [done|]. exact Hpre.
  - injection H as -> <-. exists [], x, ls, w, n. by split_and!.
Qed.

(** Code that does not emit calls no listener. *)
Lemma no_emit_calls :
  (∀ f v, cmd_forall no_emit (code f v)) →
  ∀ n c w r w', cmd_forall no_emit c →
    exec code n c w = Some (r, w') → calls (trace w') = calls (trace w).
Proof.
  intros Hcode. induction n as [|n IH]; [done|].
  intros c w r w' Hc H.
  destruct c as [|c1 c2|b c1 c2|e|c handler|e|p|evn payload|evn l|evn l|nm arg];
    simpl in *.
  - by injection H as _ <-.
  - destruct Hc as [Hc1 Hc2]. inv_bind H as w1 H1 H2.
    + rewrite (IH _ _ _ _ Hc2 H2). exact (IH _ _ _ _ Hc1 H1).
    + injection H2 as _ <-. exact (IH _ _ _ _ Hc1 H1).
  - destruct Hc as [Hc1 Hc2].
    destruct (b _); [exact (IH _ _ _ _ Hc1 H)|exact (IH _ _ _ _ Hc2 H)].
  - by injection H as _ <-.
  - destruct Hc as [Hc1 Hc2].
    destruct (exec code n c w) as [[[|e] w1]|] eqn:E; [| |done].
    + injection H as _ <-. exact (IH _ _ _ _ Hc1 E).
    + rewrite (IH _ _ _ _ (Hc2 _) H). exact (IH _ _ _ _ Hc1 E).
  - injection H as _ <-. by rewrite pkg_calls_log, app_nil_r.
  - by injection H as _ <-.
  - done.
  - injection H as E. replace w' with (on evn l w).2 by (by rewrite E).
    by rewrite trace_on.
  - injection H as E. replace w' with (off evn l w).2 by (by rewrite E).
    by rewrite trace_off.
  - destruct (api w !! _) as [[]|]; try by injection H as _ <-.
    exact (IH _ _ _ _ (Hcode _ _) H).
Qed.

(** The [forEach] of [emit] calls the elements of the array it started
    with, in order, until one throws. *)
Lemma for_each_calls :
  (∀ f v, cmd_forall no_emit (code f v)) →
  ∀ n ev ls d w r w',
    for_each code n ev ls d w = Some (r, w') →
    ∃ visited rest,
      ls = visited ++ rest ∧
      calls (trace w')
      = calls (trace w) ++ ((λ l, Invoked ev l d) <$> visited) ∧
      (r = Normal → rest = []) ∧
      (∀ e, r = Thrown e → ∃ pre l, visited = pre ++ [l]).
Proof.
  intros Hcode. induction n as [|n IH]; [done|].
  intros ev ls d w r w' H. simpl in H. destruct ls as [|l ls].
  - injection H as <- <-. exists [], [].
    split_and!; [done|by rewrite app_nil_r|done|done].
  - inv_bind H as w1 H1 H2.
    + destruct (IH _ _ _ _ _ _ H2) as (visited & rest & -> & Hc & Hr & Ht).
      exists (l :: visited), rest. split_and!; [done| |done|].
      * rewrite Hc, (no_emit_calls Hcode _ _ _ _ _ (Hcode l d) H1).
        rewrite pkg_calls_log. simpl. by rewrite <- app_assoc.
      * intros e' He. destruct (Ht e' He) as (pre & x & ->).
        by exists (l :: pre), x.
    + injection H2 as -> <-. exists [l], ls. split_and!; [done| |done|].
      * rewrite (no_emit_calls Hcode _ _ _ _ _ (Hcode l d) H1).
        by rewrite pkg_calls_log.
      * intros _ _. by exists [], l.
Qed.


(** An [emit] throws when a listener does, after those before it have
    returned. *)
Lemma pkg_emit_throws ev d w pre l post e w1 w' m :
  registered ev w = pre ++ l :: post →
  for_each code m ev pre d (log (Fired ev d) w) = Some (Normal, w1) →
  exec code m (code l d) (log (Invoked ev l d) w1) = Some (Thrown e, w') →
  emit code (S (length pre + m)) ev d w = Some (Thrown e, w').
Proof.
  intros Hreg Hpre Hl. unfold emit, emit_with, registered in *.
  change (read ev (log (Fired ev d) w)) with (read ev w).
  destruct (read ev w) as [[ls|]|]; [|by destruct pre..]. subst ls.
  by eapply pkg_for_each_throws.
Qed.

(** An [emit] that throws: the event reads as an inherited member, or
    one of its listeners threw, after those before it had returned, and
    left the state that [emit] leaves. *)
Lemma pkg_emit_thrown n ev d w e w' :
  emit code n ev d w = Some (Thrown e, w') →
  (read ev w = Some Builtin ∧ e = TypeError ∧ w' = log (Fired ev d) w) ∨
  ∃ pre l post w1 m,
    registered ev w = pre ++ l :: post ∧
    for_each code n ev pre d (log (Fired ev d) w) = Some (Normal, w1) ∧
    exec code m (code l d) (log (Invoked ev l d) w1) = Some (Thrown e, w').
Proof.
  unfold emit, emit_with, registered.
  change (read ev (log (Fired ev d) w)) with (read ev w).
  destruct (read ev w) as [[ls|]|]; [|intros [= <- <-]; by left|done].
  intros H. right. by apply pkg_for_each_thrown.
Qed.

(** With listeners that do not emit, the calls observed in an [emit]
    that throws are those of the listeners up to the one that threw. *)
Lemma pkg_emit_thrown_calls n ev d w e w' :
  (∀ f v, cmd_forall no_emit (code f v)) →
  read ev w ≠ Some Builtin →
  emit code n ev d w = Some (Thrown e, w') →
  ∃ pre l post,
    registered ev w = pre ++ l :: post ∧
    calls (trace w')
    = calls (trace w) ++ ((λ x, Invoked ev x d) <$> pre ++ [l]).
Proof.
  intros Hcode Hb. unfold emit, emit_with, registered.
  change (read ev (log (Fired ev d) w)) with (read ev w).
  destruct (read ev w) as [[ls|]|]; [|done..].
  intros H.
  destruct (for_each_calls Hcode _ _ _ _ _ _ _ H)
    as (visited & rest & -> & Hc & _ & Ht).
  destruct (Ht e eq_refl) as (pre & l & ->).
  exists pre, l, rest. split; [by rewrite <- app_assoc|].
  by rewrite Hc, pkg_calls_log, app_nil_r.
Qed.

Lemma pkg_unregistered_preserved ev l a n :
  (∀ f v, cmd_forall (not_on ev l) (code f v)) →
  ∀ c w r w', cmd_forall (not_on ev l) c → unregistered ev l a w →
    exec code n c w = Some (r, w') → unregistered ev l a w'.
Proof.
  intros Hcode.
  edestruct (pkg_preservation code (unregistered ev l a) (not_on ev l)
               (λ ev' ls, ev' = ev → l ∉ ls)) with (n := n) as (He & _);
    [..|exact He].
  - exact Hcode.
  - intros e w _ [Hr Hi]. split; [done|].
    by rewrite pkg_invocations_log, Nat.add_0_r.
  - by intros p w _ [Hr Hi].
  - intros ev' l' w Hne [Hr Hi]. split; [|by rewrite trace_on].
    destruct (decide (ev' = ev)) as [->|Hnev].
    + rewrite pkg_registered_on.
      destruct (read ev w) as [[ls|]|]; [|apply not_elem_of_nil|];
        rewrite elem_of_app, list_elem_of_singleton;
        (intros [? | ->]; [done|]); by apply Hne.
    + by rewrite pkg_registered_on_ne.
  - intros ev' l' w _ [Hr Hi]. split; [|by rewrite trace_off].
    destruct (decide (ev' = ev)) as [->|Hnev].
    + rewrite pkg_registered_off, list_elem_of_filter. tauto.
    + by rewrite pkg_registered_off_ne.
  - intros ev' d w [Hr Hi]. split; [done|].
    by rewrite pkg_invocations_log, Nat.add_0_r.
  - intros ev' l' ls d w [Hr Hi] HG. split; [done|].
    rewrite pkg_invocations_log. simpl. case_bool_decide as E; [|lia].
    destruct E as [-> ->]. destruct (HG eq_refl). by left.
  - intros ev' ls w [Hr Hi] Hls ->. unfold registered in Hr.
    by rewrite Hls in Hr.
  - intros ev' l' ls HG Hev Hin. apply (HG Hev). by right.
Qed.

(** The names that read as an inherited member stay the same. *)
Lemma arrays_only_on ev l w : arrays_only w → arrays_only (on ev l w).2.
Proof.
  intros H ev'. destruct (decide (ev = ev')) as [<-|Hne].
  - rewrite read_on, <- (H ev). by destruct (read ev w) as [[ls|]|].
  - by rewrite read_on_ne.
Qed.

Lemma arrays_only_off ev l w : arrays_only w → arrays_only (off ev l w).2.
Proof.
  intros H ev'. destruct (decide (ev = ev')) as [<-|Hne].
  - rewrite read_off, <- (H ev). by destruct (read ev w) as [[ls|]|].
  - by rewrite read_off_ne.
Qed.

Lemma arrays_only_preserved n c w r w' :
  arrays_only w → exec code n c w = Some (r, w') → arrays_only w'.
Proof.
  intros HI H.
  eapply (proj1 (pkg_preservation code arrays_only (λ _, True) (λ _ _, True)
                   _ _ _ _ _ _ _ _ _ n)); [|exact HI|exact H].
  apply pkg_cmd_forall_True.
  Unshelve.
  all: try done.
  - intros f v. apply pkg_cmd_forall_True.
  - intros ev l w0 _. apply arrays_only_on.
  - intros ev l w0 _. apply arrays_only_off.
Qed.

End Emitter.

(** ** createNodeFlow *)

(** [api.addNode(node1)] on a new instance stores the node under its id
    and emits [node:added], which calls the listener registered for it. *)
Lemma addNode_runs :
  ∃ w',
    exec (with_core Examples.pkg_code) 5
      (CallApi (Method "addNode" I) (λ _, Examples.node1))
      (on "node:added" 3 (createNodeFlow [])).2 = Some (Normal, w') ∧
    state w' !! "nodes" = Some (VObj [("n1", Examples.node1)]) ∧
    state w' !! "edges" = Some (VObj []) ∧
    trace w' =
      [Fired "node:added" (VObj [("nodeId", VStr "n1")]);
       Invoked "node:added" 3 (VObj [("nodeId", VStr "n1")]);
       Logged (VNum 3)].
Proof.
  eexists. split_and!; [vm_compute; reflexivity|reflexivity..].
Qed.

Lemma initialPluginState_spec plugins :
  initialPluginState plugins
  = shallow_merge ((λ p, default ∅ (p_state p)) <$> plugins).
Proof.
  unfold initialPluginState, shallow_merge.
  assert (∀ acc : obj,
            foldl (λ acc plugin, assign acc (default ∅ (p_state plugin)))
              acc plugins
            = foldl assign acc ((λ p, default ∅ (p_state p)) <$> plugins))
    as H; [|apply H].
  induction plugins as [|p ps IH]; intros acc; simpl; [done|]. apply IH.
Qed.

(** The instance that [createNodeFlow] builds: the core state under the
    merged plugin states, and the core api followed by the plugin apis. *)
Lemma createNodeFlow_spec plugins :
  let w := createNodeFlow plugins in
  state w
  = assign coreState
      (shallow_merge ((λ p, default ∅ (p_state p)) <$> plugins)) ∧
  api w
  = shallow_merge
      (props (coreApiFactory (state w))
       :: ((λ factory, props (factory (state w))) <$> omap p_api plugins)) ∧
  listeners w = ∅ ∧ trace w = [].
Proof.
  simpl. unfold createNodeFlow, new_NodeFlow. simpl.
  rewrite initialPluginState_spec. split_and!; try done.
  unfold shallow_merge. simpl. by rewrite <- list_fmap_compose.
Qed.

Lemma arrays_only_fresh plugins : arrays_only (createNodeFlow plugins).
Proof.
  intros ev. unfold read.
  destruct (createNodeFlow_spec plugins) as (_ & _ & -> & _).
  rewrite lookup_empty. by destruct (inherited ev).
Qed.

End PkgFacts.

(** * The claims *)

(** C1. An outermost [change(fn)] that returns has run its course:
    [beforeChange] was emitted with the flag set, then [fn] ran with the
    flag set, then [change] was emitted, then the flag was released, so
    that [change] fired each of the two events exactly once on its own
    behalf, whatever [fn] and the listeners did, nested [change] calls
    included.  When no callback code emits the two events itself, they
    have been emitted once each in all.  When the listeners leave the
    bus alone and [fn] is made of state writes and nested [change]
    calls, the listeners called are those of [beforeChange], once each
    and in order, before [fn], and those of [change], once each and in
    order, after [fn], and none while [fn] runs.  A [change] made while
    [changing] is set is just a call of its callback and fires neither
    event.  With straight-line listeners and such an [fn], the
    outermost call does return. *)
Theorem change_fires_once (code : fid → value → App.cmd) :
  (∀ fn w n w',
     App.changing w = false →
     App.change code n fn w = Some (Normal, w') →
     (∃ w1 w2 w3,
        App.emit code n App.ByChange "beforeChange" (VRef (App.state w))
          (App.set_changing true w) = Some (Normal, w1) ∧
        App.changing w1 = true ∧
        App.exec code n fn w1 = Some (Normal, w2) ∧
        App.changing w2 = true ∧
        App.by_change (App.trace w2) = App.by_change (App.trace w1) ∧
        App.emit code n App.ByChange "change" (VRef (App.state w2)) w2
          = Some (Normal, w3) ∧
        w' = App.set_changing false w3 ∧
        App.by_change (App.trace w') =
          App.by_change (App.trace w) ++
          [App.Fired App.ByChange "beforeChange" (VRef (App.state w));
           App.Fired App.ByChange "change" (VRef (App.state w2))]) ∧
     App.count_fired "beforeChange" (App.trace w')
       = S (App.count_fired "beforeChange" (App.trace w)) ∧
     App.count_fired "change" (App.trace w')
       = S (App.count_fired "change" (App.trace w)) ∧
     App.changing w' = false) ∧
  (∀ fn w n w',
     (∀ f v, App.cmd_forall App.no_change_emit (code f v)) →
     Forall (λ t, App.cmd_forall App.no_change_emit (App.init_body t))
       (App.inits_of (App._init w)) →
     App.cmd_forall App.no_change_emit fn →
     App.changing w = false →
     App.change code n fn w = Some (Normal, w') →
     App.count_emitted "beforeChange" (App.trace w')
       = S (App.count_emitted "beforeChange" (App.trace w)) ∧
     App.count_emitted "change" (App.trace w')
       = S (App.count_emitted "change" (App.trace w))) ∧
  (∀ fn w n w',
     (∀ f v, App.quiet (code f v)) →
     App.nested_mutations fn →
     App.changing w = false →
     App.change code n fn w = Some (Normal, w') →
     ∃ w1 w2,
       App.exec code n fn w1 = Some (Normal, w2) ∧
       App.changing w1 = true ∧ App.changing w2 = true ∧
       App.calls (App.trace w1)
       = App.calls (App.trace w)
         ++ ((λ h, App.Invoked "beforeChange" h (VRef (App.state w)))
               <$> App.registered "beforeChange" w) ∧
       App.calls (App.trace w2) = App.calls (App.trace w1) ∧
       App.calls (App.trace w')
       = App.calls (App.trace w2)
         ++ ((λ h, App.Invoked "change" h (VRef (App.state w2)))
               <$> App.registered "change" w) ∧
       App.emissions (App.trace w')
       = App.emissions (App.trace w)
         ++ [App.Fired App.ByChange "beforeChange" (VRef (App.state w));
             App.Fired App.ByChange "change" (VRef (App.state w2))] ∧
       App.listeners w' = App.listeners w ∧ App.sets w' = App.sets w) ∧
  (∀ callback w n,
     App.changing w = true →
     App.change code n callback w = App.exec code n callback w ∧
     ∀ r w', App.exec code n callback w = Some (r, w') →
       App.by_change (App.trace w') = App.by_change (App.trace w) ∧
       App.changing w' = true) ∧
  (∀ m fn w,
     App.plain_listeners code m w →
     App.nested_mutations fn →
     App.changing w = false →
     ∃ w', App.change code (App.change_fuel m fn w) fn w = Some (Normal, w')).
Proof.
  split_and!.
  - intros fn w n w' Hw H.
    destruct (AppRuns.change_course code fn w n w' Hw H)
      as (w1 & w2 & w3 & E1 & C1 & E2 & C2 & B2 & E3 & -> & Hev).
    split; [by exists w1, w2, w3|].
    rewrite !(AppFacts.count_fired_by_change _ (App.trace _)), Hev.
    rewrite !AppFacts.count_fired_app.
    rewrite <- !(AppFacts.count_fired_by_change _ (App.trace w)).
    split_and!; [| |done]; unfold App.count_fired;
      rewrite Nat.add_comm; reflexivity.
  - intros fn w n w'. apply AppFacts.change_emitted_once.
  - intros fn w n w'. apply AppRuns.change_calls.
  - intros callback w n Hw. split; [by apply AppFacts.change_nested|].
    intros r w' H.
    destruct (proj1 (AppFacts.in_change_preserved code _ n) callback w r w'
                (conj Hw eq_refl) H) as [? ?].
    done.
  - intros m fn w. apply AppRuns.change_returns.
Qed.

Lemma change_fires_once_witness :
  ∃ w',
    App.change Examples.code
      (App.change_fuel 1 Examples.two_increments Examples.observed_counter)
      Examples.two_increments Examples.observed_counter
      = Some (Normal, w') ∧
    App.trace w' =
      [App.Fired App.ByChange "beforeChange" (VRef 0);
       App.Invoked "beforeChange" 0 (VRef 0); App.Logged (VNum 0);
       App.Fired App.ByChange "change" (VRef 0);
       App.Invoked "change" 0 (VRef 0); App.Logged (VNum 2)] ∧
    App.calls (App.trace w') =
      [App.Invoked "beforeChange" 0 (VRef 0);
       App.Invoked "change" 0 (VRef 0)] ∧
    App.count_fired "beforeChange" (App.trace w') = 1 ∧
    App.count_fired "change" (App.trace w') = 1 ∧
    App.count_emitted "beforeChange" (App.trace w') = 1 ∧
    App.count_emitted "change" (App.trace w') = 1 ∧
    App.changing w' = false.
Proof.
  destruct (change_fires_once Examples.code) as (H1 & H2 & _ & _ & H5).
  destruct (H5 1 Examples.two_increments Examples.observed_counter)
    as [w' E].
  { intros h d Hh. vm_compute in Hh.
    apply elem_of_cons in Hh as [->|Hh];
      [|apply elem_of_cons in Hh as [->|Hh];
        [|by apply elem_of_nil in Hh]]; (split; [exact I|simpl; lia]). }
  { simpl. tauto. }
  { reflexivity. }
  exists w'. split; [exact E|].
  set (N := App.change_fuel 1 Examples.two_increments
              Examples.observed_counter) in E.
  destruct (H1 Examples.two_increments Examples.observed_counter N w'
              eq_refl E) as (_ & A & B & Hch).
  destruct (H2 Examples.two_increments Examples.observed_counter N w')
    as (C & D); [by intros [|[|f]] v|by repeat constructor|done|done|exact E|].
  rewrite A, B, C, D.
  split_and!; [| |reflexivity..|exact Hch];
    vm_compute in E; injection E as <-; reflexivity.
Defined.

(** C2. The code at the failing input: the callback of an outermost
    [change] throws; the exception reaches the caller, but [changing]
    stays set, and the next outermost [change] fires neither
    [beforeChange] nor [change]. *)
Theorem change_throw_leaves_changing_set :
  ∃ w1 w2,
    App.change Examples.code 5 (App.Throw (λ _ _, VStr "boom"))
      (App.compose [Examples.counter])
      = Some (Thrown (VStr "boom"), w1) ∧
    App.changing w1 = true ∧
    App.change Examples.code 5 App.Skip w1 = Some (Normal, w2) ∧
    App.changing w2 = true ∧
    App.by_change (App.trace w2) = App.by_change (App.trace w1).
Proof.
  eexists. eexists. split_and!.
  - vm_compute. reflexivity.
  - reflexivity.
  - vm_compute. reflexivity.
  - reflexivity.
  - reflexivity.
Qed.

(** C3. In an outermost [change(fn)] that returns, [beforeChange] is
    fired with the state reference read when [change] was called, which
    is the state [fn] starts from when no [beforeChange] listener is
    registered, and [change] is fired with the state reference read when
    [fn] has returned; the listeners of an [emit] are called with the
    payload of that [emit]; and a whole-object replacement makes the
    state a new object, which is then the payload of [change]. *)
Theorem change_payloads (code : fid → value → App.cmd) :
  (∀ fn w n w',
     App.changing w = false →
     App.change code n fn w = Some (Normal, w') →
     ∃ w1 w2 w3,
       App.emit code n App.ByChange "beforeChange" (VRef (App.state w))
         (App.set_changing true w) = Some (Normal, w1) ∧
       App.exec code n fn w1 = Some (Normal, w2) ∧
       App.emit code n App.ByChange "change" (VRef (App.state w2)) w2
         = Some (Normal, w3) ∧
       w' = App.set_changing false w3 ∧
       App.by_change (App.trace w') =
         App.by_change (App.trace w) ++
         [App.Fired App.ByChange "beforeChange" (VRef (App.state w));
          App.Fired App.ByChange "change" (VRef (App.state w2))] ∧
       (App.registered "beforeChange" w = [] →
        App.state w1 = App.state w ∧ App.objs w1 = App.objs w)) ∧
  (∀ o type data w n h rest r w',
     App.registered type w = h :: rest →
     App.emit code n o type data w = Some (r, w') →
     (App.trace w ++ [App.Fired o type data; App.Invoked type h data])
       `prefix_of` App.trace w') ∧
  (∀ f w n,
     let o := f (App.objs w) (App.state w) in
     let w' := App.replace_state o w in
     App.exec code (S n) (App.SetState f) w = Some (Normal, w') ∧
     App.state w' = length (App.objs w) ∧
     App.objs w' !! App.state w' = Some o ∧
     ∀ l, l < length (App.objs w) → App.objs w' !! l = App.objs w !! l).
Proof.
  split_and!.
  - intros fn w n w' Hw H.
    destruct (AppFacts.change_events code fn w n w' Hw H)
      as (w1 & w2 & w3 & E1 & E2 & E3 & -> & Hev).
    exists w1, w2, w3. split_and!; try done.
    intros Hreg.
    apply AppFacts.emit_no_listeners_inv in E1; [|exact Hreg].
    by injection E1 as ->.
  - intros o type data w n h rest r w'. apply AppFacts.emit_first_listener.
  - intros f w n. simpl. split_and!; try done.
    + by rewrite lookup_app_r, Nat.sub_diag.
    + intros l Hl. by rewrite lookup_app_l.
Qed.

Lemma change_payloads_witness :
  ∃ w' w'',
    App.change Examples.code 10 Examples.increment Examples.observed_counter
      = Some (Normal, w') ∧
    App.trace w' =
      [App.Fired App.ByChange "beforeChange" (VRef 0);
       App.Invoked "beforeChange" 0 (VRef 0); App.Logged (VNum 0);
       App.Fired App.ByChange "change" (VRef 0);
       App.Invoked "change" 0 (VRef 0); App.Logged (VNum 1)] ∧
    App.change Examples.code 10 Examples.increment_replace
      Examples.observed_counter = Some (Normal, w'') ∧
    App.trace w'' =
      [App.Fired App.ByChange "beforeChange" (VRef 0);
       App.Invoked "beforeChange" 0 (VRef 0); App.Logged (VNum 0);
       App.Fired App.ByChange "change" (VRef 2);
       App.Invoked "change" 0 (VRef 2); App.Logged (VNum 1)] ∧
    App.by_change (App.trace w') =
      [App.Fired App.ByChange "beforeChange" (VRef 0);
       App.Fired App.ByChange "change" (VRef 0)].
Proof.
  eexists. eexists.
  assert (E : ∀ x,
            App.change Examples.code 10 Examples.increment
              Examples.observed_counter = Some (Normal, x) →
            App.by_change (App.trace x) =
              [App.Fired App.ByChange "beforeChange" (VRef 0);
               App.Fired App.ByChange "change" (VRef 0)]).
  { intros x Hx.
    destruct (proj1 (change_payloads Examples.code) Examples.increment
                Examples.observed_counter 10 x eq_refl Hx)
      as (w1 & w2 & w3 & E1 & E2 & E3 & -> & Hev & _).
    rewrite Hev. vm_compute in E1. injection E1 as <-.
    vm_compute in E2. injection E2 as <-. reflexivity. }
  split_and!.
  - vm_compute. reflexivity.
  - reflexivity.
  - vm_compute. reflexivity.
  - reflexivity.
  - apply E. vm_compute. reflexivity.
Defined.

(** C4, as the claim states it, fails for [createNodeFlow]: with the
    fragments [{x:1}] and [{x:2,y:3}] the state also has the core keys
    [nodes] and [edges], so it is not the merge of the plugin fragments. *)
Lemma createNodeFlow_state_not_plugin_merge :
  Pkg.state
    (Pkg.createNodeFlow
       [Examples.pkg_with_state Examples.x1;
        Examples.pkg_with_state Examples.x2y3])
  ≠ shallow_merge [props Examples.x1; props Examples.x2y3].
Proof.
  intros H. apply (f_equal (.!! "nodes")) in H. vm_compute in H. discriminate.
Qed.

(** C4, amended.  The instance that [create] composes has as state the
    shallow merge of the state fragments the plugins returned, in list
    order, and as api the shallow merge of their api fragments (what
    plugins that ignore the instance return is what they are), and
    [create] returns it as it is, or after [init()] with [autoInit];
    the instance of [createNodeFlow] has as state the merged plugin
    states laid over the core state, and as api the merge of the core
    api followed by the api fragments of the plugins that have one;
    in a shallow merge the last fragment that has a key gives its value.
    The fragments that go through [Object.assign] are objects without
    an own property [__proto__]. *)
Theorem composition_merges :
  (∀ plugins,
     let w := App.compose plugins in
     let rs := App.contributions plugins App.new_NodeFlow in
     App.objs w !! App.state w
     = Some (shallow_merge (props ∘ App.p_state <$> rs)) ∧
     App.objs w !! App.api w
     = Some (shallow_merge (props ∘ App.p_api <$> rs)) ∧
     length rs = length plugins ∧
     ∀ code n,
       App.create code n plugins false = Some (Normal, w) ∧
       App.create code n plugins true = App.init code n w) ∧
  (∀ (rs : list App.PluginResult) w,
     App.contributions ((λ r _, r) <$> rs) w = rs) ∧
  (∀ plugins,
     let w := Pkg.createNodeFlow plugins in
     Pkg.state w
     = assign Pkg.coreState
         (shallow_merge ((λ p, default ∅ (Pkg.p_state p)) <$> plugins)) ∧
     Pkg.api w
     = shallow_merge
         (props (Pkg.coreApiFactory (Pkg.state w))
          :: ((λ factory, props (factory (Pkg.state w)))
                <$> omap Pkg.p_api plugins))) ∧
  (∀ (front back : list obj) (f : obj) k v,
     f !! k = Some v →
     Forall (λ g : obj, g !! k = None) back →
     shallow_merge (front ++ f :: back) !! k = Some v).
Proof.
  split_and!.
  - intros plugins.
    destruct (AppFacts.compose_spec plugins)
      as (Hs & Ha & _ & _ & _ & _ & _ & _ & Hlen).
    simpl. split_and!; try done.
    intros code n. split; [done|]. unfold App.create.
    by destruct (App.init code n (App.compose plugins)) as [[[] ?]|].
  - intros rs. induction rs as [|r rs IH]; intros w; simpl; [done|].
    by rewrite IH.
  - intros plugins.
    by destruct (PkgFacts.createNodeFlow_spec plugins) as (Hs & Ha & _).
  - apply shallow_merge_last_wins.
Qed.

Lemma composition_merges_witness :
  App.objs (App.compose [Examples.with_state Examples.x1;
                         Examples.with_state Examples.x2y3]) !! 0
    = Some (props Examples.x2y3) ∧
  App.objs (App.compose [Examples.with_api Examples.addNode10;
                         Examples.with_api Examples.addNode11]) !! 1
    ≫= (.!! "addNode") = Some (VFun 11) ∧
  shallow_merge [props Examples.x1; props Examples.x2y3] !! "x"
    = Some (VNum 2) ∧
  Pkg.api (Pkg.createNodeFlow
             [Examples.pkg_with_api Examples.addNode10;
              Examples.pkg_with_api Examples.addNode11])
    !! "addNode" = Some (VFun 11).
Proof.
  destruct composition_merges as (HApp & _ & HPkg & Hlast).
  split_and!.
  - destruct (HApp [Examples.with_state Examples.x1;
                    Examples.with_state Examples.x2y3]) as (Hs & _).
    etrans; [exact Hs|]. vm_compute. reflexivity.
  - destruct (HApp [Examples.with_api Examples.addNode10;
                    Examples.with_api Examples.addNode11]) as (_ & Ha & _).
    etrans; [exact (f_equal (.≫= (.!! "addNode")) Ha)|].
    vm_compute. reflexivity.
  - apply (Hlast [props Examples.x1] []); [reflexivity|constructor].
  - destruct (HPkg [Examples.pkg_with_api Examples.addNode10;
                    Examples.pkg_with_api Examples.addNode11]) as (_ & Ha).
    rewrite Ha.
    apply (Hlast [props (Pkg.coreApiFactory _); props Examples.addNode10] []);
      [reflexivity|constructor].
Defined.

(** C5. On an instance whose [_init] is the one [create] installed for
    the plugins [P1..Pn], a call of [_init()] that returns gives a
    teardown that holds the cleanups of [Pn], ..., [P1] in this order,
    and a call of the teardown that returns has called them in this
    order, whatever the cleanups did; the init thunks were called in the
    order [P1], ..., [Pn], provided no nested [init()] ran them again
    (the instance is initialized, or no callback calls [init()]).
    When the thunks and cleanups are straight-line code, both calls do
    return. *)
Theorem teardown_reverse_order (code : fid → value → App.cmd) :
  (∀ plugins w n w1 cleanups,
     let rs := App.contributions plugins App.new_NodeFlow in
     App._init w = App._init (App.compose plugins) →
     App.call__init_teardown code n w = Some (Normal, w1, cleanups) →
     cleanups
     = reverse (imap (λ k r, (k, App.init_cleanup (App.p_init r))) rs) ∧
     cleanups.*1 = reverse (seq 0 (length plugins)) ∧
     (∀ m w2,
        App.run_cleanups code m cleanups w1 = Some (Normal, w2) →
        App.cleanup_calls (App.trace w2)
        = App.cleanup_calls (App.trace w1)
          ++ reverse (seq 0 (length plugins))) ∧
     (App.initialized w = true ∨
      ((∀ f v, App.cmd_forall App.init_free (code f v)) ∧
       Forall
         (λ r, App.cmd_forall App.init_free (App.init_body (App.p_init r)))
         rs) →
      App.init_calls (App.trace w1)
      = App.init_calls (App.trace w) ++ seq 0 (length plugins))) ∧
  (∀ plugins w,
     let ts := App.p_init <$> App.contributions plugins App.new_NodeFlow in
     App._init w = App._init (App.compose plugins) →
     Forall App.plain_thunk ts →
     ∃ w1 cleanups w2,
       App.call__init_teardown code (App.thunks_fuel ts) w
         = Some (Normal, w1, cleanups) ∧
       App.run_cleanups code (App.thunks_fuel ts) cleanups w1
         = Some (Normal, w2)).
Proof.
  split; [|intros plugins w ts Hinit Hplain;
           destruct (AppFacts.compose_spec plugins) as (_ & _ & Hc & _);
           fold ts in Hc; rewrite Hc in Hinit;
           destruct (AppFacts.plain_thunks_return code ts w Hinit Hplain)
             as (w1 & E1 & w2 & E2);
           by exists w1, (App.cleanups_of (App.InitComposed ts)), w2].
  intros plugins w n w1 cleanups rs Hinit H.
  destruct (AppFacts.compose_spec plugins)
    as (_ & _ & Hc & _ & _ & _ & _ & _ & Hlen).
  fold rs in Hc, Hlen. rewrite Hc in Hinit.
  unfold App.call__init_teardown, App.call__init, App.call__init_with in H.
  rewrite Hinit in H.
  destruct (App.run_inits code n (App.p_init <$> rs) 0 w)
    as [[[|e] w1']|] eqn:Hrun; [|done..].
  injection H as <- <-.
  assert (Hidx : (App.cleanups_of (App.InitComposed (App.p_init <$> rs))).*1
                 = reverse (seq 0 (length plugins))).
  { by rewrite AppFacts.cleanups_of_indices, length_fmap, Hlen. }
  split_and!.
  - simpl. by rewrite imap_fmap.
  - exact Hidx.
  - intros m w2 H2. rewrite <- Hidx. by eapply AppFacts.run_cleanups_calls.
  - rewrite <- Hlen, <- (length_fmap App.p_init rs).
    intros [Hi|[Hcode Hbodies]].
    + eapply (AppFacts.run_inits_calls code
                (λ w, App.initialized w = true) (λ _, True));
        [done| | |exact Hi|exact Hrun].
      * intros l m t w0 r w' _ HJ Hl Hex.
        by eapply AppFacts.initialized_preserved.
      * by apply Forall_forall.
    + eapply (AppFacts.run_inits_calls code (λ _, True)
                (λ t, App.cmd_forall App.init_free (App.init_body t)));
        [done| | |done|exact Hrun].
      * intros l m t w0 r w' Ht _ Hl Hex. split; [done|].
        by eapply AppFacts.init_free_preserved.
      * by apply Forall_fmap.
Qed.

Lemma teardown_reverse_order_witness :
  ∃ w1 cleanups w2,
    App.call__init_teardown Examples.code 5 (App.compose Examples.abc)
      = Some (Normal, w1, cleanups) ∧
    App.run_cleanups Examples.code 5 cleanups w1 = Some (Normal, w2) ∧
    App.init_calls (App.trace w1) = [0; 1; 2] ∧
    App.cleanup_calls (App.trace w2) = [2; 1; 0] ∧
    App.trace w2 =
      [App.InitCalled 0; App.Logged (VStr "init A");
       App.InitCalled 1; App.Logged (VStr "init B");
       App.InitCalled 2; App.Logged (VStr "init C");
       App.CleanupCalled 2; App.Logged (VStr "cleanup C");
       App.CleanupCalled 1; App.Logged (VStr "cleanup B");
       App.CleanupCalled 0; App.Logged (VStr "cleanup A")].
Proof.
  destruct (App.call__init_teardown Examples.code 5 (App.compose Examples.abc))
    as [[[[|e] w1] cleanups]|] eqn:E1; try (vm_compute in E1; discriminate).
  destruct (App.run_cleanups Examples.code 5 cleanups w1)
    as [[[|e] w2]|] eqn:E2;
    try (vm_compute in E1; injection E1 as <- <-;
         vm_compute in E2; discriminate).
  exists w1, cleanups, w2.
  destruct (proj1 (teardown_reverse_order Examples.code) Examples.abc
              (App.compose Examples.abc) 5 w1 cleanups eq_refl E1)
    as (_ & _ & Hc & Hi).
  split_and!; [done..| | |].
  - rewrite Hi; [reflexivity|]. right. split.
    + by intros [|[|f]] v.
    + repeat constructor; done.
  - rewrite (Hc 5 w2 E2). vm_compute in E1. by injection E1 as <- <-.
  - vm_compute in E1. injection E1 as <- <-.
    vm_compute in E2. by injection E2 as <-.
Defined.

(** C6. On an instance that is not initialized, an [init()] that
    returns has set [initialized] and has called each collected init
    thunk exactly once, in order; any further [init()] does nothing, so
    that two or more calls in a row are one call; the thunks collected
    by [create] are those of the plugins, one each; and when the thunks
    are straight-line code, [init()] does return. *)
Theorem init_idempotent (code : fid → value → App.cmd) :
  (∀ w n w',
     App.initialized w = false →
     App.init code n w = Some (Normal, w') →
     App.initialized w' = true ∧
     App.init_calls (App.trace w')
     = App.init_calls (App.trace w)
       ++ seq 0 (length (App.inits_of (App._init w))) ∧
     ∀ m k, App.init_times code m k w' = Some (Normal, w')) ∧
  (∀ w n k w',
     App.initialized w = false →
     App.init_times code n (S k) w = Some (Normal, w') →
     App.init code n w = Some (Normal, w') ∧
     App.init_calls (App.trace w')
     = App.init_calls (App.trace w)
       ++ seq 0 (length (App.inits_of (App._init w)))) ∧
  (∀ w n, App.initialized w = true → App.init code n w = Some (Normal, w)) ∧
  (∀ plugins,
     App.initialized (App.compose plugins) = false ∧
     App.inits_of (App._init (App.compose plugins))
     = App.p_init <$> App.contributions plugins App.new_NodeFlow ∧
     length (App.inits_of (App._init (App.compose plugins))) = length plugins) ∧
  (∀ w,
     Forall App.plain_thunk (App.inits_of (App._init w)) →
     ∃ w', App.init code (App.thunks_fuel (App.inits_of (App._init w))) w
           = Some (Normal, w')).
Proof.
  split_and!; [| | | |apply AppFacts.plain_thunks_init_returns].
  - intros w n w' Hw H.
    destruct (AppFacts.init_first code n w w' Hw H) as [Hi Hc].
    split_and!; try done. intros m k. by apply AppFacts.init_times_again.
  - intros w n k w' Hw H. simpl in H.
    apply AppFacts.bind_Some in H as [(w1 & E1 & H)|(e & w1 & _ & [=])].
    destruct (AppFacts.init_first code n w w1 Hw E1) as [Hi Hc].
    rewrite AppFacts.init_times_again in H by done. injection H as <-.
    done.
  - intros w n. apply AppFacts.init_again.
  - intros plugins.
    destruct (AppFacts.compose_spec plugins)
      as (_ & _ & Hc & Hi & _ & _ & _ & _ & Hlen).
    rewrite Hc. simpl. by rewrite length_fmap.
Qed.

Lemma init_idempotent_witness :
  ∃ w',
    App.init_times Examples.code 5 3 (App.compose Examples.ab)
      = Some (Normal, w') ∧
    App.init Examples.code 5 (App.compose Examples.ab) = Some (Normal, w') ∧
    App.init_calls (App.trace w') = [0; 1] ∧
    App.trace w' =
      [App.InitCalled 0; App.Logged (VStr "init A");
       App.InitCalled 1; App.Logged (VStr "init B")].
Proof.
  destruct (App.init_times Examples.code 5 3 (App.compose Examples.ab))
    as [[[|e] w']|] eqn:E; try (vm_compute in E; discriminate).
  exists w'.
  destruct (proj1 (proj2 (init_idempotent Examples.code))
              (App.compose Examples.ab) 5 2 w' eq_refl E) as [E1 Hc].
  split_and!; [done..| |].
  - rewrite Hc. reflexivity.
  - vm_compute in E. by injection E as <-.
Defined.

(** C7, as the claim states it, fails: with the listeners 1, which
    throws, and 3 registered for "e", in this order, [emit("e", 7)]
    throws after calling 1 and never calls 3, in app.tsx and in
    nodeflow.ts alike. *)
Lemma emit_throwing_listener_stops_the_rest :
  (App.registered "e" Examples.thrower_first = [1; 3] ∧
   ∃ w',
     App.emit Examples.code 5 App.ByCode "e" (VNum 7) Examples.thrower_first
       = Some (Thrown (VStr "boom"), w') ∧
     App.invocations "e" 1 (App.trace w') = 1 ∧
     App.invocations "e" 3 (App.trace w') = 0) ∧
  (Pkg.registered "e" Examples.pkg_thrower_first = [1; 3] ∧
   ∃ w',
     Pkg.emit Examples.pkg_code 5 "e" (VNum 7) Examples.pkg_thrower_first
       = Some (Thrown (VStr "boom"), w') ∧
     Pkg.invocations "e" 1 (Pkg.trace w') = 1 ∧
     Pkg.invocations "e" 3 (Pkg.trace w') = 0).
Proof.
  split; (split; [reflexivity|]); eexists; split_and!;
    [vm_compute; reflexivity|reflexivity..].
Qed.

(** C7, amended.  An exception thrown by a listener ends the [forEach]
    of [emit] at once, wherever the listener stands among the listeners
    of the event: [emit] completes with that exception in the state the
    listener left, the listeners before it have been called and have
    returned, and the listeners after it are not called in that [emit]
    call.

    In app.tsx, where the [forEach] runs over the live [Set]: a
    listener that throws ends the [forEach], a listener that returns
    lets it go on with the next entry, and [emit] is the [forEach] from
    the first entry; an [emit] that throws does so with the exception
    and in the state of a listener it called; and when the listeners
    leave the bus alone, the calls observed are those of the listeners
    up to the one that threw, in order.

    In nodeflow.ts, where the [forEach] runs over the array: when the
    listeners before [l] return and [l] throws, [emit] throws that
    exception in the state [l] left; an [emit] that throws does so for
    that reason, or because the event name reads as a member of
    [Object.prototype]; and when the listeners do not emit, the calls
    observed are those of the listeners up to the one that threw. *)
Theorem emit_listener_throw_propagates :
  (∀ code n t s i d w h e w',
     App.sets w !! s ≫= (.!! i) = Some (Some h) →
     App.exec code n (code h d) (App.log (App.Invoked t h d) w)
       = Some (Thrown e, w') →
     App.for_each code (S n) t s i d w = Some (Thrown e, w')) ∧
  (∀ code n t s i d w h w1,
     App.sets w !! s ≫= (.!! i) = Some (Some h) →
     App.exec code n (code h d) (App.log (App.Invoked t h d) w)
       = Some (Normal, w1) →
     App.for_each code (S n) t s i d w = App.for_each code n t s (S i) d w1) ∧
  (∀ code n o t d w s,
     App.listeners w !! t = Some s →
     App.emit code n o t d w
     = App.for_each code n t s 0 d (App.log (App.Fired o t d) w)) ∧
  (∀ code n o t d w e w',
     App.emit code n o t d w = Some (Thrown e, w') →
     ∃ s j h w1 m,
       App.listeners w !! t = Some s ∧
       App.sets w1 !! s ≫= (.!! j) = Some (Some h) ∧
       App.exec code m (code h d) (App.log (App.Invoked t h d) w1)
       = Some (Thrown e, w')) ∧
  (∀ code n o t d w e w',
     (∀ f v, App.quiet (code f v)) →
     App.emit code n o t d w = Some (Thrown e, w') →
     ∃ pre l post w1 m,
       App.registered t w = pre ++ l :: post ∧
       App.calls (App.trace w1)
       = App.calls (App.trace w) ++ ((λ h, App.Invoked t h d) <$> pre) ∧
       App.exec code m (code l d) (App.log (App.Invoked t l d) w1)
       = Some (Thrown e, w') ∧
       App.calls (App.trace w')
       = App.calls (App.trace w)
         ++ ((λ h, App.Invoked t h d) <$> pre ++ [l])) ∧
  (∀ code m ev d w pre l post e w1 w',
     Pkg.registered ev w = pre ++ l :: post →
     Pkg.for_each code m ev pre d (Pkg.log (Pkg.Fired ev d) w)
       = Some (Normal, w1) →
     Pkg.exec code m (code l d) (Pkg.log (Pkg.Invoked ev l d) w1)
       = Some (Thrown e, w') →
     Pkg.emit code (S (length pre + m)) ev d w = Some (Thrown e, w')) ∧
  (∀ code n ev d w e w',
     Pkg.emit code n ev d w = Some (Thrown e, w') →
     (Pkg.read ev w = Some Pkg.Builtin ∧ e = TypeError ∧
      w' = Pkg.log (Pkg.Fired ev d) w) ∨
     ∃ pre l post w1 m,
       Pkg.registered ev w = pre ++ l :: post ∧
       Pkg.for_each code n ev pre d (Pkg.log (Pkg.Fired ev d) w)
         = Some (Normal, w1) ∧
       Pkg.exec code m (code l d) (Pkg.log (Pkg.Invoked ev l d) w1)
         = Some (Thrown e, w')) ∧
  (∀ code n ev d w e w',
     (∀ f v, Pkg.cmd_forall Pkg.no_emit (code f v)) →
     Pkg.read ev w ≠ Some Pkg.Builtin →
     Pkg.emit code n ev d w = Some (Thrown e, w') →
     ∃ pre l post,
       Pkg.registered ev w = pre ++ l :: post ∧
       Pkg.calls (Pkg.trace w')
       = Pkg.calls (Pkg.trace w)
         ++ ((λ x, Pkg.Invoked ev x d) <$> pre ++ [l])).
Proof.
  split_and!.
  - apply AppFacts.for_each_throw.
  - apply AppFacts.for_each_next.
  - intros code n o t d w s Hs. unfold App.emit, App.emit_with. simpl.
    by rewrite Hs.
  - intros code n o t d w e w'. apply AppRuns.emit_thrown.
  - intros code n o t d w e w' Hcode H.
    destruct (AppRuns.quiet_emit code _ _ _ _ _ _ _ Hcode H)
      as (visited & rest & Hv & Hc & _ & Ht & _).
    destruct (Ht e eq_refl) as (pre & l & w1 & m & -> & Hc1 & Hl).
    exists pre, l, rest, w1, m. split_and!; try done.
    by rewrite Hv, <- app_assoc.
  - intros code m ev d w pre l post e w1 w'. apply PkgFacts.pkg_emit_throws.
  - intros code n ev d w e w'. apply PkgFacts.pkg_emit_thrown.
  - intros code n ev d w e w'. apply PkgFacts.pkg_emit_thrown_calls.
Qed.

Lemma emit_listener_throw_propagates_witness :
  App.registered "e" Examples.thrower_second = [3; 1; 4] ∧
  (∃ w',
     App.emit Examples.code 5 App.ByCode "e" (VNum 7) Examples.thrower_second
       = Some (Thrown (VStr "boom"), w') ∧
     App.trace w' =
       [App.Fired App.ByCode "e" (VNum 7);
        App.Invoked "e" 3 (VNum 7); App.Logged (VNum 3);
        App.Invoked "e" 1 (VNum 7)] ∧
     ∃ pre l post w1 m,
       App.registered "e" Examples.thrower_second = pre ++ l :: post ∧
       App.calls (App.trace w1)
       = App.calls (App.trace Examples.thrower_second)
         ++ ((λ h, App.Invoked "e" h (VNum 7)) <$> pre) ∧
       App.exec Examples.code m (Examples.code l (VNum 7))
         (App.log (App.Invoked "e" l (VNum 7)) w1)
       = Some (Thrown (VStr "boom"), w') ∧
       App.calls (App.trace w')
       = App.calls (App.trace Examples.thrower_second)
         ++ ((λ h, App.Invoked "e" h (VNum 7)) <$> pre ++ [l])) ∧
  Pkg.registered "e" Examples.pkg_thrower_second = [3; 1; 4] ∧
  Pkg.emit Examples.pkg_code 4 "e" (VNum 7) Examples.pkg_thrower_second
  = Some (Thrown (VStr "boom"),
          Pkg.log (Pkg.Invoked "e" 1 (VNum 7))
            (Pkg.log (Pkg.Logged (VNum 3))
               (Pkg.log (Pkg.Invoked "e" 3 (VNum 7))
                  (Pkg.log (Pkg.Fired "e" (VNum 7))
                     Examples.pkg_thrower_second)))).
Proof.
  destruct emit_listener_throw_propagates
    as (_ & _ & _ & _ & HA & HP & _ & _).
  split_and!.
  - reflexivity.
  - destruct (App.emit Examples.code 5 App.ByCode "e" (VNum 7)
                Examples.thrower_second) as [[[|e] w']|] eqn:E;
      try (vm_compute in E; discriminate).
    assert (e = VStr "boom") as ->
      by (vm_compute in E; by injection E as <- _).
    exists w'. split_and!; [done| |].
    + vm_compute in E. by injection E as <-.
    + apply (HA Examples.code 5 App.ByCode "e" (VNum 7)
               Examples.thrower_second (VStr "boom") w');
        [by intros [|[|f]] v|exact E].
  - reflexivity.
  - apply (HP Examples.pkg_code 2 "e" (VNum 7) Examples.pkg_thrower_second
             [3] 1 [4] (VStr "boom")
             (Pkg.log (Pkg.Logged (VNum 3))
                (Pkg.log (Pkg.Invoked "e" 3 (VNum 7))
                   (Pkg.log (Pkg.Fired "e" (VNum 7))
                      Examples.pkg_thrower_second))));
      reflexivity.
Defined.

(** C8, as the claim states it, fails in nodeflow.ts: [on] returns
    nothing there, so there is no callback to invoke: calling the value
    of [on("e", 3)] throws a TypeError, the listener stays registered
    and the next [emit] calls it. *)
Lemma pkg_on_returns_no_unsubscribe :
  Pkg.on_result = VUndef ∧
  Pkg.on "e" 3 (Pkg.createNodeFlow []) = (Normal, Examples.pkg_listening) ∧
  Pkg.call Examples.pkg_code 5 Pkg.on_result VUndef Examples.pkg_listening
  = Some (Thrown TypeError, Examples.pkg_listening) ∧
  Pkg.registered "e" Examples.pkg_listening = [3] ∧
  ∃ w',
    Pkg.emit Examples.pkg_code 5 "e" (VNum 7) Examples.pkg_listening
    = Some (Normal, w') ∧
    Pkg.invocations "e" 3 (Pkg.trace w') = 1.
Proof.
  split_and!; [reflexivity..|].
  eexists. split; [vm_compute; reflexivity|reflexivity].
Qed.

(** C8, amended.  After [on(event, listener)] and then
    [off(event, listener)] the listener is not registered for the event,
    and a subsequent [emit] of the event does not call it, whatever the
    other listeners do short of registering it again; [off] with a
    listener that is not registered returns normally and changes
    nothing.  In app.tsx the callback that [on] returns is a call of
    [off] with the same event and listener, and all this holds for
    every event name on every instance whose registry is well formed,
    as it is after [create] and stays under every execution.  In
    nodeflow.ts [on] returns nothing, and calling that value throws;
    there all this holds for the event names that do not read as a
    member of [Object.prototype], which on the instances of
    [createNodeFlow], under every execution, are the names that
    [Object.prototype] does not have. *)
Theorem on_off_unsubscribes :
  (∀ type h w,
     App.registry_wf w →
     h ∉ App.registered type (App.off type h (App.on type h w).1)) ∧
  (∀ code type h w n w1,
     (App.on type h w).2 = App.Off type h ∧
     App.exec code (S n) (App.on type h w).2 w1
     = Some (Normal, App.off type h w1)) ∧
  (∀ code type h w n d r w',
     App.registry_wf w →
     (∀ f v, App.cmd_forall (App.not_on type h) (code f v)) →
     Forall (λ t, App.cmd_forall (App.not_on type h) (App.init_body t))
       (App.inits_of (App._init w)) →
     App.emit code n App.ByCode type d (App.off type h (App.on type h w).1)
       = Some (r, w') →
     App.invocations type h (App.trace w')
     = App.invocations type h (App.trace w)) ∧
  (∀ code type h w n,
     App.registry_wf w → h ∉ App.registered type w →
     App.off type h w = w ∧
     App.exec code (S n) (App.Off type h) w = Some (Normal, w)) ∧
  (∀ plugins, App.registry_wf (App.compose plugins)) ∧
  (∀ code n c w r w',
     App.registry_wf w → App.exec code n c w = Some (r, w') →
     App.registry_wf w') ∧
  (∀ ev l w,
     Pkg.read ev w ≠ Some Pkg.Builtin →
     (Pkg.on ev l w).1 = Normal ∧
     Pkg.registered ev (Pkg.on ev l w).2 = Pkg.registered ev w ++ [l] ∧
     (Pkg.off ev l (Pkg.on ev l w).2).1 = Normal ∧
     l ∉ Pkg.registered ev (Pkg.off ev l (Pkg.on ev l w).2).2) ∧
  (∀ code ev l w n d r w',
     (∀ f v, Pkg.cmd_forall (Pkg.not_on ev l) (code f v)) →
     Pkg.emit code n ev d (Pkg.off ev l (Pkg.on ev l w).2).2 = Some (r, w') →
     Pkg.invocations ev l (Pkg.trace w') = Pkg.invocations ev l (Pkg.trace w)) ∧
  (∀ code ev l w n,
     Pkg.read ev w ≠ Some Pkg.Builtin →
     l ∉ Pkg.registered ev w →
     Pkg.off ev l w = (Normal, w) ∧
     Pkg.exec code (S n) (Pkg.Off ev l) w = Some (Normal, w)) ∧
  (∀ plugins, Pkg.arrays_only (Pkg.createNodeFlow plugins)) ∧
  (∀ code n c w r w',
     Pkg.arrays_only w → Pkg.exec code n c w = Some (r, w') →
     Pkg.arrays_only w') ∧
  (∀ ev w,
     Pkg.arrays_only w → inherited ev = false →
     Pkg.read ev w ≠ Some Pkg.Builtin) ∧
  (∀ code n arg w,
     Pkg.call code n Pkg.on_result arg w = Some (Thrown TypeError, w)).
Proof.
  split_and!; [| | | | | | | | | | | |done].
  - intros type h w Hwf. by apply AppFacts.on_off_unregistered.
  - intros code type h w n w1.
    assert ((App.on type h w).2 = App.Off type h) as ->; [|done].
    unfold App.on. by destruct (App.listeners w !! type).
  - intros code type h w n d r w' Hwf Hcode Hinits H.
    set (w2 := App.off type h (App.on type h w).1) in *.
    assert (App.unregistered type h (App.invocations type h (App.trace w)) w2)
      as HI.
    { split_and!.
      - apply AppFacts.off_wf. by apply AppFacts.on_wf.
      - by apply AppFacts.on_off_unregistered.
      - subst w2. unfold App.off, App.on.
        destruct (App.listeners w !! type); simpl;
          rewrite ?lookup_insert_eq; simpl; by case_bool_decide.
      - subst w2. unfold App.off, App.on.
        destruct (App.listeners w !! type); simpl;
          rewrite ?lookup_insert_eq; simpl; by case_bool_decide. }
    destruct (AppFacts.unregistered_preserved code type h
                (App.invocations type h (App.trace w)) (S n) Hcode
                (App.Emit type (λ _ _, d)) w2 r w') as (_ & _ & Hinv & _);
      [by unfold App.not_on|exact HI|exact H|exact Hinv].
  - intros code type h w n Hwf Hnot.
    rewrite (AppFacts.off_unregistered type h w Hwf Hnot).
    split; [done|]. simpl.
    by rewrite (AppFacts.off_unregistered type h w Hwf Hnot).
  - apply AppFacts.compose_wf.
  - intros code n c w r w'. apply AppFacts.registry_wf_preserved.
  - intros ev l w Hb. split_and!.
    + rewrite PkgFacts.on_outcome. by destruct (Pkg.read ev w) as [[ls|]|].
    + rewrite PkgFacts.pkg_registered_on.
      by destruct (Pkg.read ev w) as [[ls|]|].
    + rewrite PkgFacts.off_outcome, PkgFacts.read_on.
      by destruct (Pkg.read ev w) as [[ls|]|].
    + rewrite PkgFacts.pkg_registered_off, list_elem_of_filter. tauto.
  - intros code ev l w n d r w' Hcode H.
    set (w2 := (Pkg.off ev l (Pkg.on ev l w).2).2) in *.
    assert (Pkg.unregistered ev l (Pkg.invocations ev l (Pkg.trace w)) w2)
      as HI.
    { split.
      - subst w2. rewrite PkgFacts.pkg_registered_off, list_elem_of_filter.
        tauto.
      - subst w2. by rewrite PkgFacts.trace_off, PkgFacts.trace_on. }
    destruct (PkgFacts.pkg_unregistered_preserved code ev l
                (Pkg.invocations ev l (Pkg.trace w)) (S n) Hcode
                (Pkg.Emit ev (λ _, d)) w2 r w') as (_ & Hinv);
      [by unfold Pkg.not_on|exact HI|exact H|exact Hinv].
  - intros code ev l w n Hb Hnot.
    rewrite (PkgFacts.pkg_off_unregistered ev l w Hb Hnot).
    split; [done|]. simpl.
    by rewrite (PkgFacts.pkg_off_unregistered ev l w Hb Hnot).
  - apply PkgFacts.arrays_only_fresh.
  - intros code n c w r w'. apply PkgFacts.arrays_only_preserved.
  - intros ev w Hw Hev Hb. apply Hw in Hb. congruence.
Qed.

Lemma on_off_unsubscribes_witness :
  (∃ w2 w',
     App.exec Examples.code 1
       (App.on "e" 3 (App.compose [Examples.counter])).2 Examples.listening
       = Some (Normal, w2) ∧
     w2 = App.off "e" 3 Examples.listening ∧
     App.emit Examples.code 5 App.ByCode "e" (VNum 7) w2 = Some (Normal, w') ∧
     App.invocations "e" 3 (App.trace w') = 0 ∧
     App.off "e" 4 Examples.listening = Examples.listening) ∧
  (Pkg.on "e" 3 (Pkg.createNodeFlow [])).1 = Normal ∧
  (Pkg.off "e" 3 Examples.pkg_listening).1 = Normal ∧
  (3 ∉ Pkg.registered "e" (Pkg.off "e" 3 Examples.pkg_listening).2) ∧
  Pkg.off "e" 4 Examples.pkg_listening = (Normal, Examples.pkg_listening).
Proof.
  set (w := App.compose [Examples.counter]).
  destruct on_off_unsubscribes
    as (_ & Hunsub & Hzero & Hnoop & Hwf & _ & HP & _ & HPnoop & Hfresh & _
        & Hread & _).
  split_and!.
  - exists (App.off "e" 3 Examples.listening).
    destruct (App.emit Examples.code 5 App.ByCode "e" (VNum 7)
                (App.off "e" 3 Examples.listening)) as [[[|e] w']|] eqn:E;
      try (vm_compute in E; discriminate).
    exists w'. split_and!.
    + exact (proj2 (Hunsub Examples.code "e" 3 w 0 Examples.listening)).
    + done.
    + done.
    + rewrite (Hzero Examples.code "e" 3 w 5 (VNum 7) Normal w').
      * reflexivity.
      * apply Hwf.
      * by intros [|[|f]] v.
      * by constructor.
      * exact E.
    + refine (proj1 (Hnoop Examples.code "e" 4 Examples.listening 0 _ _)).
      * apply AppFacts.on_wf, Hwf.
      * vm_compute. intros H. by repeat (apply elem_of_cons in H as [[=]|H]);
          apply not_elem_of_nil in H.
  - apply (HP "e" 3 (Pkg.createNodeFlow [])).
    apply Hread; [apply Hfresh|reflexivity].
  - apply (HP "e" 3 (Pkg.createNodeFlow [])).
    apply Hread; [apply Hfresh|reflexivity].
  - apply (HP "e" 3 (Pkg.createNodeFlow [])).
    apply Hread; [apply Hfresh|reflexivity].
  - refine (proj1 (HPnoop Examples.pkg_code "e" 4 Examples.pkg_listening 0 _ _)).
    + vm_compute. discriminate.
    + vm_compute. intros H. by repeat (apply elem_of_cons in H as [[=]|H]);
        apply not_elem_of_nil in H.
Defined.

(** C9, as the claim states it, fails in nodeflow.ts: after
    [on("e", 3)] and [off("e", 3)] the registry still maps "e" to an
    array, which is empty. *)
Lemma pkg_off_leaves_empty_array :
  Pkg.listeners
    (Pkg.off "e" 3 (Pkg.on "e" 3 (Pkg.createNodeFlow [])).2).2 !! "e"
  = Some (Pkg.Listeners []).
Proof. reflexivity. Qed.

(** C9, amended.  In app.tsx an [off] releases the key of the event
    exactly when no listener is left for it, so that the registry never
    maps an event to a set without listeners: this holds after [create]
    and is kept by [on], by [off] and by every execution.  In
    nodeflow.ts [off] never releases a key: the event stays mapped to
    the filtered array, empty when the last listener was removed. *)
Theorem off_releases_empty_key :
  (∀ type h w,
     App.registry_wf w → is_Some (App.listeners w !! type) →
     (App.listeners (App.off type h w) !! type = None ↔
      filter (λ x, x ≠ h) (App.registered type w) = []) ∧
     (App.registered type w = [h] →
      App.listeners (App.off type h w) !! type = None)) ∧
  (∀ w type,
     App.registry_wf w → is_Some (App.listeners w !! type) →
     App.registered type w ≠ []) ∧
  (∀ plugins, App.registry_wf (App.compose plugins)) ∧
  (∀ type h w, App.registry_wf w →
     App.registry_wf (App.on type h w).1 ∧ App.registry_wf (App.off type h w)) ∧
  (∀ code n c w r w',
     App.registry_wf w → App.exec code n c w = Some (r, w') →
     App.registry_wf w') ∧
  (∀ ev l w ls,
     Pkg.listeners w !! ev = Some (Pkg.Listeners ls) →
     (Pkg.off ev l w).1 = Normal ∧
     Pkg.listeners (Pkg.off ev l w).2 !! ev
     = Some (Pkg.Listeners (filter (λ x, x ≠ l) ls))).
Proof.
  split_and!.
  - intros type h w Hwf Hsome.
    destruct (AppFacts.listeners_off type h w Hwf Hsome) as [Hiff _].
    split; [exact Hiff|]. intros Hreg. apply Hiff. rewrite Hreg.
    rewrite filter_cons, filter_nil. by case_decide.
  - intros w type Hwf. by apply App.wf_nonempty.
  - apply AppFacts.compose_wf.
  - intros type h w Hwf. split; [by apply AppFacts.on_wf|by apply AppFacts.off_wf].
  - intros code n c w r w'. apply AppFacts.registry_wf_preserved.
  - apply PkgFacts.off_keeps_key.
Qed.

Lemma off_releases_empty_key_witness :
  App.listeners Examples.listening !! "e" = Some 0 ∧
  App.listeners (App.off "e" 3 Examples.listening) !! "e" = None.
Proof.
  split; [reflexivity|].
  destruct off_releases_empty_key as (Hoff & _ & Hwf & Hon & _).
  apply (Hoff "e" 3 Examples.listening).
  - apply Hon, Hwf.
  - by eexists.
  - reflexivity.
Defined.

(** C10.  In app.tsx, [emit] of an event that has no registered
    listener returns normally, calls no listener, and leaves every
    field of the instance as it was: only the call itself is observed.
    In nodeflow.ts this is so for the event names that do not read as a
    member of [Object.prototype]; for those that do, which have no
    registered listener either, [emit] throws a TypeError, and on an
    instance of [createNodeFlow] these are the names that
    [Object.prototype] has, such as "constructor". *)
Theorem emit_without_listeners :
  (∀ code o type data w n,
     App.registered type w = [] →
     length (App.entries_of type w) < n →
     App.emit code n o type data w
     = Some (Normal, App.log (App.Fired o type data) w)) ∧
  (∀ ev w,
     App.state (App.log ev w) = App.state w ∧
     App.api (App.log ev w) = App.api w ∧
     App.listeners (App.log ev w) = App.listeners w ∧
     App.objs (App.log ev w) = App.objs w ∧
     App.sets (App.log ev w) = App.sets w ∧
     App._init (App.log ev w) = App._init w ∧
     App.initialized (App.log ev w) = App.initialized w ∧
     App.changing (App.log ev w) = App.changing w ∧
     App.trace (App.log ev w) = App.trace w ++ [ev]) ∧
  (∀ code ev d w n,
     Pkg.read ev w ≠ Some Pkg.Builtin →
     Pkg.registered ev w = [] →
     Pkg.emit code (S n) ev d w = Some (Normal, Pkg.log (Pkg.Fired ev d) w)) ∧
  (∀ ev w,
     Pkg.state (Pkg.log ev w) = Pkg.state w ∧
     Pkg.api (Pkg.log ev w) = Pkg.api w ∧
     Pkg.listeners (Pkg.log ev w) = Pkg.listeners w ∧
     Pkg.trace (Pkg.log ev w) = Pkg.trace w ++ [ev]) ∧
  (∀ code ev d w n,
     Pkg.read ev w = Some Pkg.Builtin →
     Pkg.registered ev w = [] ∧
     Pkg.emit code n ev d w
     = Some (Thrown TypeError, Pkg.log (Pkg.Fired ev d) w)) ∧
  (∀ plugins ev,
     inherited ev = true →
     Pkg.read ev (Pkg.createNodeFlow plugins) = Some Pkg.Builtin).
Proof.
  split_and!.
  - intros code o type data w n Hreg Hn. by apply AppFacts.emit_no_listeners.
  - done.
  - intros code ev d w n Hb Hreg. by apply PkgFacts.pkg_emit_no_listeners.
  - done.
  - intros code ev d w n Hb. split.
    + unfold Pkg.registered. by rewrite Hb.
    + by apply PkgFacts.pkg_emit_builtin.
  - intros plugins ev. apply PkgFacts.arrays_only_fresh.
Qed.

Lemma emit_without_listeners_witness :
  App.emit Examples.code 1 App.ByCode "e" (VNum 7)
    (App.compose [Examples.counter])
  = Some (Normal,
          App.log (App.Fired App.ByCode "e" (VNum 7))
            (App.compose [Examples.counter])) ∧
  Pkg.emit Examples.pkg_code 1 "e" (VNum 7)
    (Pkg.off "e" 3 Examples.pkg_listening).2
  = Some (Normal,
          Pkg.log (Pkg.Fired "e" (VNum 7))
            (Pkg.off "e" 3 Examples.pkg_listening).2) ∧
  Pkg.registered "constructor" (Pkg.createNodeFlow []) = [] ∧
  Pkg.emit Examples.pkg_code 1 "constructor" (VNum 7) (Pkg.createNodeFlow [])
  = Some (Thrown TypeError,
          Pkg.log (Pkg.Fired "constructor" (VNum 7)) (Pkg.createNodeFlow [])).
Proof.
  destruct emit_without_listeners as (HA & _ & HP & _ & HB & HF).
  split_and!.
  - apply HA; [reflexivity|]. vm_compute. lia.
  - apply HP; [vm_compute; discriminate|reflexivity].
  - apply (HB Examples.pkg_code "constructor" (VNum 7) _ 1).
    by apply HF.
  - apply (HB Examples.pkg_code "constructor" (VNum 7) _ 1).
    by apply HF.
Defined.

(** * Further lemmas *)

Module MergeFacts.

Lemma foldl_assign_is_Some (fs : list obj) k : ∀ acc : obj,
  is_Some (foldl assign acc fs !! k) ↔
  is_Some (acc !! k) ∨ ∃ f, f ∈ fs ∧ is_Some (f !! k).
Proof.
  induction fs as [|g fs IH]; intros acc; simpl.
  - split; [by left|]. intros [H|(f & Hf & _)]; [done|].
    by apply elem_of_nil in Hf.
  - rewrite IH. unfold assign. rewrite lookup_union_is_Some. split.
    + intros [[Hg|Ha]|(f & Hf & Hk)].
      * right. exists g. split; [by left|done].
      * by left.
      * right. exists f. split; [by right|done].
    + intros [Ha|(f & Hf & Hk)]; [by left; right|].
      apply elem_of_cons in Hf as [->|Hf]; [by left; left|].
      right. by exists f.
Qed.

(** The keys of a shallow merge are the keys of its fragments. *)
Lemma shallow_merge_is_Some (fs : list obj) k :
  is_Some (shallow_merge fs !! k) ↔ ∃ f, f ∈ fs ∧ is_Some (f !! k).
Proof.
  unfold shallow_merge. rewrite foldl_assign_is_Some, lookup_empty.
  split; [|by right]. intros [H|H]; [|done]. by destruct H.
Qed.

End MergeFacts.

Module RegistryAlgebra.
Import App AppFacts.

Lemma set_add_idem h es : set_add h (set_add h es) = set_add h es.
Proof.
  unfold set_add. destruct (set_has h es) eqn:E.
  - by rewrite E.
  - assert (set_has h (es ++ [Some h]) = true) as ->; [|done].
    apply bool_decide_eq_true. apply elem_of_app. right. by left.
Qed.

Lemma alter_set_add_idem h s (ss : list (list (option fid))) :
  alter (set_add h) s (alter (set_add h) s ss) = alter (set_add h) s ss.
Proof.
  rewrite list_alter_alter_eq. apply list_alter_ext; [|done].
  intros es _. apply set_add_idem.
Qed.

(** [on] with a handler that is registered changes nothing: a [Set]
    holds a function once. *)
Lemma on_idem t h w : (on t h (on t h w).1).1 = (on t h w).1.
Proof.
  destruct w as [st ap ini inz chg ls os ss tr]. unfold on. simpl.
  destruct (ls !! t) as [s|] eqn:Hs; simpl.
  - rewrite lookup_insert_eq. simpl.
    by rewrite alter_set_add_idem, insert_insert_eq.
  - rewrite lookup_insert_eq. simpl.
    by rewrite alter_set_add_idem, insert_insert_eq.
Qed.

Lemma listeners_on_ne t t' h w :
  t ≠ t' → listeners (on t h w).1 !! t' = listeners w !! t'.
Proof.
  intros Hne. unfold on.
  destruct (listeners w !! t); simpl; by rewrite lookup_insert_ne.
Qed.

Lemma listeners_off_ne t t' h w :
  t ≠ t' → listeners (off t h w) !! t' = listeners w !! t'.
Proof.
  intros Hne. unfold off. destruct (listeners w !! t); [|done]. simpl.
  case_bool_decide; simpl; [by rewrite lookup_delete_ne|done].
Qed.

Lemma key_iff_registered t w :
  registry_wf w → is_Some (listeners w !! t) ↔ registered t w ≠ [].
Proof.
  intros Hwf. split; [apply (wf_nonempty _ Hwf)|].
  unfold registered, entries_of.
  destruct (listeners w !! t); [by eexists|]. by intros [].
Qed.

Lemma on_frame t h w :
  state (on t h w).1 = state w ∧ api (on t h w).1 = api w ∧
  objs (on t h w).1 = objs w ∧ trace (on t h w).1 = trace w ∧
  changing (on t h w).1 = changing w ∧
  initialized (on t h w).1 = initialized w ∧ _init (on t h w).1 = _init w.
Proof. unfold on. by destruct (listeners w !! t). Qed.

Lemma off_frame t h w :
  state (off t h w) = state w ∧ api (off t h w) = api w ∧
  objs (off t h w) = objs w ∧ trace (off t h w) = trace w ∧
  changing (off t h w) = changing w ∧
  initialized (off t h w) = initialized w ∧ _init (off t h w) = _init w.
Proof.
  unfold off. destruct (listeners w !! t); [|done]. simpl.
  by case_bool_decide.
Qed.



Lemma filter_other (h : fid) (hs : list fid) :
  h ∉ hs → filter (λ x, x ≠ h) hs = hs ∧ filter (λ x, x = h) hs = [].
Proof.
  induction hs as [|x hs IH]; [done|]. intros Hn.
  apply not_elem_of_cons in Hn as [Hne Hn]. destruct (IH Hn) as [IH1 IH2].
  rewrite !filter_cons. rewrite decide_True by congruence.
  rewrite decide_False by congruence. by rewrite IH1, IH2.
Qed.

Section Fuel.

Variable code : fid → value → cmd.

Lemma depth_bound (d : value) (hs : list fid) :
  Forall (λ h, depth (code h d)
               ≤ foldr (λ h n, depth (code h d) `max` n) 0 hs) hs.
Proof.
  induction hs as [|h hs IH]; [done|]. constructor; simpl; [lia|].
  eapply Forall_impl; [exact IH|]. simpl. intros. lia.
Qed.

(** With straight-line listeners [emit] returns. *)
Lemma writes_only_emit o type d w :
  (∀ f v, writes_only (code f v)) →
  ∃ w', emit code (emit_fuel code type d w) o type d w = Some (Normal, w').
Proof.
  intros Hcode.
  destruct (AppRuns.plain_emit code o type d
              (foldr (λ h n, depth (code h d) `max` n) 0 (registered type w)) w)
    as (w' & E & _).
  - eapply Forall_impl; [apply depth_bound|]. simpl. intros h Hh.
    split; [apply Hcode|exact Hh].
  - by exists w'.
Qed.

End Fuel.

End RegistryAlgebra.

Module Failures.
Import App AppFacts.

Section Runs.

Variable code : fid → value → cmd.

(** The thunks run by an [_init()] that is left by an exception: those
    up to the one that threw. *)
Lemma run_inits_thrown ts : ∀ n k w e w',
  initialized w = true →
  run_inits code n ts k w = Some (Thrown e, w') →
  initialized w' = true ∧
  ∃ j, j < length ts ∧
       init_calls (trace w') = init_calls (trace w) ++ seq k (S j).
Proof.
  induction ts as [|t ts IH]; intros [|n] k w e w' Hi H; simpl in H;
    try done.
  inv_bind H as w1 E1 H.
  - destruct (initialized_preserved code _ _ _ _ _ _
                (conj (Hi : initialized (log (InitCalled k) w) = true) eq_refl)
                E1) as [Hi1 Hc1].
    destruct (IH _ _ _ _ _ Hi1 H) as (Hi' & j & Hj & Hc).
    split; [done|]. exists (S j). split; [simpl; lia|].
    rewrite Hc, Hc1, init_calls_log. cbn [seq]. by rewrite <- app_assoc.
  - injection H as -> <-.
    destruct (initialized_preserved code _ _ _ _ _ _
                (conj (Hi : initialized (log (InitCalled k) w) = true) eq_refl)
                E1) as [Hi1 Hc1].
    split; [done|]. exists 0. split; [simpl; lia|].
    by rewrite Hc1, init_calls_log.
Qed.

Lemma init_thrown n w e w' :
  init code n w = Some (Thrown e, w') →
  initialized w = false ∧ initialized w' = true ∧
  ∃ j, j < length (inits_of (_init w)) ∧
       init_calls (trace w') = init_calls (trace w) ++ seq 0 (S j).
Proof.
  unfold init, init_with, call__init_with. intros H.
  destruct (initialized w) eqn:Hi; [done|]. split; [done|].
  change (_init (set_initialized true w)) with (_init w) in H.
  destruct (_init w) as [|ts]; [done|]. simpl.
  exact (run_inits_thrown ts n 0 (set_initialized true w) e w' eq_refl H).
Qed.

(** The cleanups run by a teardown that is left by an exception: those
    up to the one that threw. *)
Lemma run_cleanups_thrown cleanups : ∀ n w e w',
  run_cleanups code n cleanups w = Some (Thrown e, w') →
  ∃ j, j < length cleanups ∧
       cleanup_calls (trace w')
       = cleanup_calls (trace w) ++ take (S j) cleanups.*1.
Proof.
  induction cleanups as [|[k c] cleanups IH]; intros n w e w' H; simpl in H;
    [done|].
  inv_bind H as w1 E1 H.
  - destruct (IH _ _ _ _ H) as (j & Hj & Hc). exists (S j).
    split; [simpl; lia|].
    rewrite Hc, (cleanup_calls_preserved code _ _ _ _ _ _ eq_refl E1).
    rewrite cleanup_calls_log. rewrite fmap_cons. cbn [fst take].
    by rewrite <- app_assoc.
  - injection H as -> <-. exists 0. split; [simpl; lia|].
    rewrite (cleanup_calls_preserved code _ _ _ _ _ _ eq_refl E1).
    rewrite cleanup_calls_log. by rewrite fmap_cons.
Qed.

End Runs.

End Failures.

Module CoreFacts.
Import App AppFacts Core.

Section Any.

Variable code : fid → value → cmd.

(** Nothing in a run gives the api object a method it lacks. *)
Lemma lacks_method_preserved name n c w r w' :
  lacks_method name w → exec code n c w = Some (r, w') →
  lacks_method name w'.
Proof.
  assert (Hframe : ∀ w0 w1 : World,
            api w1 = api w0 → objs w1 = objs w0 → state w1 = state w0 →
            lacks_method name w0 → lacks_method name w1).
  { intros w0 w1 Ha Ho Hs (?&?&?). unfold lacks_method.
    rewrite Ha, Ho, Hs. done. }
  intros HI H.
  edestruct (preservation code (lacks_method name) (λ _, True)
               (λ _ _ _, True)) with (n := n) as (He & _ & _).
  - intros. apply cmd_forall_True.
  - intros e w0 _. by apply Hframe.
  - intros k e w0 _ (Hlt & Hne & Hno). unfold lacks_method, write_field.
    simpl. rewrite length_alter. split_and!; [done|done|].
    intros f. rewrite list_lookup_alter_ne by done. apply Hno.
  - intros f w0 _ (Hlt & Hne & Hno). unfold lacks_method, replace_state.
    simpl. rewrite length_app. simpl. split_and!; [lia|lia|].
    intros g. rewrite lookup_app_l by done. apply Hno.
  - intros t h w0 _.
    destruct (RegistryAlgebra.on_frame t h w0) as (?&?&?&_). by apply Hframe.
  - intros t h w0 _.
    destruct (RegistryAlgebra.off_frame t h w0) as (?&?&?&_). by apply Hframe.
  - intros t e w0 _. by apply Hframe.
  - intros t s i h d w0 HI0 _ _. revert HI0. by apply Hframe.
  - done.
  - done.
  - done.
  - right. split_and!; [intros w0 HI0 _|intros w0 HI0|intros w0 HI0];
      revert HI0; by apply Hframe.
  - right; right. split_and!.
    + intros w0 HI0 _. revert HI0. by apply Hframe.
    + intros k w0. by apply Hframe.
    + intros w0 _. apply Forall_forall. intros. apply cmd_forall_True.
  - eapply He; [apply cmd_forall_True|exact HI|exact H].
Qed.

(** [addEdges] on an instance whose api has no [setState]. *)
Lemma addEdges_throws u edges w n r w' :
  lacks_method "setState" w →
  exec code n (addEdges u edges) w = Some (r, w') →
  r ≠ Normal ∧ lacks_method "setState" w'.
Proof.
  intros HI H. split; [|by eapply lacks_method_preserved].
  intros ->. unfold addEdges in H.
  destruct n as [|n1]; [done|]. cbn [exec] in H.
  inv_bind H as w1 E1 H; [|done].
  pose proof (lacks_method_preserved _ _ _ _ _ _ HI E1) as (_ & _ & Hno).
  destruct n1 as [|n2]; [done|]. cbn [exec] in H.
  inv_bind H as w2 E2 H; [|done].
  destruct n2 as [|n3]; [done|]. cbn [exec] in E2.
  change (method_name setState) with "setState" in E2.
  destruct (objs w1 !! api w1 ≫= (.!! "setState")) as [[]|] eqn:E; try done.
  by destruct (Hno f).
Qed.

Lemma addEdges_type_error u edges w n :
  lacks_method "setState" w →
  listeners w !! "beforeAddEdges" = None →
  exec code (S (S (S n))) (addEdges u edges) w
  = Some (Thrown TypeError, log (Fired ByCode "beforeAddEdges" edges) w).
Proof.
  intros (_ & _ & Hno) Hl. unfold addEdges. cbn [exec].
  unfold emit_with. simpl. rewrite Hl. simpl.
  destruct (objs w !! api w ≫= (.!! "setState")) as [[]|] eqn:E; try done.
  by destruct (Hno f).
Qed.

End Any.

(** The instance that [create] composes is the object [new NodeFlow()]
    made: [Object.assign] writes into its state and api objects. *)
Lemma compose_objects plugins :
  state (compose plugins) = 0 ∧ api (compose plugins) = 1 ∧
  length (objs (compose plugins)) = 2.
Proof.
  unfold compose.
  destruct (create_loop_spec plugins new_NodeFlow [] ∅ ∅)
    as (os & Hloop & Hlen & _); [done..|].
  rewrite Hloop. simpl. by rewrite Hlen.
Qed.

Lemma compose_lacks_method name plugins :
  Forall (λ r, props (p_api r) !! name = None)
    (contributions plugins new_NodeFlow) →
  lacks_method name (compose plugins).
Proof.
  intros Hno. destruct (compose_objects plugins) as (Hs & Ha & Hlen).
  destruct (compose_spec plugins) as (_ & Hapi & _).
  unfold lacks_method. rewrite Hs, Hlen. rewrite Ha in *.
  split_and!; [lia|lia|]. intros f. rewrite Hapi. simpl.
  unfold shallow_merge. rewrite foldl_assign_lookup_None.
  - by rewrite lookup_empty.
  - by apply Forall_fmap.
Qed.

End CoreFacts.

Module PkgRuns.
Import Pkg PkgFacts.

Section Runs.

Variable code : fid → value → cmd.





End Runs.

End PkgRuns.

(** * Further properties of nodeflow.ts *)





(** X3. Whatever the plugins, the instance of [createNodeFlow] has the
    collections [nodes] and [edges] in its state and the methods
    [addNode] and [addEdge] in its api; a key that no plugin gives has
    the value the core gives it, and a key that a plugin gives is a
    key of the instance: plugins add and replace keys, they remove
    none. *)
Theorem createNodeFlow_core_present :
  ∀ plugins,
    let w := Pkg.createNodeFlow plugins in
    (is_Some (Pkg.state w !! "nodes") ∧ is_Some (Pkg.state w !! "edges") ∧
     is_Some (Pkg.api w !! "addNode") ∧ is_Some (Pkg.api w !! "addEdge")) ∧
    (∀ k,
       Forall (λ p, default ∅ (Pkg.p_state p) !! k = None) plugins →
       Pkg.state w !! k = Pkg.coreState !! k) ∧
    (∀ k,
       Forall (λ factory : obj → fragment,
                 props (factory (Pkg.state w)) !! k = None)
         (omap Pkg.p_api plugins) →
       Pkg.api w !! k = props (Pkg.coreApiFactory (Pkg.state w)) !! k) ∧
    (∀ p o k,
       p ∈ plugins → Pkg.p_state p = Some o → is_Some (o !! k) →
       is_Some (Pkg.state w !! k)) ∧
    (∀ p factory k,
       p ∈ plugins → Pkg.p_api p = Some factory →
       is_Some (props (factory (Pkg.state w)) !! k) →
       is_Some (Pkg.api w !! k)).
Proof.
  intros plugins w.
  destruct (PkgFacts.createNodeFlow_spec plugins) as (Hs & Ha & _).
  fold w in Hs, Ha.
  assert (Hcore : ∀ k, is_Some (Pkg.coreState !! k) → is_Some (Pkg.state w !! k)).
  { intros k Hk. rewrite Hs. unfold assign.
    apply lookup_union_is_Some. by right. }
  assert (Hapi : ∀ k, is_Some (props (Pkg.coreApiFactory (Pkg.state w)) !! k) →
                      is_Some (Pkg.api w !! k)).
  { intros k Hk. rewrite Ha. apply MergeFacts.shallow_merge_is_Some.
    eexists. split; [by left|done]. }
  split_and!.
  - by apply Hcore.
  - by apply Hcore.
  - by apply Hapi.
  - by apply Hapi.
  - intros k Hk. rewrite Hs. unfold assign. apply lookup_union_r.
    unfold shallow_merge. rewrite foldl_assign_lookup_None; [done|].
    apply Forall_fmap. exact Hk.
  - intros k Hk. rewrite Ha. unfold shallow_merge. simpl.
    rewrite foldl_assign_lookup_None.
    + unfold assign. by rewrite lookup_union_l.
    + apply Forall_fmap. exact Hk.
  - intros p o k Hp Ho Hk. rewrite Hs. unfold assign.
    apply lookup_union_is_Some. left.
    apply MergeFacts.shallow_merge_is_Some. exists o. split; [|done].
    apply list_elem_of_fmap. exists p. by rewrite Ho.
  - intros p factory k Hp Hf Hk. rewrite Ha.
    apply MergeFacts.shallow_merge_is_Some.
    exists (props (factory (Pkg.state w))). split; [|done].
    right. apply list_elem_of_fmap. exists factory. split; [done|].
    apply list_elem_of_omap. by exists p.
Qed.

Lemma createNodeFlow_core_present_witness :
  Pkg.state (Pkg.createNodeFlow [Examples.pkg_with_state Examples.x1])
    !! "nodes" = Some (VObj []) ∧
  Pkg.api (Pkg.createNodeFlow [Examples.pkg_with_state Examples.x1])
    !! "addEdge" = Some (VFun Pkg.core_addEdge) ∧
  is_Some (Pkg.state (Pkg.createNodeFlow [Examples.pkg_with_state Examples.x1])
             !! "x").
Proof.
  destruct (createNodeFlow_core_present [Examples.pkg_with_state Examples.x1])
    as (_ & H1 & H2 & H3 & _).
  split_and!.
  - rewrite (H1 "nodes"); [done|]. by repeat constructor.
  - rewrite (H2 "addEdge"); [done|]. by repeat constructor.
  - apply (H3 (Examples.pkg_with_state Examples.x1) (props Examples.x1) "x").
    + by left.
    + reflexivity.
    + by eexists.
Defined.

(** * Further properties of app.tsx *)

(** X4. [emit] of app.tsx calls the listeners registered for the event
    in the order of their registration, each once, until one throws:
    with listeners that leave the event bus alone, the calls made are
    those of a front part of the registered listeners, of all of them
    when [emit] returns, and the registry is as before; when the
    callbacks are straight-line code, [emit] returns. *)
Theorem emit_calls_in_registration_order (code : fid → value → App.cmd) :
  (∀ o type d w n r w',
     (∀ f v, App.quiet (code f v)) →
     App.emit code n o type d w = Some (r, w') →
     ∃ visited rest,
       App.registered type w = visited ++ rest ∧
       App.calls (App.trace w')
       = App.calls (App.trace w)
         ++ ((λ h, App.Invoked type h d) <$> visited) ∧
       (r = Normal → rest = []) ∧
       App.listeners w' = App.listeners w ∧ App.sets w' = App.sets w) ∧
  (∀ o type d w,
     (∀ f v, App.writes_only (code f v)) →
     ∃ w', App.emit code (App.emit_fuel code type d w) o type d w
           = Some (Normal, w')).
Proof.
  split.
  - intros o type d w n r w' Hcode H.
    destruct (AppRuns.quiet_emit code _ _ _ _ _ _ _ Hcode H)
      as (visited & rest & ? & ? & ? & _ & ? & ? & _).
    by exists visited, rest.
  - intros o type d w. apply RegistryAlgebra.writes_only_emit.
Qed.

Lemma emit_calls_in_registration_order_witness :
  ∃ w',
    App.emit Examples.app_logs
      (App.emit_fuel Examples.app_logs "e" (VNum 7) Examples.app_two)
      App.ByCode "e" (VNum 7) Examples.app_two = Some (Normal, w') ∧
    App.calls (App.trace w')
    = [App.Invoked "e" 5 (VNum 7); App.Invoked "e" 6 (VNum 7)].
Proof.
  destruct (emit_calls_in_registration_order Examples.app_logs) as [H1 H2].
  destruct (H2 App.ByCode "e" (VNum 7) Examples.app_two) as [w' E];
    [done|].
  exists w'. split; [exact E|].
  destruct (H1 _ _ _ _ _ _ _ (λ _ _, I) E)
    as (visited & rest & Hv & Hc & Hr & _).
  rewrite (Hr eq_refl), app_nil_r in Hv. subst visited. exact Hc.
Defined.

(** X5. A handler registered twice for an event is held once: the
    second [on] changes nothing, an [emit] that returns has called the
    handler once, and one [off] removes it. *)
Theorem on_twice_is_on_once (code : fid → value → App.cmd) :
  (∀ type h w,
     (App.on type h (App.on type h w).1).1 = (App.on type h w).1) ∧
  (∀ o type h d w n w',
     (∀ f v, App.quiet (code f v)) →
     App.registry_wf w → h ∉ App.registered type w →
     App.emit code n o type d (App.on type h (App.on type h w).1).1
       = Some (Normal, w') →
     App.invocations type h (App.trace w')
     = App.invocations type h (App.trace w) + 1) ∧
  (∀ type h w,
     App.registry_wf w →
     h ∉ App.registered type
           (App.off type h (App.on type h (App.on type h w).1).1)).
Proof.
  split_and!.
  - apply RegistryAlgebra.on_idem.
  - intros o type h d w n w' Hcode Hwf Hh H.
    rewrite RegistryAlgebra.on_idem in H.
    destruct (AppRuns.quiet_emit code _ _ _ _ _ _ _ Hcode H)
      as (visited & rest & Hv & Hc & Hr & _).
    rewrite (Hr eq_refl), app_nil_r in Hv. subst visited.
    rewrite <- (AppRuns.invocations_of_calls _ _ (App.trace w')), Hc.
    rewrite AppRuns.invocations_app, AppRuns.invocations_of_calls.
    rewrite AppRuns.invocations_invoked.
    rewrite (proj1 (proj2 (proj2 (proj2 (RegistryAlgebra.on_frame type h w))))).
    f_equal. rewrite AppFacts.registered_on by done.
    rewrite decide_False by done.
    rewrite filter_app, length_app.
    rewrite (proj2 (RegistryAlgebra.filter_other _ _ Hh)).
    simpl. rewrite filter_cons, filter_nil. by rewrite decide_True.
  - intros type h w Hwf. rewrite RegistryAlgebra.on_idem.
    by apply AppFacts.on_off_unregistered.
Qed.

Lemma on_twice_is_on_once_witness :
  ∃ w',
    App.emit Examples.app_logs 3 App.ByCode "e" (VNum 7) Examples.app_twice
      = Some (Normal, w') ∧
    App.invocations "e" 4 (App.trace w') = 1 ∧
    App.registered "e" Examples.app_twice = [4].
Proof.
  assert (E : ∃ w',
            App.emit Examples.app_logs 3 App.ByCode "e" (VNum 7)
              Examples.app_twice = Some (Normal, w'))
    by (eexists; vm_compute; reflexivity).
  destruct E as [w' E]. exists w'. split; [exact E|]. split; [|reflexivity].
  refine (proj1 (proj2 (on_twice_is_on_once Examples.app_logs))
            App.ByCode "e" 4 (VNum 7) (App.compose []) 3 w' (λ _ _, I)
            (AppFacts.compose_wf []) _ E).
  apply not_elem_of_nil.
Defined.

(** X6. In app.tsx, registering a handler that was not registered and
    removing it again is a round trip: every event has the listeners it
    had, in the same order, the registry has the keys it had, and the
    state, the heap of objects and the trace are untouched. *)
Theorem on_off_round_trip :
  ∀ type h w,
    App.registry_wf w → h ∉ App.registered type w →
    let w' := App.off type h (App.on type h w).1 in
    (∀ t, App.registered t w' = App.registered t w) ∧
    (∀ t, is_Some (App.listeners w' !! t) ↔ is_Some (App.listeners w !! t)) ∧
    App.registry_wf w' ∧
    App.state w' = App.state w ∧ App.objs w' = App.objs w ∧
    App.trace w' = App.trace w.
Proof.
  intros type h w Hwf Hh w'.
  pose proof (AppFacts.on_wf type h w Hwf) as Hwf1.
  assert (Hreg : App.registered type w' = App.registered type w).
  { subst w'. rewrite AppFacts.registered_off by done.
    rewrite AppFacts.registered_on by done. rewrite decide_False by done.
    rewrite filter_app, (proj1 (RegistryAlgebra.filter_other _ _ Hh)).
    rewrite filter_cons, filter_nil, decide_False by (intros Hx; by apply Hx).
    by rewrite app_nil_r. }
  pose proof (AppFacts.off_wf type h _ Hwf1) as Hwf'. fold w' in Hwf'.
  split_and!.
  - intros t. destruct (decide (type = t)) as [<-|Hne]; [done|].
    subst w'. rewrite AppFacts.registered_off_ne by done.
    by apply AppFacts.registered_on_ne.
  - intros t. destruct (decide (type = t)) as [<-|Hne].
    + rewrite !RegistryAlgebra.key_iff_registered by done. by rewrite Hreg.
    + subst w'. rewrite RegistryAlgebra.listeners_off_ne by done.
      by rewrite RegistryAlgebra.listeners_on_ne.
  - done.
  - subst w'. rewrite (proj1 (RegistryAlgebra.off_frame _ _ _)).
    apply RegistryAlgebra.on_frame.
  - subst w'. rewrite (proj1 (proj2 (proj2 (RegistryAlgebra.off_frame _ _ _)))).
    apply RegistryAlgebra.on_frame.
  - subst w'.
    rewrite (proj1 (proj2 (proj2 (proj2 (RegistryAlgebra.off_frame _ _ _))))).
    apply RegistryAlgebra.on_frame.
Qed.

Lemma on_off_round_trip_witness :
  App.registered "e" (App.off "e" 4 (App.on "e" 4 Examples.listening).1) = [3] ∧
  App.registered "e" Examples.listening = [3].
Proof.
  destruct (on_off_round_trip "e" 4 Examples.listening) as (H & _).
  - exact (AppFacts.on_wf "e" 3 _ (AppFacts.compose_wf [Examples.counter])).
  - intros [E|E]%elem_of_cons; [done|]. by apply elem_of_nil in E.
  - split; [|reflexivity]. by rewrite (H "e").
Defined.



(** X8. An [init()] that is left by the exception of an init thunk is
    final: [initialized] stays set, the thunks called are those up to
    the one that threw, and every later [init()] returns at once
    without calling any thunk; the same holds of [create] with
    [autoInit], whose call of [init()] it is. *)
Theorem init_failure_is_final (code : fid → value → App.cmd) :
  (∀ w n e w',
     App.init code n w = Some (Thrown e, w') →
     App.initialized w = false ∧ App.initialized w' = true ∧
     (∃ j, j < length (App.inits_of (App._init w)) ∧
           App.init_calls (App.trace w')
           = App.init_calls (App.trace w) ++ seq 0 (S j)) ∧
     ∀ m, App.init code m w' = Some (Normal, w')) ∧
  (∀ plugins n e w',
     App.create code n plugins true = Some (Thrown e, w') →
     App.init code n (App.compose plugins) = Some (Thrown e, w') ∧
     ∃ j, j < length plugins ∧ App.init_calls (App.trace w') = seq 0 (S j)).
Proof.
  split.
  - intros w n e w' H.
    destruct (Failures.init_thrown code _ _ _ _ H) as (H1 & H2 & H3).
    split_and!; try done. intros m. by apply AppFacts.init_again.
  - intros plugins n e w' H. unfold App.create in H.
    assert (Hi : App.init code n (App.compose plugins) = Some (Thrown e, w')).
    { destruct (App.init code n (App.compose plugins)) as [[[|e'] w1]|];
        simpl in H; congruence. }
    split; [exact Hi|].
    destruct (Failures.init_thrown code _ _ _ _ Hi) as (_ & _ & j & Hj & Hc).
    destruct (AppFacts.compose_spec plugins)
      as (_ & _ & Hin & _ & _ & _ & _ & Htr & Hlen).
    exists j. rewrite Hin in Hj. simpl in Hj.
    rewrite length_fmap, Hlen in Hj. split; [done|].
    by rewrite Hc, Htr.
Qed.

Lemma init_failure_is_final_witness :
  ∃ w',
    App.create Examples.code 5 Examples.a_failing_b true
      = Some (Thrown (VStr "init failed"), w') ∧
    App.initialized w' = true ∧
    App.init_calls (App.trace w') = [0; 1] ∧
    App.init Examples.code 5 w' = Some (Normal, w').
Proof.
  assert (E : ∃ w',
            App.create Examples.code 5 Examples.a_failing_b true
            = Some (Thrown (VStr "init failed"), w'))
    by (eexists; vm_compute; reflexivity).
  destruct E as [w' E]. exists w'. split; [exact E|].
  destruct (init_failure_is_final Examples.code) as [H1 H2].
  destruct (H2 _ _ _ _ E) as (Hi & _).
  destruct (H1 _ _ _ _ Hi) as (_ & Hz & _ & Ha).
  split; [exact Hz|]. split; [|apply Ha].
  vm_compute in E. by injection E as <-.
Defined.

(** X9. A cleanup that throws ends the teardown: the cleanups called
    are those up to it, so that the cleanups of the plugins that come
    before it in the list are not called; and the teardown is not
    guarded: called again, it calls every cleanup again. *)
Theorem teardown_stops_at_throw (code : fid → value → App.cmd) :
  (∀ n cleanups w e w',
     App.run_cleanups code n cleanups w = Some (Thrown e, w') →
     ∃ j, j < length cleanups ∧
          App.cleanup_calls (App.trace w')
          = App.cleanup_calls (App.trace w) ++ take (S j) cleanups.*1) ∧
  (∀ n m cleanups w w1 w2,
     App.run_cleanups code n cleanups w = Some (Normal, w1) →
     App.run_cleanups code m cleanups w1 = Some (Normal, w2) →
     App.cleanup_calls (App.trace w2)
     = App.cleanup_calls (App.trace w) ++ cleanups.*1 ++ cleanups.*1).
Proof.
  split.
  - intros n cleanups w e w'. apply Failures.run_cleanups_thrown.
  - intros n m cleanups w w1 w2 H1 H2.
    rewrite (AppFacts.run_cleanups_calls code _ _ _ _ H2).
    rewrite (AppFacts.run_cleanups_calls code _ _ _ _ H1).
    by rewrite <- app_assoc.
Qed.

Lemma teardown_stops_at_throw_witness :
  ∃ w1 cleanups w2,
    App.call__init_teardown Examples.code 5 (App.compose Examples.a_failing_c)
      = Some (Normal, w1, cleanups) ∧
    App.run_cleanups Examples.code 5 cleanups w1
      = Some (Thrown (VStr "cleanup failed"), w2) ∧
    cleanups.*1 = [2; 1; 0] ∧
    App.cleanup_calls (App.trace w2) = [2; 1] ∧
    ∃ j, j < 3 ∧
         App.cleanup_calls (App.trace w2)
         = App.cleanup_calls (App.trace w1) ++ take (S j) [2; 1; 0].
Proof.
  assert (E1 : ∃ w1 cleanups,
            App.call__init_teardown Examples.code 5
              (App.compose Examples.a_failing_c) = Some (Normal, w1, cleanups) ∧
            cleanups.*1 = [2; 1; 0] ∧
            ∃ w2, App.run_cleanups Examples.code 5 cleanups w1
                  = Some (Thrown (VStr "cleanup failed"), w2) ∧
                  App.cleanup_calls (App.trace w2) = [2; 1]).
  { eexists. eexists. split; [vm_compute; reflexivity|].
    split; [reflexivity|].
    eexists. split; [vm_compute; reflexivity|reflexivity]. }
  destruct E1 as (w1 & cleanups & E1 & Hk & w2 & E2 & Hc2).
  exists w1, cleanups, w2. split_and!; [exact E1|exact E2|exact Hk|exact Hc2|].
  destruct (proj1 (teardown_stops_at_throw Examples.code) _ _ _ _ _ E2)
    as (j & Hj & Hc).
  exists j. split; [|by rewrite <- Hk].
  rewrite <- (length_fmap fst cleanups), Hk in Hj. exact Hj.
Defined.

(** X10. [api.addEdges(edges)] of the core plugin needs a method
    [api.setState], which the core plugin does not provide: on an
    instance whose api has no such method the call never returns
    normally, whatever the listeners do; without listeners for
    [beforeAddEdges] it emits this event and throws a TypeError, the
    state being untouched and [addEdges] not emitted.  The instance
    composed from plugins none of which has a [setState] in its api is
    such an instance, and it stays one under every execution. *)
Theorem addEdges_needs_setState (code : fid → value → App.cmd) :
  (∀ u edges w n r w',
     App.lacks_method "setState" w →
     App.exec code n (Core.addEdges u edges) w = Some (r, w') →
     r ≠ Normal) ∧
  (∀ u edges w n,
     App.lacks_method "setState" w →
     App.listeners w !! "beforeAddEdges" = None →
     App.exec code (S (S (S n))) (Core.addEdges u edges) w
     = Some (Thrown TypeError,
             App.log (App.Fired App.ByCode "beforeAddEdges" edges) w)) ∧
  (∀ plugins,
     Forall (λ r, props (App.p_api r) !! "setState" = None)
       (App.contributions plugins App.new_NodeFlow) →
     App.lacks_method "setState" (App.compose plugins)) ∧
  (∀ n c w r w',
     App.lacks_method "setState" w →
     App.exec code n c w = Some (r, w') →
     App.lacks_method "setState" w') ∧
  (∀ u arg w n,
     App.objs w !! App.api w ≫= (.!! "addEdges")
     = Some (VFun Core.core_addEdges) →
     App.exec (Core.with_addEdges u code) (S n)
       (App.CallApi Core.addEdges_name arg) w
     = App.exec (Core.with_addEdges u code) n
         (Core.addEdges u (arg (App.objs w) (App.state w))) w).
Proof.
  split_and!.
  - intros u edges w n r w' HI H.
    by destruct (CoreFacts.addEdges_throws code u edges w n r w' HI H).
  - intros u edges w n. apply CoreFacts.addEdges_type_error.
  - intros plugins. apply CoreFacts.compose_lacks_method.
  - intros n c w r w'. apply CoreFacts.lacks_method_preserved.
  - intros u arg w n Ha. cbn [App.exec].
    change (method_name Core.addEdges_name) with "addEdges". by rewrite Ha.
Qed.

Lemma addEdges_needs_setState_witness :
  App.lacks_method "setState" Examples.core_only ∧
  App.exec (Core.with_addEdges 9 Examples.code) 3
    (Core.addEdges 9 Examples.one_edge) Examples.core_only
  = Some (Thrown TypeError,
          App.log (App.Fired App.ByCode "beforeAddEdges" Examples.one_edge)
            Examples.core_only).
Proof.
  destruct (addEdges_needs_setState (Core.with_addEdges 9 Examples.code))
    as (_ & H2 & H3 & _).
  assert (HI : App.lacks_method "setState" Examples.core_only).
  { apply (H3 [Core.corePlugin]). constructor; [|constructor].
    vm_compute. reflexivity. }
  split; [exact HI|].
  apply (H2 9 Examples.one_edge Examples.core_only 0 HI).
  vm_compute. reflexivity.
Defined.

(** X11. The instance that [create] composes has in its state exactly
    the keys of the state fragments the plugins returned, and in its
    api exactly the keys of their api fragments: a plugin adds keys and
    replaces values, it removes no key; and the state and api objects
    are the ones [new NodeFlow()] made, written in place. *)
Theorem create_keeps_every_key :
  ∀ plugins,
    let w := App.compose plugins in
    let rs := App.contributions plugins App.new_NodeFlow in
    (∀ k, is_Some (App.objs w !! App.state w ≫= (.!! k)) ↔
          ∃ r, r ∈ rs ∧ is_Some (props (App.p_state r) !! k)) ∧
    (∀ k, is_Some (App.objs w !! App.api w ≫= (.!! k)) ↔
          ∃ r, r ∈ rs ∧ is_Some (props (App.p_api r) !! k)) ∧
    App.state w = App.state App.new_NodeFlow ∧
    App.api w = App.api App.new_NodeFlow ∧
    length (App.objs w) = length (App.objs App.new_NodeFlow).
Proof.
  intros plugins w rs.
  destruct (AppFacts.compose_spec plugins) as (Hs & Ha & _).
  destruct (CoreFacts.compose_objects plugins) as (Hs0 & Ha0 & Hlen).
  fold w in Hs, Ha, Hs0, Ha0, Hlen. fold rs in Hs, Ha.
  split_and!; try done.
  - intros k. rewrite Hs. simpl.
    rewrite MergeFacts.shallow_merge_is_Some. split.
    + intros (f & Hf & Hk). apply list_elem_of_fmap in Hf as (r & -> & Hr).
      by exists r.
    + intros (r & Hr & Hk). exists (props (App.p_state r)). split; [|done].
      apply list_elem_of_fmap. by exists r.
  - intros k. rewrite Ha. simpl.
    rewrite MergeFacts.shallow_merge_is_Some. split.
    + intros (f & Hf & Hk). apply list_elem_of_fmap in Hf as (r & -> & Hr).
      by exists r.
    + intros (r & Hr & Hk). exists (props (App.p_api r)). split; [|done].
      apply list_elem_of_fmap. by exists r.
Qed.

Lemma create_keeps_every_key_witness :
  is_Some (App.objs (App.compose [Examples.with_state Examples.x1;
                                  Examples.with_state Examples.x2y3])
             !! 0 ≫= (.!! "y")) ∧
  App.objs (App.compose [Examples.with_state Examples.x1;
                         Examples.with_state Examples.x2y3])
    !! 0 ≫= (.!! "z") = None.
Proof.
  destruct (create_keeps_every_key [Examples.with_state Examples.x1;
                                    Examples.with_state Examples.x2y3])
    as (Hs & _ & Hst & _).
  rewrite Hst in Hs. split.
  - apply (Hs "y"). eexists. split; [right; left|].
    vm_compute. by eexists.
  - apply eq_None_not_Some. intros Hz. apply (Hs "z") in Hz as (r & Hr & Hk).
    apply elem_of_cons in Hr as [->|Hr]; [by destruct Hk|].
    apply elem_of_cons in Hr as [->|Hr]; [by destruct Hk|].
    by apply elem_of_nil in Hr.
Defined.
